(** * minidbg: a ptrace debugger with a spectrum-based fault-localisation driver

    Shallow embedding of [src/minidbg.cpp] (and the class declaration of
    [debugger.hpp]) together with the properties stated in the specification.

    Conventions of the embedding:
    - machine integers are [Z] with the wrap-around written out;
    - [std::string] is [string], [std::vector] is [list],
      [std::map<int,int>] and [std::unordered_map] are [gmap Z _],
      [std::set<int>] is [gset Z];
    - the debugger is a state-passing program whose result records how the
      C++ function was left: by returning, by an exception, by undefined
      behaviour (an out-of-bounds [operator[]], a dereferenced end iterator)
      or because the loop bound of the model was reached;
    - the traced process and the kernel are an interface ([Ptrace]) the
      debugger is parametric in. *)

From Stdlib Require Import ZArith Lia Ascii.
From stdpp Require Import base strings list gmap sorting.
Open Scope Z_scope.

(** ** Fixed-width integers *)

(** [uint64_t] arithmetic result. *)
Definition u64 (z : Z) : Z := z mod 2 ^ 64.

(** Conversion to [std::intptr_t] (two's complement, 64 bits). *)
Definition to_intptr (z : Z) : Z := (z + 2 ^ 63) mod 2 ^ 64 - 2 ^ 63.

(** Conversion to [unsigned] (32 bits). *)
Definition to_unsigned (z : Z) : Z := z mod 2 ^ 32.

(** Conversion to [int] (two's complement, 32 bits). *)
Definition to_int (z : Z) : Z := (z + 2 ^ 31) mod 2 ^ 32 - 2 ^ 31.

(** ** The part of the C++ standard library the program uses *)

Module Cxx.

(** An input stream: the characters not yet extracted and the two state
    bits the program observes. *)
Record istream := { rdbuf : string; eofbit : bool; failbit : bool }.

Definition good (f : istream) : bool := negb (eofbit f || failbit f).

(** [operator bool] of a stream, as tested by [while (getline (...))]. *)
Definition ok (f : istream) : bool := negb (failbit f).

(** [std::stringstream ss{s}]. *)
Definition stringstream (s : string) : istream :=
  {| rdbuf := s; eofbit := false; failbit := false |}.

(** [std::ifstream::open]: [None] is a path that cannot be opened. *)
Definition open (content : option string) : istream :=
  match content with
  | Some c => {| rdbuf := c; eofbit := false; failbit := false |}
  | None => {| rdbuf := ""; eofbit := false; failbit := true |}
  end.

Definition is_open (content : option string) : bool :=
  match content with Some _ => true | None => false end.

(** Characters up to the delimiter; [Some rest] when the delimiter was
    found (and consumed), [None] when the end of the buffer was reached. *)
Fixpoint extract_until (delim : ascii) (s : string) : string * option string :=
  match s with
  | EmptyString => (EmptyString, None)
  | String c s' =>
      if Ascii.eqb c delim then (EmptyString, Some s')
      else let '(item, rest) := extract_until delim s' in (String c item, rest)
  end.

(** [std::getline (f, str, delim)]: when the stream is not good the sentry
    fails, [failbit] is set and [str] is left alone; otherwise [str] is
    erased and filled up to the delimiter or the end of input, and
    [failbit] is set when nothing at all was extracted. *)
Definition getline (f : istream) (str : string) (delim : ascii) : istream * string :=
  if good f then
    match extract_until delim (rdbuf f) with
    | (item, Some rest) =>
        ({| rdbuf := rest; eofbit := false; failbit := false |}, item)
    | (item, None) =>
        ({| rdbuf := EmptyString; eofbit := true;
            failbit := bool_decide (item = EmptyString) |}, item)
    end
  else ({| rdbuf := rdbuf f; eofbit := eofbit f; failbit := true |}, str).

Definition newline : ascii := "010"%char.
Definition NUL : ascii := "000"%char.

(** [std::string::operator[]]: defined up to and including [size ()],
    where it yields the terminator. *)
Fixpoint at_index (s : string) (pos : nat) : option ascii :=
  match s, pos with
  | EmptyString, O => Some NUL
  | EmptyString, S _ => None
  | String c _, O => Some c
  | String _ s', S p => at_index s' p
  end.

(** [std::string {s, pos}]: the suffix from [pos]; [None] stands for the
    [std::out_of_range] thrown when [pos > s.size ()]. *)
Fixpoint substr_from (s : string) (pos : nat) : option string :=
  match pos, s with
  | O, _ => Some s
  | S _, EmptyString => None
  | S p, String _ s' => substr_from s' p
  end.

(** [s.find (c) != std::string::npos]. *)
Fixpoint contains (s : string) (c : ascii) : bool :=
  match s with
  | EmptyString => false
  | String a s' => Ascii.eqb a c || contains s' c
  end.

(** [const char*] view of a string: [strlen] stops at the first NUL. *)
Fixpoint c_str (s : string) : string :=
  match s with
  | EmptyString => EmptyString
  | String c s' => if Ascii.eqb c NUL then EmptyString else String c (c_str s')
  end.

(** The tokens successive [strtok (_, delim)] calls return: maximal runs
    of characters outside [delim]. [tok] is the token being collected. *)
Fixpoint strtok_tokens (delim : string) (s : string) (tok : string) : list string :=
  match s with
  | EmptyString => if decide (tok = EmptyString) then [] else [tok]
  | String c s' =>
      if contains delim c then
        (if decide (tok = EmptyString) then strtok_tokens delim s' EmptyString
         else tok :: strtok_tokens delim s' EmptyString)
      else strtok_tokens delim s' (tok +:+ String c EmptyString)
  end.

End Cxx.

(** ** String helpers of minidbg.cpp *)

(** [std::equal (s.begin (), s.end (), of.begin ())]; the callers guard
    [s.size () <= of.size ()]. *)
Fixpoint std_equal (s of_ : string) : bool :=
  match s, of_ with
  | EmptyString, _ => true
  | String a s', String b of' => Ascii.eqb a b && std_equal s' of'
  | String _ _, EmptyString => false
  end.

Fixpoint string_drop (n : nat) (s : string) : string :=
  match n, s with
  | O, _ => s
  | S _, EmptyString => EmptyString
  | S n', String _ s' => string_drop n' s'
  end.

(** minidbg.cpp:136 *)
Definition is_prefix (s of_ : string) : bool :=
  if (String.length of_ <? String.length s)%nat then false
  else std_equal s of_.

(** minidbg.cpp:141 *)
Definition is_suffix (s of_ : string) : bool :=
  if (String.length of_ <? String.length s)%nat then false
  else
    let diff := (String.length of_ - String.length s)%nat in
    std_equal s (string_drop diff of_).

(** minidbg.cpp:409, [split (s, delimiter)]: the loop
    [while (std::getline (ss, item, delimiter)) out.push_back (item)].
    Every successful [getline] extracts at least one character, so the loop
    bound chosen in [split] is never reached ([split_loop_bound]). *)
Fixpoint split_loop (bound : nat) (ss : Cxx.istream) (item : string)
    (delimiter : ascii) (out : list string) : list string :=
  match bound with
  | O => out
  | S n =>
      let '(ss', item') := Cxx.getline ss item delimiter in
      if Cxx.ok ss' then split_loop n ss' item' delimiter (out ++ [item'])
      else out
  end.

Definition split (s : string) (delimiter : ascii) : list string :=
  split_loop (S (S (String.length s))) (Cxx.stringstream s) EmptyString delimiter [].

(** minidbg.cpp:620, [split (const char *s, const char *delim)], the
    [strtok] tokenizer of the batch driver. *)
Definition split_strtok (s : string) (delim : string) : list string :=
  let s := Cxx.c_str s in
  if (0 <? String.length s)%nat then Cxx.strtok_tokens (Cxx.c_str delim) s EmptyString
  else [].

(** minidbg.cpp:512 *)
Fixpoint CountLines_loop (bound : nat) (f : Cxx.istream) (tmp : string) (n : Z) : Z :=
  match bound with
  | O => n
  | S b =>
      let '(f', tmp') := Cxx.getline f tmp Cxx.newline in
      if Cxx.ok f' then CountLines_loop b f' tmp' (n + 1) else n
  end.

Definition CountLines (file : option string) : Z :=
  let ReadFile := Cxx.open file in
  if Cxx.failbit ReadFile then 0
  else CountLines_loop (S (S (String.length (Cxx.rdbuf ReadFile)))) ReadFile EmptyString 0.

(** minidbg.cpp:530. The loop condition is
    [getline (file, temp) && i < line - 1]: the line is read before the
    counter is compared. *)
Fixpoint ReadLine_loop (bound : nat) (f : Cxx.istream) (temp : string) (i line : Z) : string :=
  match bound with
  | O => temp
  | S b =>
      let '(f', temp') := Cxx.getline f temp Cxx.newline in
      if Cxx.ok f' && (i <? line - 1) then ReadLine_loop b f' temp' (i + 1) line
      else temp'
  end.

Definition ReadLine (file : option string) (line : Z) : string :=
  let f := Cxx.open file in
  let lines := CountLines file in
  if line <=? 0 then "Error 1: 行数错误，不能为0或负数。"
  else if Cxx.failbit f then "Error 2: 文件不存在。"
  else if lines <? line then "Error 3: 行数超出文件长度。"
  else ReadLine_loop (S (S (String.length (Cxx.rdbuf f)))) f EmptyString 0 line.

(** ** How a C++ function is left *)

Inductive exception :=
| out_of_range (what : string)
| runtime_error (what : string)
| invalid_argument (what : string).

(** The undefined behaviour the program can run into. *)
Inductive undefined_behaviour :=
| index_out_of_bounds      (* operator[] of a std::vector beyond its size *)
| end_iterator             (* -> or ++ on an end iterator *)
| dangling_reference.      (* a reference to an erased map entry *)

Inductive outcome (A : Type) :=
| Returns (a : A)
| Throws (e : exception)
| Undefined (ub : undefined_behaviour)
| Unfinished.    (* the loop bound of the model was reached *)
Arguments Returns {A} a.
Arguments Throws {A} e.
Arguments Undefined {A} ub.
Arguments Unfinished {A}.

(** State-passing computations; the state survives an exception, as the
    mutations of a C++ function do. *)
Definition M (S A : Type) : Type := S → outcome A * S.

Definition ret {S A} (a : A) : M S A := λ s, (Returns a, s).
Definition throw {S A} (e : exception) : M S A := λ s, (Throws e, s).
Definition undefined {S A} (ub : undefined_behaviour) : M S A := λ s, (Undefined ub, s).
Definition unfinished {S A} : M S A := λ s, (Unfinished, s).

Definition bind {S A B} (c : M S A) (k : A → M S B) : M S B :=
  λ s, match c s with
       | (Returns a, s') => k a s'
       | (Throws e, s') => (Throws e, s')
       | (Undefined ub, s') => (Undefined ub, s')
       | (Unfinished, s') => (Unfinished, s')
       end.

Definition gets {S A} (f : S → A) : M S A := λ s, (Returns (f s), s).
Definition modify {S} (f : S → S) : M S unit := λ s, (Returns tt, f s).

(** [try { c } catch (std::out_of_range) { handler }] *)
Definition try_catch_out_of_range {S A} (c : M S A) (handler : M S A) : M S A :=
  λ s, match c s with
       | (Throws (out_of_range _), s') => handler s'
       | r => r
       end.

Notation "'let*' x ':=' c 'in' k" := (bind c (λ x, k))
  (at level 10, x name, c at level 100, k at level 200).
Notation "c ';;' k" := (bind c (λ _, k))
  (at level 100, k at level 200, right associativity, only parsing).

(** [v[i]] on a [std::vector]. *)
Definition index {S A} (v : list A) (i : nat) : M S A :=
  match v !! i with
  | Some a => ret a
  | None => undefined index_out_of_bounds
  end.

(** ** Number parsing ([std::stol], [std::stoi]) *)

Definition isspace (c : ascii) : bool :=
  let n := Ascii.nat_of_ascii c in
  (n =? 32)%nat || ((9 <=? n)%nat && (n <=? 13)%nat).

Definition digit_value (c : ascii) : option Z :=
  let n := Z.of_nat (Ascii.nat_of_ascii c) in
  if (48 <=? n) && (n <=? 57) then Some (n - 48)
  else if (97 <=? n) && (n <=? 122) then Some (n - 87)
  else if (65 <=? n) && (n <=? 90) then Some (n - 55)
  else None.

Definition is_digit (base : Z) (c : ascii) : bool :=
  match digit_value c with
  | Some d => d <? base
  | None => false
  end.

(** The longest run of digits of the base; [acc] is [None] until one digit
    has been read. *)
Fixpoint digits (base : Z) (s : string) (acc : option Z) : option Z :=
  match s with
  | EmptyString => acc
  | String c s' =>
      match digit_value c with
      | Some d => if d <? base then digits base s' (Some (default 0 acc * base + d)) else acc
      | None => acc
      end
  end.

Fixpoint skip_space (s : string) : string :=
  match s with
  | String c s' => if isspace c then skip_space s' else s
  | EmptyString => s
  end.

(** [strtol]: blanks, a sign, for base 16 an optional [0x] that is followed
    by a digit, then digits; what follows is ignored. [None] when there is
    nothing to convert. *)
Definition strtol (s : string) (base : Z) : option Z :=
  let s := skip_space s in
  let '(negative, s) :=
    match s with
    | String "-" s' => (true, s')
    | String "+" s' => (false, s')
    | _ => (false, s)
    end in
  let s :=
    match s with
    | String "0" (String x ((String d _) as rest)) =>
        if bool_decide (base = 16) && (Ascii.eqb x "x" || Ascii.eqb x "X") && is_digit 16 d
        then rest else s
    | _ => s
    end in
  match digits base s None with
  | Some v => Some (if negative : bool then - v else v)
  | None => None
  end.

Definition stol {S} (s : string) (base : Z) : M S Z :=
  match strtol s base with
  | None => throw (invalid_argument "stol")
  | Some v =>
      if (v <? - 2 ^ 63) || (2 ^ 63 <=? v) then throw (out_of_range "stol") else ret v
  end.

Definition stoi {S} (s : string) : M S Z :=
  match strtol s 10 with
  | None => throw (invalid_argument "stoi")
  | Some v =>
      if (v <? - 2 ^ 31) || (2 ^ 31 <=? v) then throw (out_of_range "stoi") else ret v
  end.

(** [std::string {s, pos}] in the monad. *)
Definition substr {S} (s : string) (pos : nat) : M S string :=
  match Cxx.substr_from s pos with
  | Some t => ret t
  | None => throw (out_of_range "basic_string")
  end.

(** ** Output *)

(** What is inserted into [std::cout] / [std::cerr], one item per [<<]. *)
Inductive chunk :=
| Str (s : string)
| Chr (c : ascii)
| Num (z : Z)
| Endl
| Hex
| Setfill (c : ascii)
| Setw (n : Z).

(** ** Debug information and symbols (the libelfin collaborator) *)

Record line_entry := {
  le_path : string;      (* file->path *)
  le_line : Z;           (* unsigned *)
  le_is_stmt : bool;
  le_address : Z         (* taddr, 64 bits *)
}.

Inductive DW_TAG := subprogram | variable | compile_unit | other_tag.

Global Instance DW_TAG_eq_dec : EqDecision DW_TAG.
Proof. solve_decision. Defined.

Inductive expr_result_type := address_loc | reg_loc | literal_loc.

Record expr_result := { location_type : expr_result_type; value : Z }.

(** The capabilities a location expression is evaluated against
    (minidbg.cpp:341, [ptrace_expr_context]). *)
Record expr_context := {
  ctx_reg : Z → outcome Z;
  ctx_pc : Z;
  ctx_deref_size : Z → Z → Z
}.

Inductive location_value :=
| exprloc (evaluate : expr_context → outcome expr_result)
| other_location.

#[local] Unset Elimination Schemes.
Inductive die := Die {
  die_tag : DW_TAG;
  die_name : option string;            (* DW_AT_name, when present *)
  die_low_pc : Z;
  die_high_pc : Z;
  die_ranges : list (Z * Z);           (* die_pc_range *)
  die_location : option location_value;
  die_children : list die
}.
#[local] Set Elimination Schemes.

Record compilation_unit := {
  cu_root : die;
  cu_line_table : list line_entry
}.

(** Modelled from the spec: [die_pc_range (d).contains (pc)] of the
    debug-info library, the membership test derived from the low and high
    program counter or the ranges of the entry. *)
Definition die_contains (d : die) (pc : Z) : bool :=
  existsb (λ r, (r.1 <=? pc) && (pc <? r.2)) (die_ranges d).

(** Modelled from the spec: [line_table::find_address] of the debug-info
    library is not part of this repository. It yields the entry whose row
    covers [pc] (address at most [pc], next row's address above it) as a
    position in the table, and the end position when no row covers [pc]. *)
Fixpoint find_address_from (pos : nat) (lt : list line_entry) (pc : Z) : option nat :=
  match lt with
  | prev :: ((next :: _) as rest) =>
      if (le_address prev <=? pc) && (pc <? le_address next) then Some pos
      else find_address_from (S pos) rest pc
  | _ => None
  end.

Definition find_address (lt : list line_entry) (pc : Z) : option nat :=
  find_address_from 0 lt pc.

(** A [line_table::iterator]: a table and a position; the end iterator is
    the position [length table]. *)
Record line_iterator := { it_table : list line_entry; it_pos : nat }.

Definition it_next (it : line_iterator) : line_iterator :=
  {| it_table := it_table it; it_pos := S (it_pos it) |}.

Definition it_deref (it : line_iterator) : option line_entry :=
  it_table it !! it_pos it.

(** [elf::sht] and [elf::stt], as far as the program tells them apart. *)
Module elf.
Inductive sht := symtab | dynsym | other_sht.
Inductive stt := notype | object | func | section | file | other_stt.
End elf.

Record elf_sym := { sym_name : string; sym_type : elf.stt; sym_value : Z }.
Record elf_section := { sec_type : elf.sht; sec_symbols : list elf_sym }.

(** debugger.hpp: [enum class symbol_type] and [struct symbol]. *)
Module symbol_type.
Inductive t := notype | object | func | section | file.
End symbol_type.

Record symbol := { type : symbol_type.t; name : string; addr : Z }.

(** minidbg.cpp:25 *)
Definition to_symbol_type (sym : elf.stt) : symbol_type.t :=
  match sym with
  | elf.notype => symbol_type.notype
  | elf.object => symbol_type.object
  | elf.func => symbol_type.func
  | elf.section => symbol_type.section
  | elf.file => symbol_type.file
  | elf.other_stt => symbol_type.notype
  end.

(** debugger.hpp, [to_string (symbol_type)] *)
Definition to_string (st : symbol_type.t) : string :=
  match st with
  | symbol_type.notype => "notype"
  | symbol_type.object => "object"
  | symbol_type.func => "func"
  | symbol_type.section => "section"
  | symbol_type.file => "file"
  end.

(** ** The traced process *)

Record siginfo_t := { si_signo : Z; si_code : Z }.

Definition SIGTRAP : Z := 5.
Definition SIGSEGV : Z := 11.
Definition SI_KERNEL : Z := 128.
Definition TRAP_BRKPT : Z := 1.
Definition TRAP_TRACE : Z := 2.

(** Modelled from the spec: registers.hpp is not part of the sources. The
    27 registers of the kernel's per-task register dump, in its layout
    order. *)
Module reg.
Inductive t :=
| r15 | r14 | r13 | r12 | rbp | rbx | r11 | r10 | r9 | r8 | rax | rcx | rdx
| rsi | rdi | orig_rax | rip | cs | eflags | rsp | ss | fs_base | gs_base
| ds | es | fs | gs.
End reg.
Abbreviation reg := reg.t.

Global Instance reg_eq_dec : EqDecision reg.
Proof. solve_decision. Defined.

(** Modelled from the spec: the register descriptors of registers.hpp, each
    register with its DWARF register number and its name, in the order of
    the kernel's register dump. *)
Record reg_descriptor := { r : reg; dwarf_r : Z; reg_name : string }.

Definition g_register_descriptors : list reg_descriptor :=
  [ {| r := reg.r15; dwarf_r := 15; reg_name := "r15" |};
    {| r := reg.r14; dwarf_r := 14; reg_name := "r14" |};
    {| r := reg.r13; dwarf_r := 13; reg_name := "r13" |};
    {| r := reg.r12; dwarf_r := 12; reg_name := "r12" |};
    {| r := reg.rbp; dwarf_r := 6; reg_name := "rbp" |};
    {| r := reg.rbx; dwarf_r := 3; reg_name := "rbx" |};
    {| r := reg.r11; dwarf_r := 11; reg_name := "r11" |};
    {| r := reg.r10; dwarf_r := 10; reg_name := "r10" |};
    {| r := reg.r9; dwarf_r := 9; reg_name := "r9" |};
    {| r := reg.r8; dwarf_r := 8; reg_name := "r8" |};
    {| r := reg.rax; dwarf_r := 0; reg_name := "rax" |};
    {| r := reg.rcx; dwarf_r := 2; reg_name := "rcx" |};
    {| r := reg.rdx; dwarf_r := 1; reg_name := "rdx" |};
    {| r := reg.rsi; dwarf_r := 4; reg_name := "rsi" |};
    {| r := reg.rdi; dwarf_r := 5; reg_name := "rdi" |};
    {| r := reg.orig_rax; dwarf_r := -1; reg_name := "orig_rax" |};
    {| r := reg.rip; dwarf_r := -1; reg_name := "rip" |};
    {| r := reg.cs; dwarf_r := 51; reg_name := "cs" |};
    {| r := reg.eflags; dwarf_r := 49; reg_name := "eflags" |};
    {| r := reg.rsp; dwarf_r := 7; reg_name := "rsp" |};
    {| r := reg.ss; dwarf_r := 52; reg_name := "ss" |};
    {| r := reg.fs_base; dwarf_r := 58; reg_name := "fs_base" |};
    {| r := reg.gs_base; dwarf_r := 59; reg_name := "gs_base" |};
    {| r := reg.ds; dwarf_r := 53; reg_name := "ds" |};
    {| r := reg.es; dwarf_r := 50; reg_name := "es" |};
    {| r := reg.fs; dwarf_r := 54; reg_name := "fs" |};
    {| r := reg.gs; dwarf_r := 55; reg_name := "gs" |} ].

(** The requests that act on the tracee; the debugger keeps no such log,
    it is the record of the system calls it issued. *)
Inductive request :=
| PTRACE_POKEDATA (addr data : Z)
| PTRACE_SETREGS (r : reg) (v : Z)
| PTRACE_CONT
| PTRACE_SINGLESTEP.

(** The kernel's process-tracing facility, as seen from the debugger. [T]
    is everything that determines what the tracee does next. *)
Class Ptrace (T : Type) := {
  getregs : T → reg → Z;            (* PTRACE_GETREGS, one field *)
  setregs : T → reg → Z → T;        (* PTRACE_GETREGS, PTRACE_SETREGS *)
  peekdata : T → Z → Z;             (* PTRACE_PEEKDATA, a 64-bit word *)
  pokedata : T → Z → Z → T;
  cont : T → T;
  singlestep : T → T;
  waitpid : T → T;                  (* blocks until the tracee stops or exits *)
  getsiginfo : T → siginfo_t;
  strsignal : Z → string
}.

(** ** Breakpoints *)

(** Modelled from the spec: breakpoint.hpp is not part of the sources. A
    breakpoint owns a tracee address and the byte it overwrote. *)
Record breakpoint := {
  m_addr : Z;            (* std::intptr_t *)
  m_enabled : bool;
  m_saved_data : Z       (* the low byte of the word that was at m_addr *)
}.

(** Modelled from the spec: [breakpoint bp{pid, addr}], a breakpoint that is
    not armed yet. *)
Definition new_breakpoint (addr : Z) : breakpoint :=
  {| m_addr := addr; m_enabled := false; m_saved_data := 0 |}.

(** Modelled from the spec: [bp.is_enabled ()]. *)
Definition is_enabled (bp : breakpoint) : bool := m_enabled bp.

Definition int3 : Z := 204. (* 0xCC *)

(** Modelled from the spec: the word written to arm a breakpoint (the low
    byte replaced by the trap opcode), and the one written to disarm it (the
    saved byte back in the low position). *)
Definition armed_word (data : Z) : Z := Z.lor (Z.land data (Z.lnot 255)) int3.
Definition restored_word (data saved : Z) : Z := Z.lor (Z.land data (Z.lnot 255)) saved.

(** Order of the entries of a [std::map<int,int>]. *)
Definition key_le (a b : Z * Z) : Prop := a.1 ≤ b.1.

Global Instance key_le_dec : RelDecision key_le.
Proof. intros a b. unfold key_le. apply _. Defined.

(** ** The debugger *)

Section Debugger.

Context {T : Type} `{!Ptrace T}.

(** The process-wide mutables of minidbg.cpp:20 and the two output
    streams. *)
Record globals := {
  last : Z;                  (* static int last *)
  success_set : gset Z;
  fail_set : gset Z;
  cout : list chunk;
  cerr : list chunk
}.

(** A [debugger] object with the process it traces, next to the globals.
    [ptrace_log] is not a member of the class: it records, in order, the
    requests the debugger has issued on the tracee. *)
Record state := {
  glob : globals;
  m_pid : T;                 (* the process with this pid, as ptrace shows it *)
  ptrace_log : list request;
  m_breakpoints : gmap Z breakpoint;
  source_map : gmap Z Z
}.

Definition set_glob (f : globals → globals) (s : state) : state :=
  {| glob := f (glob s); m_pid := m_pid s; ptrace_log := ptrace_log s;
     m_breakpoints := m_breakpoints s; source_map := source_map s |}.

Definition set_last (v : Z) (g : globals) : globals :=
  {| last := v; success_set := success_set g; fail_set := fail_set g;
     cout := cout g; cerr := cerr g |}.

Definition put_cout (cs : list chunk) (g : globals) : globals :=
  {| last := last g; success_set := success_set g; fail_set := fail_set g;
     cout := cout g ++ cs; cerr := cerr g |}.

Definition put_cerr (cs : list chunk) (g : globals) : globals :=
  {| last := last g; success_set := success_set g; fail_set := fail_set g;
     cout := cout g; cerr := cerr g ++ cs |}.

Definition set_success_set (x : gset Z) (g : globals) : globals :=
  {| last := last g; success_set := x; fail_set := fail_set g;
     cout := cout g; cerr := cerr g |}.

Definition set_fail_set (x : gset Z) (g : globals) : globals :=
  {| last := last g; success_set := success_set g; fail_set := x;
     cout := cout g; cerr := cerr g |}.

(** A request that acts on the tracee. *)
Definition ptrace (rq : request) (s : state) : state :=
  {| glob := glob s;
     m_pid := match rq with
              | PTRACE_POKEDATA a d => pokedata (m_pid s) a d
              | PTRACE_SETREGS r v => setregs (m_pid s) r v
              | PTRACE_CONT => cont (m_pid s)
              | PTRACE_SINGLESTEP => singlestep (m_pid s)
              end;
     ptrace_log := ptrace_log s ++ [rq];
     m_breakpoints := m_breakpoints s; source_map := source_map s |}.

Definition do_waitpid (s : state) : state :=
  {| glob := glob s; m_pid := waitpid (m_pid s); ptrace_log := ptrace_log s;
     m_breakpoints := m_breakpoints s; source_map := source_map s |}.

Definition set_breakpoints (f : gmap Z breakpoint → gmap Z breakpoint) (s : state) : state :=
  {| glob := glob s; m_pid := m_pid s; ptrace_log := ptrace_log s;
     m_breakpoints := f (m_breakpoints s); source_map := source_map s |}.

Definition set_source_map (f : gmap Z Z → gmap Z Z) (s : state) : state :=
  {| glob := glob s; m_pid := m_pid s; ptrace_log := ptrace_log s;
     m_breakpoints := m_breakpoints s; source_map := f (source_map s) |}.

Definition print (cs : list chunk) : M state unit := modify (set_glob (put_cout cs)).
Definition print_err (cs : list chunk) : M state unit := modify (set_glob (put_cerr cs)).

(** What the debugger was built from: the DWARF and ELF views of the
    program, the files [std::ifstream] can open, and the bound put on
    every loop that waits for the tracee. *)
Variable m_dwarf : list compilation_unit.
Variable m_elf : list elf_section.
Variable files : string → option string.
Variable bound : nat.

(** *** Registers and memory *)

(** Modelled from the spec: [get_register_value (pid, r)] of registers.hpp
    reads one register of the kernel's register dump. *)
Definition get_register_value (r : reg) : M state Z :=
  gets (λ s, getregs (m_pid s) r).

(** Modelled from the spec: [set_register_value (pid, r, v)] of
    registers.hpp writes one register. *)
Definition set_register_value (r : reg) (v : Z) : M state unit :=
  modify (ptrace (PTRACE_SETREGS r v)).

(** Modelled from the spec: [get_register_from_name] of registers.hpp
    fails when the name is unknown. *)
Definition get_register_from_name (name : string) : M state reg :=
  match find (λ rd, bool_decide (reg_name rd = name)) g_register_descriptors with
  | Some rd => ret (r rd)
  | None => throw (out_of_range "Unknown register")
  end.

(** Modelled from the spec: [get_register_value_from_dwarf_register] of
    registers.hpp reads a register by its DWARF number and fails when the
    number is unknown. *)
Definition get_register_value_from_dwarf_register (t : T) (regnum : Z) : outcome Z :=
  match find (λ rd, bool_decide (dwarf_r rd = regnum)) g_register_descriptors with
  | Some rd => Returns (getregs t (r rd))
  | None => Throws (out_of_range "Unknown dwarf register")
  end.

(** minidbg.cpp:60 *)
Definition get_pc : M state Z := get_register_value reg.rip.

(** minidbg.cpp:64 *)
Definition set_pc (pc : Z) : M state unit := set_register_value reg.rip pc.

(** minidbg.cpp:401 *)
Definition read_memory (address : Z) : M state Z :=
  gets (λ s, peekdata (m_pid s) address).

(** minidbg.cpp:405 *)
Definition write_memory (address value : Z) : M state unit :=
  modify (ptrace (PTRACE_POKEDATA address value)).

(** *** The breakpoint object *)

(** Modelled from the spec: [bp.enable ()] of breakpoint.hpp. If not already
    enabled, read the word at the address, save its low byte, write the word
    back with the trap opcode in the low byte, mark enabled. The result is
    the object after the call. *)
Definition enable (bp : breakpoint) : M state breakpoint :=
  if m_enabled bp then ret bp
  else
    let* data := read_memory (u64 (m_addr bp)) in
    modify (ptrace (PTRACE_POKEDATA (u64 (m_addr bp)) (armed_word data))) ;;
    ret {| m_addr := m_addr bp; m_enabled := true; m_saved_data := Z.land data 255 |}.

(** Modelled from the spec: [bp.disable ()] of breakpoint.hpp. If enabled,
    read the word, put the saved byte back in its low position, write the
    word, mark disabled. *)
Definition disable (bp : breakpoint) : M state breakpoint :=
  if m_enabled bp then
    let* data := read_memory (u64 (m_addr bp)) in
    modify (ptrace (PTRACE_POKEDATA (u64 (m_addr bp))
                      (restored_word data (m_saved_data bp)))) ;;
    ret {| m_addr := m_addr bp; m_enabled := false; m_saved_data := m_saved_data bp |}
  else ret bp.

(** A method called through a reference into the table
    ([auto &bp = m_breakpoints[k]; bp.method ()]): the entry is updated in
    place; a reference whose entry is gone is undefined behaviour. *)
Definition through_reference (k : Z) (method : breakpoint → M state breakpoint)
    : M state unit :=
  let* entry := gets (λ s, m_breakpoints s !! k) in
  match entry with
  | None => undefined dangling_reference
  | Some bp =>
      let* bp' := method bp in
      modify (set_breakpoints <[k := bp']>)
  end.

(** [m_breakpoints.count (a)]; the key type is [std::intptr_t]. *)
Definition count (a : Z) : M state bool :=
  gets (λ s, bool_decide (is_Some (m_breakpoints s !! to_intptr a))).

(** *** Address to source mapping *)

(** minidbg.cpp:68 *)
Definition find_function (pc : Z) : option die :=
  let in_cu (cu : compilation_unit) : option die :=
    if die_contains (cu_root cu) pc then
      find (λ d, bool_decide (die_tag d = subprogram) && die_contains d pc)
           (die_children (cu_root cu))
    else None in
  head (omap in_cu m_dwarf).

Definition get_function_from_pc (pc : Z) : M state die :=
  match find_function pc with
  | Some d => ret d
  | None => throw (out_of_range "Cannot find function")
  end.

(** minidbg.cpp:84: the first compilation unit whose range contains [pc]
    decides. *)
Definition find_line_entry (pc : Z) : option line_iterator :=
  match find (λ cu, die_contains (cu_root cu) pc) m_dwarf with
  | Some cu =>
      match find_address (cu_line_table cu) pc with
      | Some pos => Some {| it_table := cu_line_table cu; it_pos := pos |}
      | None => None
      end
  | None => None
  end.

Definition get_line_entry_from_pc (pc : Z) : M state line_iterator :=
  match find_line_entry pc with
  | Some it => ret it
  | None => throw (out_of_range "Cannot find line entry")
  end.

(** [it->field]: dereferencing the end iterator is undefined. *)
Definition arrow {A} (it : line_iterator) (field : line_entry → A) : M state A :=
  match it_deref it with
  | Some e => ret (field e)
  | None => undefined end_iterator
  end.

(** *** Source printing *)

(** minidbg.cpp:554. [last] is an [int] and [line] an [unsigned]: the
    comparison is made on [unsigned], the assignment and the map key
    convert to [int]. *)
Definition print_source_advice (file_name : string) (line : Z) : M state unit :=
  let line := to_unsigned line in
  let* last_ := gets (λ s, last (glob s)) in
  if bool_decide (to_unsigned last_ = line) then ret tt
  else
    modify (set_glob (set_last (to_int line))) ;;
    print [Str "Now Execute--"; Num line; Str "Line"; Str "
"] ;;
    let* ite := gets (λ s, source_map s !! to_int line) in
    match ite with
    | None => modify (set_source_map <[to_int line := 1]>)
    | Some second => modify (set_source_map <[to_int line := second + 1]>)
    end ;;
    print [Str (ReadLine (files (Cxx.c_str file_name)) (to_int line))] ;;
    print [Endl].

(** minidbg.cpp:113, with the default [n_lines_context = 2]. All the
    arithmetic is [unsigned]. *)
Fixpoint skip_to_line (text : string) (current_line start_line : Z) : string * Z :=
  if bool_decide (current_line = start_line) then (text, current_line)
  else match text with
       | EmptyString => (EmptyString, current_line)
       | String c text' =>
           skip_to_line text'
             (if Ascii.eqb c Cxx.newline then to_unsigned (current_line + 1) else current_line)
             start_line
       end.

Definition marker (current_line line : Z) : chunk :=
  Str (if bool_decide (current_line = line) then "> " else "  ").

Fixpoint echo_lines (text : string) (current_line end_line line : Z) : list chunk :=
  if end_line <? current_line then []
  else match text with
       | EmptyString => []
       | String c text' =>
           if Ascii.eqb c Cxx.newline then
             Chr c :: marker (to_unsigned (current_line + 1)) line
               :: echo_lines text' (to_unsigned (current_line + 1)) end_line line
           else Chr c :: echo_lines text' current_line end_line line
       end.

Definition print_source (file_name : string) (line : Z) : M state unit :=
  let line := to_unsigned line in
  let n_lines_context := 2 in
  let text := default EmptyString (files file_name) in
  let start_line :=
    if line <=? n_lines_context then 1 else to_unsigned (line - n_lines_context) in
  let end_line :=
    to_unsigned (line + n_lines_context
                 + (if line <? n_lines_context then n_lines_context - line else 0) + 1) in
  let '(text', current_line) := skip_to_line text 1 start_line in
  print [marker current_line line] ;;
  print (echo_lines text' current_line end_line line) ;;
  print [Endl].

(** *** Signals and resumption *)

(** minidbg.cpp:153 *)
Definition handle_sigtrap (info : siginfo_t) : M state unit :=
  if bool_decide (si_code info = SI_KERNEL) || bool_decide (si_code info = TRAP_BRKPT) then
    let* pc := get_pc in
    set_pc (u64 (pc - 1)) ;;
    let* pc' := get_pc in
    let* line_entry := get_line_entry_from_pc pc' in
    let* path := arrow line_entry le_path in
    let* line := arrow line_entry le_line in
    print_source_advice path line
  else if bool_decide (si_code info = TRAP_TRACE) then ret tt
  else print [Str "Unknown SIGTRAP code "; Num (si_code info); Endl].

(** minidbg.cpp:175 *)
Definition wait_for_signal : M state unit :=
  modify do_waitpid ;;
  let* siginfo := gets (λ s, getsiginfo (m_pid s)) in
  if bool_decide (si_signo siginfo = SIGTRAP) then handle_sigtrap siginfo
  else if bool_decide (si_signo siginfo = SIGSEGV) then
    print [Str "Yay, segfault. Reason: "; Num (si_code siginfo); Endl]
  else print [Str "Got signal "; Str (strsignal (si_signo siginfo)); Endl].

(** minidbg.cpp:200 *)
Definition single_step_instruction : M state unit :=
  modify (ptrace PTRACE_SINGLESTEP) ;;
  wait_for_signal.

(** minidbg.cpp:205. [bp] is a reference to the entry at the program
    counter read on entry; it is used again after the step. *)
Definition step_over_breakpoint : M state unit :=
  let* pc := get_pc in
  let* present := count pc in
  if present then
    let* pc := get_pc in
    let k := to_intptr pc in
    let* enabled := gets (λ s, from_option is_enabled false (m_breakpoints s !! k)) in
    if enabled then
      through_reference k disable ;;
      single_step_instruction ;;
      through_reference k enable
    else ret tt
  else ret tt.

(** minidbg.cpp:194 *)
Definition continue_execution : M state unit :=
  step_over_breakpoint ;;
  modify (ptrace PTRACE_CONT) ;;
  wait_for_signal.

(** minidbg.cpp:278 *)
Definition single_step_instruction_with_breakpoint_check : M state unit :=
  let* pc := get_pc in
  let* present := count pc in
  (if present then step_over_breakpoint else single_step_instruction) ;;
  let* pc := get_pc in
  let* line_entry := get_line_entry_from_pc pc in
  let* path := arrow line_entry le_path in
  let* line := arrow line_entry le_line in
  print_source_advice path line.

(** *** Breakpoint table *)

(** minidbg.cpp:299 *)
Definition set_breakpoint_at_address (addr : Z) : M state unit :=
  let* bp := enable (new_breakpoint addr) in
  modify (set_breakpoints <[addr := bp]>).

(** minidbg.cpp:292. [m_breakpoints.at (addr)] throws when there is no
    entry. *)
Definition remove_breakpoint (addr : Z) : M state unit :=
  let* entry := gets (λ s, m_breakpoints s !! addr) in
  match entry with
  | None => throw (out_of_range "unordered_map::at")
  | Some bp =>
      (if is_enabled bp then through_reference addr disable else ret tt) ;;
      modify (set_breakpoints (delete addr))
  end.

(** minidbg.cpp:306. [++entry] may reach the end of the table. *)
Fixpoint set_breakpoint_at_function_dies (name : string) (dies : list die) : M state unit :=
  match dies with
  | [] => ret tt
  | d :: dies' =>
      (if bool_decide (die_name d = Some name) then
         let low_pc := die_low_pc d in
         let* entry := get_line_entry_from_pc low_pc in
         let entry := it_next entry in (* skip prologue *)
         let* a := arrow entry le_address in
         set_breakpoint_at_address (to_intptr a)
       else ret tt) ;;
      set_breakpoint_at_function_dies name dies'
  end.

Fixpoint set_breakpoint_at_function_cus (name : string) (cus : list compilation_unit)
    : M state unit :=
  match cus with
  | [] => ret tt
  | cu :: cus' =>
      set_breakpoint_at_function_dies name (die_children (cu_root cu)) ;;
      set_breakpoint_at_function_cus name cus'
  end.

Definition set_breakpoint_at_function (name : string) : M state unit :=
  set_breakpoint_at_function_cus name m_dwarf.

(** Modelled from the spec: [at_name (d)] of the debug-info library; an
    entry without the attribute makes the library throw. *)
Definition at_name (d : die) : M state string :=
  match die_name d with
  | Some n => ret n
  | None => throw (out_of_range "DIE does not have attribute")
  end.

(** minidbg.cpp:319: the first statement row of the line in the first
    matching unit that has one. *)
Fixpoint set_breakpoint_at_source_line_cus (file : string) (line : Z)
    (cus : list compilation_unit) : M state unit :=
  match cus with
  | [] => ret tt
  | cu :: cus' =>
      let* cu_name := at_name (cu_root cu) in
      if is_suffix file cu_name then
        match find (λ entry, le_is_stmt entry && bool_decide (le_line entry = line))
                   (cu_line_table cu) with
        | Some entry => set_breakpoint_at_address (to_intptr (le_address entry))
        | None => set_breakpoint_at_source_line_cus file line cus'
        end
      else set_breakpoint_at_source_line_cus file line cus'
  end.

Definition set_breakpoint_at_source_line (file : string) (line : Z) : M state unit :=
  set_breakpoint_at_source_line_cus file (to_unsigned line) m_dwarf.

(** *** Stepping *)

(** The loop of minidbg.cpp:227; [rest] is the table from the iterator
    [line] on, so the empty list is the end iterator. *)
Fixpoint step_over_lines (rest : list line_entry) (func_end : Z)
    (start_line : line_iterator) (breakpoints_to_remove : list Z) : M state (list Z) :=
  match rest with
  | [] => undefined end_iterator
  | line :: rest' =>
      if le_address line <? func_end then
        let* start_address := arrow start_line le_address in
        let* present := count (le_address line) in
        let* breakpoints_to_remove :=
          (if negb (bool_decide (le_address line = start_address)) && negb present then
             set_breakpoint_at_address (to_intptr (le_address line)) ;;
             ret (breakpoints_to_remove ++ [to_intptr (le_address line)])
           else ret breakpoints_to_remove) in
        step_over_lines rest' func_end start_line breakpoints_to_remove
      else ret breakpoints_to_remove
  end.

Fixpoint remove_breakpoints (addrs : list Z) : M state unit :=
  match addrs with
  | [] => ret tt
  | addr :: addrs' => remove_breakpoint addr ;; remove_breakpoints addrs'
  end.

(** minidbg.cpp:216 *)
Definition step_over : M state unit :=
  let* pc := get_pc in
  let* func := get_function_from_pc pc in
  let func_entry := die_low_pc func in
  let func_end := die_high_pc func in
  let* line := get_line_entry_from_pc func_entry in
  let* pc := get_pc in
  let* start_line := get_line_entry_from_pc pc in
  let* breakpoints_to_remove :=
    step_over_lines (drop (it_pos line) (it_table line)) func_end start_line [] in
  let* frame_pointer := get_register_value reg.rbp in
  let* return_address := read_memory (u64 (frame_pointer + 8)) in
  let* present := count return_address in
  let* breakpoints_to_remove :=
    (if negb present then
       set_breakpoint_at_address (to_intptr return_address) ;;
       ret (breakpoints_to_remove ++ [to_intptr return_address])
     else ret breakpoints_to_remove) in
  continue_execution ;;
  remove_breakpoints breakpoints_to_remove.

(** minidbg.cpp:250 *)
Definition step_out : M state unit :=
  let* frame_pointer := get_register_value reg.rbp in
  let* return_address := read_memory (u64 (frame_pointer + 8)) in
  let* present := count return_address in
  let* should_remove_breakpoint :=
    (if negb present then
       set_breakpoint_at_address (to_intptr return_address) ;; ret true
     else ret false) in
  continue_execution ;;
  if should_remove_breakpoint then remove_breakpoint (to_intptr return_address)
  else ret tt.

Definition current_line : M state Z :=
  let* pc := get_pc in
  let* it := get_line_entry_from_pc pc in
  arrow it le_line.

(** [while (get_line_entry_from_pc (get_pc ())->line == line)] *)
Fixpoint step_in_loop (n : nat) (line : Z) : M state unit :=
  match n with
  | O => unfinished
  | S n' =>
      let* l := current_line in
      if bool_decide (l = line) then
        single_step_instruction_with_breakpoint_check ;;
        step_in_loop n' line
      else ret tt
  end.

(** minidbg.cpp:267 *)
Definition step_in : M state unit :=
  let* line := current_line in
  step_in_loop bound line ;;
  let* pc := get_pc in
  let* line_entry := get_line_entry_from_pc pc in
  let* path := arrow line_entry le_path in
  let* l := arrow line_entry le_line in
  print_source path l.

(** minidbg.cpp:581 *)
Definition step_in_advice : M state unit :=
  let* line := current_line in
  step_in_loop bound line ;;
  let* pc := get_pc in
  let* line_entry := get_line_entry_from_pc pc in
  ret tt.

(** The entries of a [std::map<int,int>] in iteration order. *)
Definition in_key_order (m : gmap Z Z) : list (Z * Z) :=
  merge_sort key_le (map_to_list m).

(** The loop of minidbg.cpp:600: [true] when the handler ran and broke
    out of the loop. *)
Fixpoint runAdvice_loop (n : nat) : M state unit :=
  match n with
  | O => unfinished
  | S n' =>
      let* broke :=
        try_catch_out_of_range
          (step_in_advice ;; ret false)
          (continue_execution ;; ret true) in
      if broke then ret tt else runAdvice_loop n'
  end.

(** minidbg.cpp:592 *)
Definition runAdvice : M state unit :=
  modify do_waitpid ;;
  set_breakpoint_at_function "main" ;;
  continue_execution ;;
  runAdvice_loop bound ;;
  print [Str "
"] ;;
  print [Str "Conclusion:   
"] ;;
  let* hits := gets (λ s, in_key_order (source_map s)) in
  print (flat_map (λ kv, [Str "Line "; Num kv.1; Str "was executed for"; Str " : ";
                          Num kv.2; Str " TIMES"; Str "
"]) hits) ;;
  modify (set_glob (set_last 0)).

(** *** Inspection commands *)

(** minidbg.cpp:334 *)
Fixpoint dump_registers_from (rds : list reg_descriptor) : M state unit :=
  match rds with
  | [] => ret tt
  | rd :: rds' =>
      let* v := get_register_value (r rd) in
      print [Str (reg_name rd); Str " 0x"; Setfill "0"; Setw 16; Hex; Num v; Endl] ;;
      dump_registers_from rds'
  end.

Definition dump_registers : M state unit :=
  dump_registers_from g_register_descriptors.

(** minidbg.cpp:341 *)
Definition ptrace_expr_context (t : T) : expr_context :=
  {| ctx_reg := get_register_value_from_dwarf_register t;
     ctx_pc := getregs t reg.rip;
     ctx_deref_size := λ address size, peekdata t address |}.

(** Lifts a computation that only reads the tracee. *)
Definition lift_outcome {A} (o : outcome A) : M state A := λ s, (o, s).

(** minidbg.cpp:364 *)
Fixpoint read_variables_dies (dies : list die) : M state unit :=
  match dies with
  | [] => ret tt
  | d :: dies' =>
      (if bool_decide (die_tag d = variable) then
         match die_location d with
         | None => throw (out_of_range "DIE does not have attribute")
         | Some (exprloc evaluate) =>
             let* t := gets m_pid in
             let* result := lift_outcome (evaluate (ptrace_expr_context t)) in
             match location_type result with
             | address_loc =>
                 let* v := read_memory (value result) in
                 let* n := at_name d in
                 print [Str n; Str " (0x"; Hex; Num (value result); Str ") = "; Num v; Endl]
             | reg_loc =>
                 let* v := lift_outcome
                             (get_register_value_from_dwarf_register t (value result)) in
                 let* n := at_name d in
                 print [Str n; Str " (reg "; Num (value result); Str ") = "; Num v; Endl]
             | literal_loc => throw (runtime_error "Unhandled variable location")
             end
         | Some other_location => throw (runtime_error "Unhandled variable location")
         end
       else ret tt) ;;
      read_variables_dies dies'
  end.

Definition read_variables : M state unit :=
  let* pc := get_pc in
  let* func := get_function_from_pc pc in
  read_variables_dies (die_children func).

(** minidbg.cpp:424, the [output_frame] closure. *)
Definition output_frame (frame_number : Z) (func : die) : M state unit :=
  print [Str "frame #"; Num frame_number; Str ": 0x"; Num (die_low_pc func); Chr " "] ;;
  let* n := at_name func in
  print [Str n; Endl].

Fixpoint print_backtrace_loop (n : nat) (current_func : die)
    (frame_number frame_pointer return_address : Z) : M state unit :=
  match n with
  | O => unfinished
  | S n' =>
      let* cur := at_name current_func in
      if bool_decide (cur = "main") then ret tt
      else
        let* current_func := get_function_from_pc return_address in
        output_frame frame_number current_func ;;
        let* frame_pointer := read_memory frame_pointer in
        let* return_address := read_memory (u64 (frame_pointer + 8)) in
        print_backtrace_loop n' current_func (frame_number + 1) frame_pointer return_address
  end.

(** minidbg.cpp:421 *)
Definition print_backtrace : M state unit :=
  let* pc := get_pc in
  let* current_func := get_function_from_pc pc in
  output_frame 0 current_func ;;
  let* frame_pointer := get_register_value reg.rbp in
  let* return_address := read_memory (u64 (frame_pointer + 8)) in
  print_backtrace_loop bound current_func 1 frame_pointer return_address.

(** minidbg.cpp:42 *)
Definition lookup_symbol (n : string) : list symbol :=
  flat_map
    (λ sec,
       match sec_type sec with
       | elf.symtab | elf.dynsym =>
           omap (λ sym,
                   if bool_decide (sym_name sym = n)
                   then Some {| type := to_symbol_type (sym_type sym);
                                name := sym_name sym; addr := sym_value sym |}
                   else None)
                (sec_symbols sec)
       | elf.other_sht => []
       end)
    m_elf.

(** *** The command dispatcher (minidbg.cpp:441) *)

Inductive keyword :=
| cmd_cont | cmd_break | cmd_step | cmd_next | cmd_finish | cmd_stepi
| cmd_status | cmd_register | cmd_memory | cmd_variables | cmd_backtrace
| cmd_symbol | cmd_unknown.

(** The [if (is_prefix (command, ...)) ... else if ...] chain, in its
    order. *)
Definition dispatch (command : string) : keyword :=
  if is_prefix command "cont" then cmd_cont
  else if is_prefix command "break" then cmd_break
  else if is_prefix command "step" then cmd_step
  else if is_prefix command "next" then cmd_next
  else if is_prefix command "finish" then cmd_finish
  else if is_prefix command "stepi" then cmd_stepi
  else if is_prefix command "status" then cmd_status
  else if is_prefix command "register" then cmd_register
  else if is_prefix command "memory" then cmd_memory
  else if is_prefix command "variables" then cmd_variables
  else if is_prefix command "backtrace" then cmd_backtrace
  else if is_prefix command "symbol" then cmd_symbol
  else cmd_unknown.

Definition print_current_source : M state unit :=
  let* pc := get_pc in
  let* line_entry := get_line_entry_from_pc pc in
  let* path := arrow line_entry le_path in
  let* line := arrow line_entry le_line in
  print_source path line.

Definition command_break (args : list string) : M state unit :=
  let* a1 := index args 1 in
  (* args[1][0] == '0' && args[1][1] == 'x': position 1 is read only when
     position 0 holds a character, so both reads are within size () *)
  let c0 := default Cxx.NUL (Cxx.at_index a1 0) in
  let c1 := default Cxx.NUL (Cxx.at_index a1 1) in
  if Ascii.eqb c0 "0" && Ascii.eqb c1 "x" then
    let* addr := substr a1 2 in
    let* a := stol addr 16 in
    set_breakpoint_at_address a
  else if Cxx.contains a1 ":" then
    let file_and_line := split a1 ":" in
    let* f := index file_and_line 0 in
    let* l := index file_and_line 1 in
    let* n := stoi l in
    set_breakpoint_at_source_line f n
  else set_breakpoint_at_function a1.

Definition command_register (args : list string) : M state unit :=
  let* a1 := index args 1 in
  if is_prefix a1 "dump" then dump_registers
  else if is_prefix a1 "read" then
    let* a2 := index args 2 in
    let* rg := get_register_from_name a2 in
    let* v := get_register_value rg in
    print [Num v; Endl]
  else if is_prefix a1 "write" then
    let* a3 := index args 3 in
    let* val := substr a3 2 in (* assume 0xVAL *)
    let* a2 := index args 2 in
    let* rg := get_register_from_name a2 in
    let* v := stol val 16 in
    set_register_value rg (u64 v)
  else ret tt.

Definition command_memory (args : list string) : M state unit :=
  let* a2 := index args 2 in
  let* addr := substr a2 2 in (* assume 0xADDRESS *)
  let* a1 := index args 1 in
  (if is_prefix a1 "read" then
     let* a := stol addr 16 in
     let* v := read_memory (u64 a) in
     print [Hex; Num v; Endl]
   else ret tt) ;;
  let* a1 := index args 1 in
  if is_prefix a1 "write" then
    let* a3 := index args 3 in
    let* val := substr a3 2 in (* assume 0xVAL *)
    let* a := stol addr 16 in
    let* v := stol val 16 in
    write_memory (u64 a) (u64 v)
  else ret tt.

Definition command_symbol (args : list string) : M state unit :=
  let* a1 := index args 1 in
  let syms := lookup_symbol a1 in
  print (flat_map (λ s, [Str (name s); Chr " "; Str (to_string (type s)); Str " 0x"; Hex;
                         Num (addr s); Endl]) syms).

(** The branch each keyword selects. *)
Definition run_command (c : keyword) (args : list string) : M state unit :=
  match c with
  | cmd_cont => continue_execution
  | cmd_break => command_break args
  | cmd_step => step_in
  | cmd_next => step_over
  | cmd_finish => step_out
  | cmd_stepi => single_step_instruction_with_breakpoint_check ;; print_current_source
  | cmd_status => print_current_source
  | cmd_register => command_register args
  | cmd_memory => command_memory args
  | cmd_variables => read_variables
  | cmd_backtrace => print_backtrace
  | cmd_symbol => command_symbol args
  | cmd_unknown => print_err [Str "Unknown command
"]
  end.

Definition handle_command (line : string) : M state unit :=
  let args := split line " " in
  let* command := index args 0 in
  run_command (dispatch command) args.

(** minidbg.cpp:100; [lines] is what the line editor returns, prompt after
    prompt, until end of input. *)
Fixpoint run_lines (lines : list string) : M state unit :=
  match lines with
  | [] => ret tt
  | line :: lines' => handle_command line ;; run_lines lines'
  end.

Definition run (lines : list string) : M state unit :=
  modify do_waitpid ;;
  run_lines lines.

(** *** The batch driver (minidbg.cpp:639) *)

(** What [fork] gives the parent at its [i]-th call: the child as the
    debugger will see it through ptrace, or [None] when [fork] fails; and
    what the file 1.txt holds when it is read after that run. *)
Variable fork : nat → option T.
Variable answer_file : nat → option string.

Definition out (cs : list chunk) : M globals unit := modify (put_cout cs).

(** [debugger dbg{prog, pid}] *)
Definition new_debugger (g : globals) (pid : T) : state :=
  {| glob := g; m_pid := pid; ptrace_log := []; m_breakpoints := ∅; source_map := ∅ |}.

(** The scope of the local [dbg]. *)
Definition with_debugger {A} (pid : T) (c : M state A) : M globals A :=
  λ g, let '(o, s) := c (new_debugger g pid) in (o, glob s).

(** [for (iter = m.begin (); iter != m.end (); iter++) set.insert (iter->first)] *)
Definition insert_keys (m : gmap Z Z) (set : gset Z) : gset Z :=
  foldl (λ acc kv, {[kv.1]} ∪ acc) set (in_key_order m).

(** minidbg.cpp:684-710: the expected line is the next line of the batch
    file, the actual one the first line of 1.txt. *)
Definition classify (file : Cxx.istream) (strLine : string) (answer : option string)
    : M state (Cxx.istream * string) :=
  let '(file, strLine) := Cxx.getline file strLine Cxx.newline in
  print [Str "correct answer:"; Str strLine; Endl] ;;
  let infile := Cxx.open answer in
  let '(_, line) := Cxx.getline infile EmptyString Cxx.newline in
  print [Str "test answer: "; Str line; Str "
"] ;;
  (if bool_decide (line = strLine) then
     print [Str "success-----
"] ;;
     let* m := gets source_map in
     modify (set_glob (λ g, set_success_set (insert_keys m (success_set g)) g)) ;;
     modify (set_source_map (λ _, ∅))
   else
     print [Str "fail-----
"] ;;
     let* m := gets source_map in
     modify (set_glob (λ g, set_fail_set (insert_keys m (fail_set g)) g)) ;;
     modify (set_source_map (λ _, ∅))) ;;
  ret (file, strLine).

(** The parent's branch of the loop body, [pid >= 1]. *)
Definition parent (pid : T) (i : nat) (file : Cxx.istream) (strLine : string)
    : M globals (Cxx.istream * string) :=
  with_debugger pid
    (runAdvice ;;
     print [Str "
"] ;;
     print [Str "result----- 
"] ;;
     modify do_waitpid ;;
     classify file strLine (answer_file i)).

(** The child's branch, [pid == 0], up to the call that replaces the
    process image: what the child returns from [main] when
    [PTRACE_TRACEME] fails, or the [execl] call it makes. *)
Inductive exec_call := execl (path : string) (arg : list string).

Fixpoint index_all {S A} (v : list A) (positions : list nat) : M S (list A) :=
  match positions with
  | [] => ret []
  | i :: positions' =>
      let* a := index v i in
      let* rest := index_all v positions' in
      ret (a :: rest)
  end.

Definition child (prog : string) (traceme : Z) (vec : list string)
    : M globals (Z + exec_call) :=
  if traceme <? 0 then
    modify (put_cerr [Str "Error in ptrace
"]) ;;
    ret (inl 0)
  else
    let* arg := index_all vec (seq 0 9) in
    ret (inr (execl prog (Cxx.c_str <$> arg))).

(** [while (getline (file, strLine))], as the parent process runs it; [i]
    counts the calls of [fork]. The tokens [vec] of the line are used by the
    child only, which runs [child prog traceme vec]. *)
Fixpoint main_loop (n : nat) (file : Cxx.istream) (strLine : string) (i : nat)
    : M globals unit :=
  match n with
  | O => unfinished
  | S n' =>
      let '(file, strLine) := Cxx.getline file strLine Cxx.newline in
      if Cxx.ok file then
        let vec := split_strtok strLine " " in
        match fork i with
        | Some pid =>
            let* next := parent pid i file strLine in
            main_loop n' next.1 next.2 (S i)
        | None => main_loop n' file strLine (S i)
        end
      else ret tt
  end.

Definition fault_message (n : Z) : list chunk :=
  [Str "Line :"; Num n; Str " is likely to be a fault
"].

(** minidbg.cpp:719, the loop over [fail_set] in ascending order. *)
Fixpoint analyze_loop (its : list Z) : M globals unit :=
  match its with
  | [] => ret tt
  | it :: its' =>
      let* absent := gets (λ g, bool_decide (it ∉ success_set g)) in
      (if absent then out (fault_message it) else ret tt) ;;
      analyze_loop its'
  end.

Definition analyze : M globals unit :=
  out [Str "ANALYZE :  
"] ;;
  let* its := gets (λ g, merge_sort Z.le (elements (fail_set g))) in
  analyze_loop its.

(** minidbg.cpp:639; [argc] is the length of [argv]. An exception that
    leaves [main] ends the process. *)
Definition main (argv : list string) : M globals Z :=
  if (length argv <? 3)%nat then
    modify (put_cerr [Str "Program name not specified"]) ;;
    ret (-1)
  else
    let* prog := index argv 1 in
    let* filePath := index argv 2 in
    let batch := files (Cxx.c_str filePath) in
    let file := Cxx.open batch in
    if negb (Cxx.is_open batch) then ret 0
    else
      main_loop (S (S (String.length (Cxx.rdbuf file)))) file EmptyString 0 ;;
      analyze ;;
      ret 0.

(** The exit status the parent of the process observes. *)
Definition exit_status (code : Z) : Z := code mod 256.

End Debugger.


(** ** The vocabulary of the properties *)

Definition prefix_of (p k : string) : Prop := ∃ t, k = p +:+ t.

(** What a stream can still deliver: nothing once it is not good. *)
Definition remaining (f : Cxx.istream) : nat :=
  if Cxx.good f then S (String.length (Cxx.rdbuf f)) else 0%nat.

(** The keyword literal each branch of [handle_command] tests. *)
Definition keyword_text (c : keyword) : option string :=
  match c with
  | cmd_cont => Some "cont"
  | cmd_break => Some "break"
  | cmd_step => Some "step"
  | cmd_next => Some "next"
  | cmd_finish => Some "finish"
  | cmd_stepi => Some "stepi"
  | cmd_status => Some "status"
  | cmd_register => Some "register"
  | cmd_memory => Some "memory"
  | cmd_variables => Some "variables"
  | cmd_backtrace => Some "backtrace"
  | cmd_symbol => Some "symbol"
  | cmd_unknown => None
  end.

(** The command set as the specification words it: the first keyword is
    [continue]. *)
Definition spec_keyword_text (c : keyword) : option string :=
  match c with
  | cmd_cont => Some "continue"
  | _ => keyword_text c
  end.

(** [p] is a prefix of the keyword of [c] and of no other keyword. *)
Definition unique_prefix (text : keyword → option string) (p : string) (c : keyword) : Prop :=
  (∃ k, text c = Some k ∧ prefix_of p k) ∧
  (∀ c' k', text c' = Some k' → prefix_of p k' → c' = c).

(** [std::stol (s, 0, 16)] returns. *)
Definition stol_returns (s : string) : bool :=
  match strtol s 16 with
  | Some v => negb ((v <? - 2 ^ 63) || (2 ^ 63 <=? v))
  | None => false
  end.

(** The number of tokens the branch selected by the first token indexes
    before it does anything else that can fail: [args[0]] always, [args[1]]
    for break and symbol, up to [args[3]] for register and memory. *)
Definition operands_read (args : list string) : nat :=
  match args with
  | [] => 1
  | command :: _ =>
      match dispatch command with
      | cmd_break | cmd_symbol => 2
      | cmd_register =>
          match args !! 1%nat with
          | None => 2
          | Some a1 =>
              if is_prefix a1 "dump" then 2
              else if is_prefix a1 "read" then 3
              else if is_prefix a1 "write" then 4
              else 2
          end
      | cmd_memory =>
          match args !! 1%nat, args !! 2%nat with
          | Some a1, Some a2 =>
              match Cxx.substr_from a2 2 with
              | Some addr =>
                  if is_prefix a1 "write" && (negb (is_prefix a1 "read") || stol_returns addr)
                  then 4 else 3
              | None => 3
              end
          | _, _ => 3
          end
      | _ => 1
      end
  end.

(** The text of a stream up to its first newline. *)
Fixpoint first_line (s : string) : string :=
  match s with
  | EmptyString => EmptyString
  | String c s' => if Ascii.eqb c Cxx.newline then EmptyString else String c (first_line s')
  end.

(** The lines the loop over [fail_set] reports, in order. *)
Definition suspicious (g : globals) : list Z :=
  filter (λ n, n ∉ success_set g) (merge_sort Z.le (elements (fail_set g))).

(** The address a request writes tracee memory at. *)
Definition poked (rq : request) : option Z :=
  match rq with
  | PTRACE_POKEDATA a _ => Some a
  | _ => None
  end.

Definition pokes (l : list request) : list Z := omap poked l.

(** What identifies a breakpoint: its address and whether it is armed. The
    saved byte is read again each time the breakpoint is armed. *)
Definition bp_view (bp : breakpoint) : Z * bool := (m_addr bp, m_enabled bp).

Section Vocabulary.

Context {T : Type}.
Variable files : string → option string.

(** The number of hits recorded for a line. *)
Definition hits (s : @state T) (line : Z) : Z := default 0 (source_map s !! to_int line).

(** What [print_source_advice] does when the line differs from [last]. *)
Definition advised (file_name : string) (line : Z) (s : @state T) : @state T :=
  {| glob :=
       set_last (to_int line)
         (put_cout [Str "Now Execute--"; Num line; Str "Line"; Str "
";
                    Str (ReadLine (files (Cxx.c_str file_name)) (to_int line)); Endl]
            (glob s));
     m_pid := m_pid s; ptrace_log := ptrace_log s; m_breakpoints := m_breakpoints s;
     source_map := <[to_int line := hits s line + 1]> (source_map s) |}.

(** The step left the breakpoint table alone and wrote no tracee memory. *)
Definition quiet (s s' : @state T) : Prop :=
  m_breakpoints s' = m_breakpoints s ∧
  ∃ l, ptrace_log s' = ptrace_log s ++ l ∧ pokes l = [].

(** What a step over the breakpoint at key [k] may do: no other entry of
    the table changes, the entry at [k] keeps its address, it is armed
    again when the call returns, and tracee memory is written only at the
    address of that breakpoint. *)
Definition shadowed (k : Z) (s : @state T) (o : outcome unit) (s' : @state T) : Prop :=
  (∀ k', k' ≠ k → m_breakpoints s' !! k' = m_breakpoints s !! k') ∧
  m_addr <$> m_breakpoints s' !! k = m_addr <$> m_breakpoints s !! k ∧
  (o = Returns tt →
     m_enabled <$> m_breakpoints s' !! k = m_enabled <$> m_breakpoints s !! k) ∧
  ∃ l, ptrace_log s' = ptrace_log s ++ l ∧
       ∀ a, a ∈ pokes l → ∃ bp, m_breakpoints s !! k = Some bp ∧ a = u64 (m_addr bp).

(** The temporary breakpoints a call has installed so far: keys that were
    free when the call began; every other entry is as it was. *)
Definition temporaries (added : list Z) (s s' : @state T) : Prop :=
  NoDup added ∧
  (∀ k, k ∈ added → m_breakpoints s !! k = None) ∧
  (∀ k, k ∈ added → is_Some (m_breakpoints s' !! k)) ∧
  (∀ k, k ∉ added → m_breakpoints s' !! k = m_breakpoints s !! k).

End Vocabulary.

(** [k] ends with [p]. *)
Definition suffix_of (p k : string) : Prop := ∃ t, k = t +:+ p.

(** The tokens of a split put together again, the delimiter between
    them. *)
Fixpoint join (d : ascii) (l : list string) : string :=
  match l with
  | [] => EmptyString
  | x :: l' =>
      match l' with
      | [] => x
      | _ :: _ => x +:+ String d (join d l')
      end
  end.

(** [s] without its last character when that character is [d]. *)
Fixpoint strip_last (d : ascii) (s : string) : string :=
  match s with
  | EmptyString => EmptyString
  | String c s' =>
      match s' with
      | EmptyString => if Ascii.eqb c d then EmptyString else s
      | String _ _ => String c (strip_last d s')
      end
  end.

(** [s] without the characters of [delim]. *)
Fixpoint without (delim s : string) : string :=
  match s with
  | EmptyString => EmptyString
  | String c s' =>
      if Cxx.contains delim c then without delim s' else String c (without delim s')
  end.

(** The number of occurrences of a character. *)
Fixpoint occurrences (d : ascii) (s : string) : nat :=
  match s with
  | EmptyString => 0
  | String c s' => ((if Ascii.eqb c d then 1 else 0) + occurrences d s')%nat
  end.

(** Whether the text ends in a character other than [d]. *)
Fixpoint unterminated (d : ascii) (s : string) : bool :=
  match s with
  | EmptyString => false
  | String c s' =>
      match s' with
      | EmptyString => negb (Ascii.eqb c d)
      | String _ _ => unterminated d s'
      end
  end.

(** A relation between the state before and after holds for a
    computation of the debugger, however it ends. *)
Definition preserves {T A} (R : relation (@state T)) (c : M (@state T) A) : Prop :=
  ∀ s, R s (c s).2.

(** The two classification sets are the same in both states. *)
Definition same_sets {T} (s s' : @state T) : Prop :=
  success_set (glob s') = success_set (glob s) ∧ fail_set (glob s') = fail_set (glob s).

(** The second state is the first with more written to the standard
    output. *)
Definition only_prints {T} (s s' : @state T) : Prop :=
  m_pid s' = m_pid s ∧ ptrace_log s' = ptrace_log s ∧
  m_breakpoints s' = m_breakpoints s ∧ source_map s' = source_map s ∧
  ∃ out, glob s' = put_cout out (glob s).

(** A computation that at most adds lines to the classification sets. *)
Definition grows_sets {T A} (c : M (@state T) A) : Prop :=
  ∀ s, success_set (glob s) ⊆ success_set (glob (c s).2) ∧
       fail_set (glob s) ⊆ fail_set (glob (c s).2).

(** ** A scripted tracee

    A small instance of the tracing interface, used to run the debugger on
    concrete inputs: registers, memory, and the list of stops (program
    counter and signal) the next [waitpid] calls will report. *)

Record toy := {
  toy_regs : reg → Z;
  toy_mem : Z → Z;
  toy_siginfo : siginfo_t;
  toy_script : list (Z * siginfo_t)
}.

Definition toy_setregs (t : toy) (r : reg) (v : Z) : toy :=
  {| toy_regs := λ r', if decide (r' = r) then v else toy_regs t r';
     toy_mem := toy_mem t; toy_siginfo := toy_siginfo t; toy_script := toy_script t |}.

Definition toy_pokedata (t : toy) (a d : Z) : toy :=
  {| toy_regs := toy_regs t;
     toy_mem := λ a', if decide (a' = a) then d else toy_mem t a';
     toy_siginfo := toy_siginfo t; toy_script := toy_script t |}.

Definition toy_waitpid (t : toy) : toy :=
  match toy_script t with
  | [] => t
  | (pc, info) :: script =>
      {| toy_regs := λ r', if decide (r' = reg.rip) then pc else toy_regs t r';
         toy_mem := toy_mem t; toy_siginfo := info; toy_script := script |}
  end.

Global Instance toy_ptrace : Ptrace toy := {|
  getregs := toy_regs;
  setregs := toy_setregs;
  peekdata := toy_mem;
  pokedata := toy_pokedata;
  cont := id;
  singlestep := id;
  waitpid := toy_waitpid;
  getsiginfo := toy_siginfo;
  strsignal := λ _, "signal"
|}.

Definition toy_globals : globals :=
  {| last := 0; success_set := ∅; fail_set := ∅; cout := []; cerr := [] |}.

(** A tracee stopped at [pc] with frame pointer [fp], all of memory zero. *)
Definition toy_at (pc fp : Z) (script : list (Z * siginfo_t)) : toy :=
  {| toy_regs := λ r, if decide (r = reg.rip) then pc
                      else if decide (r = reg.rbp) then fp else 0;
     toy_mem := λ _, 0;
     toy_siginfo := {| si_signo := 0; si_code := 0 |};
     toy_script := script |}.

Definition toy_state (t : toy) (bps : gmap Z breakpoint) : state :=
  {| glob := toy_globals; m_pid := t; ptrace_log := [];
     m_breakpoints := bps; source_map := ∅ |}.

(** Debug information of a program whose [main] spans the addresses
    4096..4111, four source lines of four bytes each. *)
Definition toy_lines : list line_entry :=
  [ {| le_path := "a.c"; le_line := 1; le_is_stmt := true; le_address := 4096 |};
    {| le_path := "a.c"; le_line := 2; le_is_stmt := true; le_address := 4100 |};
    {| le_path := "a.c"; le_line := 3; le_is_stmt := true; le_address := 4104 |};
    {| le_path := "a.c"; le_line := 4; le_is_stmt := true; le_address := 4108 |};
    {| le_path := "a.c"; le_line := 4; le_is_stmt := true; le_address := 4112 |} ].

Definition toy_main : die :=
  {| die_tag := subprogram; die_name := Some "main"; die_low_pc := 4096;
     die_high_pc := 4112; die_ranges := [(4096, 4112)]; die_location := None;
     die_children := [] |}.

Definition toy_dwarf : list compilation_unit :=
  [ {| cu_root := {| die_tag := compile_unit; die_name := Some "a.c"; die_low_pc := 4096;
                     die_high_pc := 4112; die_ranges := [(4096, 4112)];
                     die_location := None; die_children := [toy_main] |};
       cu_line_table := toy_lines |} ].

Definition toy_files : string → option string :=
  λ path, if decide (path = "a.c") then Some "int main() {
  int x = 1;
  x = x + 1;
  return x; }
" else None.

Definition sigtrap (code : Z) : siginfo_t := {| si_signo := SIGTRAP; si_code := code |}.

(** A debugger attached to a tracee stopped at the first row of [main],
    with no breakpoints. *)
Definition toy_idle : state := toy_state (toy_at 4096 0 []) ∅.

(** Two runs of the program under the batch driver. Each starts with the
    stop at exec, hits the breakpoint after the prologue of [main] (the trap
    leaves the program counter one past 4100), is single-stepped through
    the rows of [main], leaves the instrumented code and exits. The first
    run executes lines 2, 3 and 4, the second skips line 3. *)
Definition exited : siginfo_t := {| si_signo := 0; si_code := 0 |}.

Definition toy_failing_run : toy :=
  toy_at 0 0 [(0, sigtrap 0); (4101, sigtrap SI_KERNEL); (4104, sigtrap TRAP_TRACE);
              (4108, sigtrap TRAP_TRACE); (8000, sigtrap TRAP_TRACE); (8000, exited)].

Definition toy_passing_run : toy :=
  toy_at 0 0 [(0, sigtrap 0); (4101, sigtrap SI_KERNEL); (4108, sigtrap TRAP_TRACE);
              (8000, sigtrap TRAP_TRACE); (8000, exited)].

Definition toy_fork (i : nat) : option toy :=
  match i with
  | O => Some toy_failing_run
  | 1%nat => Some toy_passing_run
  | _ => None
  end.

(** What 1.txt holds after each run. *)
Definition toy_answers (i : nat) : option string :=
  match i with
  | O => Some "wrong
"
  | _ => Some "right
"
  end.

(** A debugger that has just printed line 2 ([last] is 2) and whose tracee
    runs into the breakpoint at 4100, on line 2, again. *)
Definition toy_armed : breakpoint :=
  {| m_addr := 4100; m_enabled := true; m_saved_data := 0 |}.

(** The tracee [toy_at pc fp script] with the trap opcode written at 4100. *)
Definition toy_trapped_at (pc fp : Z) (script : list (Z * siginfo_t)) : toy :=
  toy_pokedata (toy_at pc fp script) 4100 int3.

Definition toy_repeated_hit : state :=
  {| glob := {| last := 2; success_set := ∅; fail_set := ∅; cout := []; cerr := [] |};
     m_pid := toy_trapped_at 4104 0 [(4101, sigtrap SI_KERNEL)];
     ptrace_log := []; m_breakpoints := {[ 4100 := toy_armed ]}; source_map := {[ 2 := 1 ]} |}.

(** A debugger stopped on the breakpoint at 4100 whose tracee, stepped once,
    stops at the next row. *)
Definition toy_on_breakpoint : state :=
  toy_state (toy_trapped_at 4100 0 [(4104, sigtrap TRAP_TRACE)]) {[ 4100 := toy_armed ]}.

(** The same, but the step ends in a trap at address 0, which has no line
    entry. *)
Definition toy_step_traps : state :=
  toy_state (toy_trapped_at 4100 0 [(1, sigtrap SI_KERNEL)]) {[ 4100 := toy_armed ]}.

(** A debugger stopped on line 3, with a breakpoint on line 2, whose tracee
    runs to its end when resumed. *)
Definition toy_finishing : state :=
  toy_state (toy_trapped_at 4104 0 [(8000, exited)]) {[ 4100 := toy_armed ]}.

(** A tracee that traps at address 0, outside the program's debug
    information. *)
Definition toy_trap_outside : state :=
  toy_state (toy_at 4104 0 [(1, sigtrap SI_KERNEL)]) ∅.

(** The batch file cases.txt: two cases, both expecting the answer right. *)
Definition toy_batch_files : string → option string :=
  λ path, if decide (path = "cases.txt") then Some "a b
right
c d
right
" else toy_files path.

(** A debugger stopped on line 3 whose tracee, stepped once, leaves the
    program's debug information and then exits. *)
Definition toy_leaving : state :=
  toy_state (toy_at 4104 0 [(8000, sigtrap TRAP_TRACE); (8000, exited)]) ∅.

(** ** Properties *)

(** *** Strings *)

Example split_two : split "break main" " " = ["break"; "main"].
Proof. reflexivity. Qed.
Example split_empty : split "" " " = [].
Proof. reflexivity. Qed.
Example split_gap : split "memory  0x10" " " = ["memory"; ""; "0x10"].
Proof. reflexivity. Qed.
Example split_trailing : split "cont " " " = ["cont"].
Proof. reflexivity. Qed.
Example strtok_run : split_strtok "  a  b c " " " = ["a"; "b"; "c"].
Proof. reflexivity. Qed.
Example ReadLine_second : ReadLine (Some "x
y
z") 2 = "y".
Proof. reflexivity. Qed.

Example strtol_hex : strtol "dead" 16 = Some 57005.
Proof. reflexivity. Qed.
Example strtol_prefix : strtol " -0x1fz" 16 = Some (-31).
Proof. reflexivity. Qed.
Example strtol_none : strtol "x" 16 = None.
Proof. reflexivity. Qed.

Lemma std_equal_prefix_of (s k : string) :
  std_equal s k = true ↔ prefix_of s k.
Proof.
  revert k. induction s as [|a s IH]; intros k; simpl.
  - split; [intros _; by exists k | done].
  - destruct k as [|b k].
    + split; [done | intros [t Ht]; discriminate].
    + rewrite andb_true_iff, IH. split.
      * intros [Hab [t ->]]. apply Ascii.eqb_eq in Hab as ->. by exists t.
      * intros [t Ht]. simpl in Ht. injection Ht as -> ->.
        split; [apply Ascii.eqb_refl | by exists t].
Qed.

Lemma prefix_of_length (p k : string) :
  prefix_of p k → (String.length p ≤ String.length k)%nat.
Proof.
  revert k. induction p as [|a p IH]; intros k [t Ht]; simpl; [lia|].
  destruct k as [|b k]; [discriminate|]. simpl in *. injection Ht as -> ->.
  assert (prefix_of p (p +:+ t)) as Hp by (by exists t).
  apply IH in Hp. lia.
Qed.

(** [is_prefix] decides the prefix relation. *)
Lemma is_prefix_spec (s k : string) : is_prefix s k = true ↔ prefix_of s k.
Proof.
  unfold is_prefix. destruct (String.length k <? String.length s)%nat eqn:Hlen.
  - apply Nat.ltb_lt in Hlen. split; [done|].
    intros Hp%prefix_of_length. lia.
  - apply std_equal_prefix_of.
Qed.

(** *** Streams *)

Lemma extract_until_shorter (delim : ascii) (s item rest : string) :
  Cxx.extract_until delim s = (item, Some rest) →
  (String.length rest < String.length s)%nat.
Proof.
  revert item. induction s as [|c s IH]; intros item; simpl; [done|].
  destruct (Ascii.eqb c delim).
  - intros [= <- <-]. lia.
  - destruct (Cxx.extract_until delim s) as [item' [rest'|]]; intros [= <- <-].
    specialize (IH item' eq_refl). lia.
Qed.

(** [getline] never adds input, and consumes some whenever it succeeds. *)
Lemma getline_remaining (f : Cxx.istream) (str : string) (delim : ascii) :
  (remaining (Cxx.getline f str delim).1 ≤ remaining f)%nat ∧
  (Cxx.ok (Cxx.getline f str delim).1 = true →
   (remaining (Cxx.getline f str delim).1 < remaining f)%nat).
Proof.
  unfold Cxx.getline, remaining. destruct (Cxx.good f) eqn:Hgood.
  - destruct (Cxx.extract_until delim (Cxx.rdbuf f)) as [item [rest|]] eqn:Hex; simpl.
    + apply extract_until_shorter in Hex. unfold Cxx.good. simpl. lia.
    + unfold Cxx.good. simpl. lia.
  - unfold Cxx.good, Cxx.ok. simpl. rewrite orb_true_r. simpl. split; [lia | done].
Qed.

(** The loop bound of [split] is never reached: any larger bound gives the
    same tokens. *)
Lemma split_loop_bound (n m : nat) (ss : Cxx.istream) (item : string) (delimiter : ascii)
    (out : list string) :
  (remaining ss < n)%nat → (remaining ss < m)%nat →
  split_loop n ss item delimiter out = split_loop m ss item delimiter out.
Proof.
  revert m ss item out. induction n as [|n IH]; intros m ss item out Hn Hm; [lia|].
  destruct m as [|m]; [lia|]. simpl.
  pose proof (getline_remaining ss item delimiter) as [_ Hlt].
  destruct (Cxx.getline ss item delimiter) as [ss' item']. simpl in Hlt.
  destruct (Cxx.ok ss'); [|done].
  specialize (Hlt eq_refl). apply IH; lia.
Qed.

(** *** The command dispatcher *)

Lemma dispatch_unique_prefix (command : string) (c : keyword) :
  unique_prefix keyword_text command c → dispatch command = c.
Proof.
  intros [[k [Hk Hp]] Huniq]. unfold dispatch.
  repeat match goal with
  | |- (if is_prefix command ?kw then ?c0 else _) = _ =>
      let Hq := fresh "Hq" in
      destruct (is_prefix command kw) eqn:Hq;
      [ apply is_prefix_spec in Hq; by apply (Huniq c0 kw) | ]
  end.
  apply is_prefix_spec in Hp.
  destruct c; simpl in Hk; simplify_eq; congruence.
Qed.

Section Dispatcher.

Context {T : Type} `{!Ptrace T}.
Variable m_dwarf : list compilation_unit.
Variable m_elf : list elf_section.
Variable files : string → option string.
Variable bound : nat.

(** C9, amended: [handle_command] splits the line on blanks and recognises
    the keywords cont, break, step, next, finish, stepi, status, register,
    memory, variables, backtrace and symbol by prefix: a first token that is
    a prefix of exactly one of them selects that keyword's branch. *)
Theorem handle_command_unique_prefix (line command : string) (rest : list string)
    (c : keyword) (s : state) :
  split line " " = command :: rest →
  unique_prefix keyword_text command c →
  dispatch command = c ∧
  handle_command m_dwarf m_elf files bound line s
  = run_command m_dwarf m_elf files bound c (command :: rest) s.
Proof.
  intros Hsplit Hu. apply dispatch_unique_prefix in Hu. split; [done|].
  unfold handle_command. rewrite Hsplit. unfold index, bind, ret. simpl.
  by rewrite Hu.
Qed.

End Dispatcher.

(** [continue] is a prefix of exactly one keyword of the specification's
    command set, and the dispatcher does not recognise it. *)
Lemma continue_not_recognised :
  unique_prefix spec_keyword_text "continue" cmd_cont ∧
  dispatch "continue" = cmd_unknown ∧
  (∀ s : @state toy,
     handle_command toy_dwarf [] toy_files 0 "continue" s
     = (Returns tt, set_glob (put_cerr [Str "Unknown command
"]) s)).
Proof.
  split; [|split; [reflexivity | intros s; reflexivity]].
  split.
  - exists "continue". split; [reflexivity | by exists ""].
  - intros c' k' Hk' Hp. apply is_prefix_spec in Hp.
    destruct c'; simpl in Hk'; simplify_eq; try reflexivity; discriminate.
Qed.

Lemma handle_command_unique_prefix_witness :
  dispatch "fin" = cmd_finish ∧
  handle_command toy_dwarf [] toy_files 0 "fin" toy_idle
  = run_command toy_dwarf [] toy_files 0 cmd_finish ["fin"] toy_idle.
Proof.
  apply (handle_command_unique_prefix toy_dwarf [] toy_files 0 "fin" "fin" [] cmd_finish).
  - reflexivity.
  - split.
    + exists "finish". split; [reflexivity | by exists "ish"].
    + intros c' k' Hk' Hp. apply is_prefix_spec in Hp.
      destruct c'; simpl in Hk'; simplify_eq; try reflexivity; discriminate.
Defined.

Ltac run_monad :=
  unfold bind, ret, index, substr, stol, gets, modify, throw, undefined, print,
    read_memory; simpl.

Section Operands.

Context {T : Type} `{!Ptrace T}.
Variable m_dwarf : list compilation_unit.
Variable m_elf : list elf_section.
Variable files : string → option string.
Variable bound : nat.

(** C10: [handle_command] indexes its token vector without a check. When
    the line has fewer tokens than the selected branch reads (no first
    token at all; break, symbol, register or memory without their operands)
    the call runs into an out-of-bounds [operator[]]. *)
Theorem handle_command_index_out_of_bounds (line : string) (s : state) :
  (length (split line " ") < operands_read (split line " "))%nat →
  (handle_command m_dwarf m_elf files bound line s).1 = Undefined index_out_of_bounds.
Proof.
  unfold handle_command. destruct (split line " ") as [|command rest]; [done|].
  unfold operands_read. run_monad.
  destruct (dispatch command); simpl; try lia.
  - (* break *)
    destruct rest; simpl; [done | lia].
  - (* register *)
    unfold command_register. run_monad.
    destruct rest as [|a1 rest]; simpl; [done|].
    destruct (is_prefix a1 "dump"); [lia|].
    destruct (is_prefix a1 "read").
    { destruct rest; simpl; [done | lia]. }
    destruct (is_prefix a1 "write"); [|lia].
    destruct rest as [|a2 [|a3 rest]]; simpl; [done | done | lia].
  - (* memory *)
    unfold command_memory. run_monad.
    destruct rest as [|a1 [|a2 rest]]; simpl; [done | done |].
    destruct (Cxx.substr_from a2 2) as [addr|]; simpl; [|lia].
    destruct (is_prefix a1 "write") eqn:Hw; simpl; [|lia].
    destruct (is_prefix a1 "read") eqn:Hr; simpl.
    + unfold stol_returns. destruct (strtol addr 16) as [v|]; simpl; [|lia].
      destruct ((v <? - 2 ^ 63) || (2 ^ 63 <=? v)); simpl; [lia|].
      destruct rest; simpl; [done | lia].
    + destruct rest; simpl; [done | lia].
  - (* symbol *)
    unfold command_symbol. run_monad. destruct rest; simpl; [done | lia].
Qed.

End Operands.

Lemma handle_command_index_out_of_bounds_witness :
  (handle_command toy_dwarf [] toy_files 0 "" toy_idle).1
    = Undefined index_out_of_bounds ∧
  (handle_command toy_dwarf [] toy_files 0 "break" toy_idle).1
    = Undefined index_out_of_bounds ∧
  (handle_command toy_dwarf [] toy_files 0 "memory read" toy_idle).1
    = Undefined index_out_of_bounds ∧
  (handle_command toy_dwarf [] toy_files 0 "memory write 0x10" toy_idle).1
    = Undefined index_out_of_bounds ∧
  (handle_command toy_dwarf [] toy_files 0 "register write rax" toy_idle).1
    = Undefined index_out_of_bounds.
Proof.
  refine (conj _ (conj _ (conj _ (conj _ _))));
    apply (handle_command_index_out_of_bounds toy_dwarf [] toy_files 0);
    vm_compute; lia.
Defined.

(** *** The batch driver *)

Lemma index_all_take {S A} (v : list A) (n i : nat) (s : S) :
  (i + n ≤ length v)%nat →
  index_all v (seq i n) s = (Returns (take n (drop i v)), s).
Proof.
  revert i. induction n as [|n IH]; intros i Hlen; simpl; [done|].
  unfold bind, index. destruct (v !! i) as [a|] eqn:Ha.
  - simpl. rewrite IH by lia. simpl. unfold ret. f_equal. f_equal.
    rewrite (drop_S v a i Ha). simpl. done.
  - apply lookup_ge_None in Ha. lia.
Qed.

Lemma index_all_short {S A} (v : list A) (n i : nat) (s : S) :
  (i ≤ length v)%nat → (length v < i + n)%nat →
  index_all v (seq i n) s = (Undefined index_out_of_bounds, s).
Proof.
  revert i. induction n as [|n IH]; intros i Hi Hlen; simpl; [lia|].
  unfold bind, index. destruct (v !! i) as [a|] eqn:Ha; simpl.
  - apply lookup_lt_Some in Ha. rewrite IH by lia. done.
  - done.
Qed.

(** C5: once [PTRACE_TRACEME] has succeeded, the child passes [execl] the
    tokens at positions 0 to 8 of the blank-separated line, that is
    [argv[0]] and eight positional arguments, whatever the number of tokens;
    with fewer than nine tokens the accesses leave the vector. *)
Theorem child_exec_arguments (prog strLine : string) (traceme : Z) (g : globals) :
  0 ≤ traceme →
  let vec := split_strtok strLine " " in
  ((9 ≤ length vec)%nat →
     child prog traceme vec g
     = (Returns (inr (execl prog (Cxx.c_str <$> take 9 vec))), g)
     ∧ length (take 9 vec) = 9%nat) ∧
  ((length vec < 9)%nat →
     child prog traceme vec g = (Undefined index_out_of_bounds, g)).
Proof.
  intros Htr vec. unfold child.
  destruct (traceme <? 0) eqn:Hneg; [apply Z.ltb_lt in Hneg; lia|].
  split; intros Hlen.
  - unfold bind. rewrite (index_all_take vec 9 0 g) by (simpl; lia).
    split; [done | rewrite length_take; lia].
  - unfold bind. rewrite (index_all_short vec 9 0 g) by (simpl; lia). done.
Qed.

Lemma child_exec_arguments_witness :
  (child "prog" 0 (split_strtok "p 1 2 3 4 5 6 7 8 9 10" " ") toy_globals
   = (Returns (inr (execl "prog" ["p"; "1"; "2"; "3"; "4"; "5"; "6"; "7"; "8"])), toy_globals))
  ∧ child "prog" 0 (split_strtok "p 1 2" " ") toy_globals
    = (Undefined index_out_of_bounds, toy_globals).
Proof.
  split.
  - apply (child_exec_arguments "prog" "p 1 2 3 4 5 6 7 8 9 10" 0 toy_globals);
      [lia | vm_compute; lia].
  - apply (child_exec_arguments "prog" "p 1 2" 0 toy_globals);
      [lia | vm_compute; lia].
Defined.

Section Driver.

Context {T : Type} `{!Ptrace T}.
Variable m_dwarf : list compilation_unit.
Variable files : string → option string.
Variable bound : nat.
Variable fork : nat → option T.
Variable answer_file : nat → option string.

(** C6, amended: with fewer than two arguments after the program name
    [main] returns -1, a nonzero exit status; when the batch file cannot be
    opened it returns 0. *)
Theorem main_exit_status (argv : list string) (g : globals) :
  ((length argv < 3)%nat →
     main m_dwarf files bound fork answer_file argv g
     = (Returns (-1), put_cerr [Str "Program name not specified"] g)
     ∧ exit_status (-1) = 255) ∧
  (∀ prog filePath,
     argv !! 1%nat = Some prog → argv !! 2%nat = Some filePath →
     files (Cxx.c_str filePath) = None →
     main m_dwarf files bound fork answer_file argv g = (Returns 0, g)
     ∧ exit_status 0 = 0).
Proof.
  split.
  - intros Hlen. unfold main. apply Nat.ltb_lt in Hlen. rewrite Hlen. done.
  - intros prog filePath H1 H2 Hfile. unfold main.
    assert ((length argv <? 3)%nat = false) as ->.
    { apply Nat.ltb_ge. apply lookup_lt_Some in H2. lia. }
    unfold bind, index. rewrite H1, H2. simpl. rewrite Hfile. done.
Qed.

End Driver.

(** The batch file cannot be opened and the exit status is 0. *)
Lemma unopened_batch_file_exits_zero :
  (main toy_dwarf (λ _, None) 0 (λ _, None) (λ _, None)
        ["minidbg"; "prog"; "cases.txt"] toy_globals).1 = Returns 0
  ∧ exit_status 0 = 0.
Proof. split; reflexivity. Qed.

Lemma main_exit_status_witness :
  (main toy_dwarf toy_files 0 (λ _, None) (λ _, None) ["minidbg"; "prog"] toy_globals
   = (Returns (-1), put_cerr [Str "Program name not specified"] toy_globals)
   ∧ exit_status (-1) = 255)
  ∧ (main toy_dwarf toy_files 0 (λ _, None) (λ _, None)
          ["minidbg"; "prog"; "cases.txt"] toy_globals = (Returns 0, toy_globals)
     ∧ exit_status 0 = 0).
Proof.
  split.
  - apply (proj1 (main_exit_status toy_dwarf toy_files 0 (λ _, None) (λ _, None)
                    ["minidbg"; "prog"] toy_globals)). simpl. lia.
  - apply (proj2 (main_exit_status toy_dwarf toy_files 0 (λ _, None) (λ _, None)
                    ["minidbg"; "prog"; "cases.txt"] toy_globals) "prog" "cases.txt");
      reflexivity.
Defined.

(** *** Classification of a run *)

Lemma extract_until_first_line (s : string) :
  (Cxx.extract_until Cxx.newline s).1 = first_line s.
Proof.
  induction s as [|c s IH]; simpl; [done|].
  destruct (Ascii.eqb c Cxx.newline); [done|].
  destruct (Cxx.extract_until Cxx.newline s). simpl in *. by rewrite IH.
Qed.

(** [getline] on a good stream yields its first line; on a stream that is
    not good it leaves the string alone. *)
Lemma getline_first_line (f : Cxx.istream) (str : string) :
  (Cxx.getline f str Cxx.newline).2
  = if Cxx.good f then first_line (Cxx.rdbuf f) else str.
Proof.
  unfold Cxx.getline. destruct (Cxx.good f); [|done].
  rewrite <- extract_until_first_line.
  destruct (Cxx.extract_until Cxx.newline (Cxx.rdbuf f)) as [item [rest|]]; done.
Qed.

Lemma foldl_insert_key (l : list (Z * Z)) (acc : gset Z) (k : Z) :
  k ∈ foldl (λ acc kv, {[kv.1]} ∪ acc) acc l ↔ k ∈ acc ∨ ∃ v, (k, v) ∈ l.
Proof.
  revert acc. induction l as [|[k' v'] l IH]; intros acc; simpl.
  - split; [auto | intros [?|[v Hv]]; [done | by apply elem_of_nil in Hv]].
  - rewrite IH. rewrite elem_of_union, elem_of_singleton. split.
    + intros [[->|?]|[v Hv]]; [right; exists v'; left | by left | right; exists v; by right].
    + intros [?|[v Hv]]; [left; by right|].
      apply elem_of_cons in Hv as [[= -> ->]|Hv]; [left; by left | right; by exists v].
Qed.

(** The insertion loop adds exactly the keys of the hit counter. *)
Lemma insert_keys_dom (m : gmap Z Z) (set : gset Z) :
  insert_keys m set = set ∪ dom m.
Proof.
  apply set_eq. intros k. unfold insert_keys. rewrite foldl_insert_key.
  rewrite elem_of_union, elem_of_dom. unfold in_key_order.
  split; (intros [?|Hk]; [by left | right]).
  - destruct Hk as [v Hv]. rewrite merge_sort_Permutation in Hv.
    apply elem_of_map_to_list in Hv. by exists v.
  - destruct Hk as [v Hv]. exists v. rewrite merge_sort_Permutation.
    by apply elem_of_map_to_list.
Qed.

Section Classification.

Context {T : Type} `{!Ptrace T}.

(** C2: after a run the driver reads the expected answer (the next line of
    the batch file) and the actual answer (the first line of 1.txt, empty
    when the file cannot be opened). If they are equal the keys of the hit
    counter are added to [success_set], otherwise to [fail_set]; in both
    cases the hit counter is empty afterwards and nothing else of the
    debugger changes. *)
Theorem classify_run (file : Cxx.istream) (strLine : string) (answer : option string)
    (s : @state T) :
  let expected := if Cxx.good file then first_line (Cxx.rdbuf file) else strLine in
  let actual := match answer with Some text => first_line text | None => EmptyString end in
  ∃ s',
    classify file strLine answer s
    = (Returns ((Cxx.getline file strLine Cxx.newline).1, expected), s') ∧
    source_map s' = ∅ ∧
    m_breakpoints s' = m_breakpoints s ∧ m_pid s' = m_pid s ∧
    (actual = expected →
       success_set (glob s') = success_set (glob s) ∪ dom (source_map s) ∧
       fail_set (glob s') = fail_set (glob s)) ∧
    (actual ≠ expected →
       fail_set (glob s') = fail_set (glob s) ∪ dom (source_map s) ∧
       success_set (glob s') = success_set (glob s)).
Proof.
  intros expected actual. unfold classify.
  pose proof (getline_first_line file strLine) as Hexp.
  pose proof (getline_first_line (Cxx.open answer) EmptyString) as Hact.
  destruct (Cxx.getline file strLine Cxx.newline) as [file' strLine'].
  destruct (Cxx.getline (Cxx.open answer) EmptyString Cxx.newline) as [infile' line].
  simpl in Hexp, Hact.
  assert (strLine' = expected) as -> by done.
  assert (line = actual) as ->.
  { rewrite Hact. unfold actual. by destruct answer. }
  clear Hexp Hact. unfold bind, print, modify, gets, ret. simpl.
  destruct (bool_decide (actual = expected)) eqn:Heq.
  - apply bool_decide_eq_true in Heq. eexists. split; [reflexivity|]. simpl.
    rewrite insert_keys_dom. repeat split; try done.
  - apply bool_decide_eq_false in Heq. eexists. split; [reflexivity|]. simpl.
    rewrite insert_keys_dom. repeat split; try done.
Qed.

End Classification.

(** *** The report *)

Lemma put_cout_nil (g : globals) : put_cout [] g = g.
Proof. destruct g. unfold put_cout. simpl. by rewrite app_nil_r. Qed.

Lemma put_cout_app (a b : list chunk) (g : globals) :
  put_cout b (put_cout a g) = put_cout (a ++ b) g.
Proof. unfold put_cout. simpl. by rewrite app_assoc. Qed.

Lemma analyze_loop_filter (its : list Z) (g : globals) :
  analyze_loop its g
  = (Returns tt,
     put_cout (flat_map fault_message (filter (λ n, n ∉ success_set g) its)) g).
Proof.
  revert g. induction its as [|it its IH]; intros g.
  - simpl. unfold ret. by rewrite put_cout_nil.
  - simpl. unfold bind, gets. rewrite filter_cons. case_bool_decide as Hit.
    + rewrite decide_True by done. unfold out, modify. rewrite IH.
      rewrite put_cout_app. simpl. reflexivity.
    + rewrite decide_False by tauto. unfold ret. by rewrite IH.
Qed.

Lemma analyze_report (g : globals) :
  analyze g
  = (Returns tt, put_cout (Str "ANALYZE :  
" :: flat_map fault_message (suspicious g)) g).
Proof.
  unfold analyze, bind, out, modify, gets. rewrite analyze_loop_filter.
  rewrite put_cout_app. reflexivity.
Qed.

Lemma suspicious_difference (g : globals) (n : Z) :
  n ∈ suspicious g ↔ n ∈ fail_set g ∧ n ∉ success_set g.
Proof.
  unfold suspicious. rewrite list_elem_of_filter, merge_sort_Permutation, elem_of_elements.
  tauto.
Qed.

Lemma suspicious_NoDup (g : globals) : NoDup (suspicious g).
Proof.
  unfold suspicious. apply NoDup_filter. rewrite merge_sort_Permutation.
  apply NoDup_elements.
Qed.

Section Report.

Context {T : Type} `{!Ptrace T}.
Variable m_dwarf : list compilation_unit.
Variable files : string → option string.
Variable bound : nat.
Variable fork : nat → option T.
Variable answer_file : nat → option string.

#[local] Arguments main_loop : simpl never.

(** C1: when the driver has processed all cases (the batch file was opened
    and [main] returns), its output ends with the ANALYZE header followed by
    one "likely to be a fault" message per reported line, and a line is
    reported exactly when it is in [fail_set] and not in [success_set]. *)
Theorem report_is_set_difference (argv : list string) (filePath : string)
    (g g' : globals) (code : Z) :
  argv !! 2%nat = Some filePath →
  is_Some (files (Cxx.c_str filePath)) →
  main m_dwarf files bound fork answer_file argv g = (Returns code, g') →
  ∃ (g1 : globals) (lines : list Z),
    let file := Cxx.open (files (Cxx.c_str filePath)) in
    main_loop m_dwarf files bound fork answer_file
      (S (S (String.length (Cxx.rdbuf file)))) file EmptyString 0 g = (Returns tt, g1) ∧
    fail_set g' = fail_set g1 ∧ success_set g' = success_set g1 ∧
    cout g' = cout g1 ++ Str "ANALYZE :  
" :: flat_map fault_message lines ∧
    NoDup lines ∧
    (∀ n, n ∈ lines ↔ n ∈ fail_set g' ∧ n ∉ success_set g').
Proof.
  intros H2 [content Hfile] Hmain. unfold main in Hmain.
  assert ((length argv <? 3)%nat = false) as Hlen.
  { apply Nat.ltb_ge. apply lookup_lt_Some in H2. lia. }
  rewrite Hlen in Hmain. unfold bind, index in Hmain.
  destruct (argv !! 1%nat) as [prog|] eqn:H1.
  2:{ apply lookup_ge_None in H1. apply Nat.ltb_ge in Hlen. lia. }
  rewrite H2 in Hmain. simpl in Hmain. rewrite Hfile in Hmain. simpl in Hmain.
  rewrite Hfile. simpl.
  destruct (main_loop _ _ _ _ _ _ _ _ _ g) as [[[]| | |] g1]; try discriminate.
  rewrite analyze_report in Hmain. unfold ret in Hmain. simplify_eq.
  exists g1, (suspicious g1). repeat split; try done.
  - apply suspicious_NoDup.
  - by apply suspicious_difference.
  - by apply suspicious_difference.
  - intros [? ?]. by apply suspicious_difference.
Qed.

End Report.

Lemma report_is_set_difference_witness :
  ∃ (g1 : globals) (lines : list Z),
    main_loop toy_dwarf toy_batch_files 10 toy_fork toy_answers 22
      (Cxx.open (toy_batch_files "cases.txt")) EmptyString 0 toy_globals = (Returns tt, g1) ∧
    fail_set (main toy_dwarf toy_batch_files 10 toy_fork toy_answers
                ["minidbg"; "prog"; "cases.txt"] toy_globals).2 = fail_set g1 ∧
    success_set (main toy_dwarf toy_batch_files 10 toy_fork toy_answers
                   ["minidbg"; "prog"; "cases.txt"] toy_globals).2 = success_set g1 ∧
    cout (main toy_dwarf toy_batch_files 10 toy_fork toy_answers
            ["minidbg"; "prog"; "cases.txt"] toy_globals).2
    = cout g1 ++ Str "ANALYZE :  
" :: flat_map fault_message lines ∧
    NoDup lines ∧
    (∀ n, n ∈ lines ↔
       n ∈ fail_set (main toy_dwarf toy_batch_files 10 toy_fork toy_answers
                       ["minidbg"; "prog"; "cases.txt"] toy_globals).2 ∧
       n ∉ success_set (main toy_dwarf toy_batch_files 10 toy_fork toy_answers
                          ["minidbg"; "prog"; "cases.txt"] toy_globals).2).
Proof.
  apply (report_is_set_difference toy_dwarf toy_batch_files 10 toy_fork toy_answers
           ["minidbg"; "prog"; "cases.txt"] "cases.txt" toy_globals _ 0).
  - reflexivity.
  - by eexists.
  - vm_compute. reflexivity.
Defined.

(** In the two-case batch above the report is line 3 alone. *)
Example toy_report :
  suspicious (main toy_dwarf toy_batch_files 10 toy_fork toy_answers
                ["minidbg"; "prog"; "cases.txt"] toy_globals).2 = [3].
Proof. vm_compute. reflexivity. Qed.

(** *** Reasoning about state-passing code *)

Lemma bind_Returns {S A B} (c : M S A) (k : A → M S B) (s s' : S) (b : B) :
  bind c k s = (Returns b, s') →
  ∃ a s1, c s = (Returns a, s1) ∧ k a s1 = (Returns b, s').
Proof.
  unfold bind. destruct (c s) as [[a|e|ub|] s1]; intros H; try discriminate.
  by exists a, s1.
Qed.

Lemma to_unsigned_to_int (z : Z) : to_unsigned (to_int z) = to_unsigned z.
Proof.
  unfold to_unsigned, to_int.
  rewrite Zminus_mod_idemp_l.
  replace (z + 2 ^ 31 - 2 ^ 31) with z by lia. done.
Qed.

Lemma to_unsigned_range (z : Z) : 0 ≤ z < 2 ^ 32 → to_unsigned z = z.
Proof. intros Hz. unfold to_unsigned. by apply Z.mod_small. Qed.

(** The positions [find_address] returns are inside the table. *)
Lemma find_address_from_lookup (lt : list line_entry) (pc : Z) (pos p : nat) :
  find_address_from pos lt pc = Some p →
  (pos ≤ p)%nat ∧ is_Some (lt !! (p - pos)%nat).
Proof.
  revert pos. induction lt as [|prev lt IH]; intros pos; simpl; [done|].
  destruct lt as [|next rest]; [done|].
  destruct ((le_address prev <=? pc) && (pc <? le_address next)).
  - intros [= ->]. split; [lia|]. replace (p - p)%nat with 0%nat by lia. by eexists.
  - intros Hp. apply IH in Hp as [Hle [e He]]. split; [lia|].
    exists e. replace (p - pos)%nat with (S (p - S pos)) by lia. done.
Qed.

Section Advice.

Context {T : Type} `{!Ptrace T}.
Variable m_dwarf : list compilation_unit.
Variable files : string → option string.
Variable bound : nat.

(** The iterator [get_line_entry_from_pc] returns can be dereferenced. *)
Lemma find_line_entry_deref (pc : Z) (it : line_iterator) :
  find_line_entry m_dwarf pc = Some it → is_Some (it_deref it).
Proof.
  unfold find_line_entry, find_address, it_deref.
  destruct (find _ m_dwarf) as [cu|]; [|done].
  destruct (find_address_from 0 (cu_line_table cu) pc) as [pos|] eqn:Hpos; [|done].
  intros [= <-]. simpl. apply find_address_from_lookup in Hpos as [_ Hpos].
  by replace (pos - 0)%nat with pos in Hpos by lia.
Qed.

Lemma print_source_advice_cases (file_name : string) (line : Z) (s : @state T) :
  print_source_advice files file_name line s
  = (Returns tt, if decide (to_unsigned (last (glob s)) = to_unsigned line) then s
                 else advised files file_name (to_unsigned line) s).
Proof.
  unfold print_source_advice.
  unfold bind, gets. simpl. case_bool_decide as Heq.
  - by rewrite decide_True.
  - rewrite decide_False by done. unfold modify, print, modify. simpl.
    unfold advised, hits. destruct s as [g t l b m]. simpl.
    destruct (m !! to_int (to_unsigned line)) as [second|]; simpl;
      unfold set_glob, set_source_map, put_cout, set_last; simpl;
      rewrite <- !app_assoc; simpl; reflexivity.
Qed.

(** C8, amended: a call of [print_source_advice] for a line (an
    [unsigned]) prints and counts it exactly when it differs from [last],
    which it then becomes; [runAdvice] leaves [last] at 0 when it returns, so
    that in the next run, which starts from an empty hit counter, the first
    line is printed and counted once provided its number is not 0. (A first
    line numbered 0, the value [last] is reset to, is neither printed nor
    counted.) *)
Theorem print_source_advice_suppresses_duplicates (file_name : string) (line : Z)
    (s : @state T) :
  0 ≤ line < 2 ^ 32 →
  (to_unsigned (last (glob s)) = line →
     print_source_advice files file_name line s = (Returns tt, s)) ∧
  (to_unsigned (last (glob s)) ≠ line →
     ∃ s' : @state T, print_source_advice files file_name line s = (Returns tt, s') ∧
       cout (glob s')
       = cout (glob s) ++
         [Str "Now Execute--"; Num line; Str "Line"; Str "
";
          Str (ReadLine (files (Cxx.c_str file_name)) (to_int line)); Endl] ∧
       hits s' line = hits s line + 1 ∧
       (∀ l, to_int l ≠ to_int line → hits s' l = hits s l) ∧
       to_unsigned (last (glob s')) = line) ∧
  (∀ (s0 s1 : @state T) (pid : T),
     runAdvice m_dwarf files bound s0 = (Returns tt, s1) →
     0 < line →
     last (glob s1) = 0 ∧
     ∃ s' : @state T, print_source_advice files file_name line (new_debugger (glob s1) pid)
           = (Returns tt, s') ∧
       source_map s' = {[to_int line := 1]}).
Proof.
  intros Hline. split; [|split].
  - intros Heq. rewrite print_source_advice_cases, (to_unsigned_range line) by done.
    by rewrite decide_True.
  - intros Hne. rewrite print_source_advice_cases, (to_unsigned_range line) by done.
    rewrite decide_False by done.
    eexists. split; [reflexivity|]. simpl. repeat split.
    + unfold hits at 1. simpl. by rewrite lookup_insert_eq.
    + intros l Hl. unfold hits at 1. simpl. by rewrite lookup_insert_ne.
    + rewrite to_unsigned_to_int. by apply to_unsigned_range.
  - intros s0 s1 pid Hrun Hpos.
    assert (last (glob s1) = 0) as Hlast.
    { unfold runAdvice in Hrun.
      repeat (apply bind_Returns in Hrun as (? & ? & _ & Hrun)).
      unfold modify in Hrun. by simplify_eq. }
    split; [done|]. rewrite print_source_advice_cases, (to_unsigned_range line) by done.
    simpl.
    rewrite Hlast. change (to_unsigned 0) with 0. rewrite decide_False by lia.
    eexists. split; [reflexivity|]. simpl. unfold hits. simpl.
    rewrite lookup_empty. simpl. apply insert_empty.
Qed.

End Advice.

Lemma returned {S A} (p : outcome A * S) (a : A) : p.1 = Returns a → p = (Returns a, p.2).
Proof. destruct p as [o s]. simpl. by intros ->. Qed.

Lemma print_source_advice_suppresses_duplicates_witness :
  (∃ s' : @state toy,
     print_source_advice toy_files "a.c" 2 toy_idle = (Returns tt, s') ∧
     hits s' 2 = hits toy_idle 2 + 1) ∧
  last (glob (runAdvice toy_dwarf toy_files 10
                (new_debugger toy_globals toy_failing_run)).2) = 0.
Proof.
  pose proof (print_source_advice_suppresses_duplicates toy_dwarf toy_files 10 "a.c" 2
                toy_idle ltac:(lia)) as (_ & Hcount & Hreset).
  split.
  - destruct Hcount as (s' & Hs' & _ & Hhits & _); [vm_compute; lia|].
    exists s'. by split.
  - apply (Hreset (new_debugger toy_globals toy_failing_run) _ toy_failing_run).
    + apply returned. vm_compute. reflexivity.
    + lia.
Defined.

(** C8 as it was stated does not hold for line 0: after a run has reset
    [last] to 0, the debugger of the next run is told that line 0 (the number
    the line table gives to code without a source line) is executed first;
    [print_source_advice] returns at once, nothing is printed and the hit
    counter stays empty. *)
Lemma first_line_zero_not_counted :
  let run := runAdvice toy_dwarf toy_files 10 (new_debugger toy_globals toy_failing_run) in
  let s := new_debugger (glob run.2) toy_passing_run in
  run.1 = Returns tt ∧
  last (glob s) = 0 ∧
  print_source_advice toy_files "a.c" 0 s = (Returns tt, s) ∧
  source_map s = ∅ ∧ hits s 0 = 0.
Proof.
  intros run s.
  split; [vm_compute; reflexivity|].
  split; [vm_compute; reflexivity|].
  split; [|split; reflexivity].
  rewrite print_source_advice_cases. rewrite decide_True; [done|].
  vm_compute. reflexivity.
Qed.

(** *** The bound on the driver's loop *)

Section DriverLoop.

Context {T : Type} `{!Ptrace T}.
Variable m_dwarf : list compilation_unit.
Variable files : string → option string.
Variable bound : nat.
Variable fork : nat → option T.
Variable answer_file : nat → option string.

Lemma classify_stream (file : Cxx.istream) (strLine : string) (answer : option string)
    (s s' : @state T) (next : Cxx.istream * string) :
  classify file strLine answer s = (Returns next, s') →
  next.1 = (Cxx.getline file strLine Cxx.newline).1.
Proof.
  unfold classify. destruct (Cxx.getline file strLine Cxx.newline) as [file' strLine'].
  destruct (Cxx.getline (Cxx.open answer) EmptyString Cxx.newline) as [infile' line].
  unfold bind, print, modify, gets, ret. simpl.
  destruct (bool_decide (line = strLine')); by intros [= <- _].
Qed.

Lemma parent_stream (pid : T) (i : nat) (file : Cxx.istream) (strLine : string)
    (g g' : globals) (next : Cxx.istream * string) :
  parent m_dwarf files bound answer_file pid i file strLine g = (Returns next, g') →
  next.1 = (Cxx.getline file strLine Cxx.newline).1.
Proof.
  unfold parent, with_debugger.
  destruct (bind _ _ (new_debugger g pid)) as [o s] eqn:Hrun. intros [= -> _].
  repeat (apply bind_Returns in Hrun as (? & ? & _ & Hrun)).
  by apply classify_stream in Hrun.
Qed.

(** The loop of [main] reads the batch file to its end within the bound
    [main] gives it: the model is left unfinished only when a run of the
    debugger is. *)
Lemma main_loop_bound (n : nat) (file : Cxx.istream) (strLine : string) (i : nat)
    (g : globals) :
  (∀ pid i file strLine g,
     (parent m_dwarf files bound answer_file pid i file strLine g).1 ≠ Unfinished) →
  (remaining file < n)%nat →
  (main_loop m_dwarf files bound fork answer_file n file strLine i g).1 ≠ Unfinished.
Proof.
  intros Hparent. revert file strLine i g.
  induction n as [|n IH]; intros file strLine i g Hn; [lia|]. simpl.
  pose proof (getline_remaining file strLine Cxx.newline) as [_ Hlt].
  destruct (Cxx.getline file strLine Cxx.newline) as [file1 strLine1]. simpl in Hlt.
  destruct (Cxx.ok file1); [|done]. specialize (Hlt eq_refl).
  destruct (fork i) as [pid|]; [|apply IH; lia].
  unfold bind. specialize (Hparent pid i file1 strLine1 g).
  destruct (parent m_dwarf files bound answer_file pid i file1 strLine1 g)
    as [[next| | |] g1] eqn:Hrun; simpl in *; try done.
  apply parent_stream in Hrun.
  pose proof (getline_remaining file1 strLine1 Cxx.newline) as [Hle _].
  rewrite <- Hrun in Hle. apply IH. lia.
Qed.

End DriverLoop.

(** *** Signal handling *)

Section Signals.

Context {T : Type} `{!Ptrace T}.
Variable m_dwarf : list compilation_unit.
Variable files : string → option string.

#[local] Arguments ptrace : simpl never.
#[local] Arguments do_waitpid : simpl never.

(** C7, amended: on a SIGTRAP [wait_for_signal] runs [handle_sigtrap]. For
    SI_KERNEL and TRAP_BRKPT the program counter is set to its value minus
    one (modulo 2^64) and looked up: when it has a line entry the line goes
    to [print_source_advice], which prints and counts it unless it is the
    line printed last; when it has none, [std::out_of_range] is thrown. For
    TRAP_TRACE nothing changes; for any other code only the diagnostic is
    printed. *)
Theorem sigtrap_handling (s : @state T) :
  let s0 := do_waitpid s in
  let info := getsiginfo (m_pid s0) in
  si_signo info = SIGTRAP →
  wait_for_signal m_dwarf files s = handle_sigtrap m_dwarf files info s0 ∧
  (si_code info = SI_KERNEL ∨ si_code info = TRAP_BRKPT →
     let s1 := ptrace (PTRACE_SETREGS reg.rip (u64 (getregs (m_pid s0) reg.rip - 1))) s0 in
     match find_line_entry m_dwarf (getregs (m_pid s1) reg.rip) with
     | Some it =>
         ∃ e, it_deref it = Some e ∧
           handle_sigtrap m_dwarf files info s0
           = (Returns tt,
              if decide (to_unsigned (last (glob s1)) = to_unsigned (le_line e)) then s1
              else advised files (le_path e) (to_unsigned (le_line e)) s1)
     | None =>
         handle_sigtrap m_dwarf files info s0
         = (Throws (out_of_range "Cannot find line entry"), s1)
     end) ∧
  (si_code info = TRAP_TRACE → handle_sigtrap m_dwarf files info s0 = (Returns tt, s0)) ∧
  (si_code info ≠ SI_KERNEL → si_code info ≠ TRAP_BRKPT → si_code info ≠ TRAP_TRACE →
     handle_sigtrap m_dwarf files info s0
     = (Returns tt,
        set_glob (put_cout [Str "Unknown SIGTRAP code "; Num (si_code info); Endl]) s0)).
Proof.
  intros s0 info Hsig. split; [|split; [|split]].
  - unfold wait_for_signal, bind, modify, gets. simpl. fold s0. fold info.
    by rewrite bool_decide_eq_true_2.
  - intros Hcode. cbv zeta. unfold handle_sigtrap.
    assert (bool_decide (si_code info = SI_KERNEL) || bool_decide (si_code info = TRAP_BRKPT)
            = true) as ->.
    { destruct Hcode as [->| ->]; done. }
    unfold bind, get_pc, set_pc, get_register_value, set_register_value, gets, modify.
    simpl. set (s1 := ptrace (PTRACE_SETREGS reg.rip _) s0).
    unfold get_line_entry_from_pc.
    destruct (find_line_entry m_dwarf _) as [it|] eqn:Hit; [|done].
    destruct (find_line_entry_deref _ _ _ Hit) as [e He]. exists e. split; [done|].
    unfold ret, arrow. rewrite He. simpl. rewrite print_source_advice_cases. reflexivity.
  - intros Hcode. unfold handle_sigtrap. rewrite Hcode. done.
  - intros H1 H2 H3. unfold handle_sigtrap.
    rewrite !bool_decide_eq_false_2 by done. done.
Qed.

End Signals.

(** A breakpoint is hit, its program counter has a line entry, and nothing
    is printed because the line is the one printed last; and a trap at an
    address without a line entry ends in an exception, with nothing
    printed. *)
Lemma breakpoint_hit_not_printed :
  (si_signo (getsiginfo (m_pid (do_waitpid toy_repeated_hit))) = SIGTRAP ∧
   si_code (getsiginfo (m_pid (do_waitpid toy_repeated_hit))) = SI_KERNEL ∧
   (wait_for_signal toy_dwarf toy_files toy_repeated_hit).1 = Returns tt ∧
   getregs (m_pid (wait_for_signal toy_dwarf toy_files toy_repeated_hit).2) reg.rip = 4100 ∧
   (le_line <$> (find_line_entry toy_dwarf 4100 ≫= it_deref)) = Some 2 ∧
   cout (glob (wait_for_signal toy_dwarf toy_files toy_repeated_hit).2) = []) ∧
  (si_signo (getsiginfo (m_pid (do_waitpid toy_trap_outside))) = SIGTRAP ∧
   si_code (getsiginfo (m_pid (do_waitpid toy_trap_outside))) = SI_KERNEL ∧
   (wait_for_signal toy_dwarf toy_files toy_trap_outside).1
   = Throws (out_of_range "Cannot find line entry") ∧
   cout (glob (wait_for_signal toy_dwarf toy_files toy_trap_outside).2) = []).
Proof. repeat split; vm_compute; reflexivity. Qed.

Lemma sigtrap_handling_witness :
  wait_for_signal toy_dwarf toy_files toy_repeated_hit
  = handle_sigtrap toy_dwarf toy_files (sigtrap SI_KERNEL) (do_waitpid toy_repeated_hit).
Proof.
  exact (proj1 (sigtrap_handling toy_dwarf toy_files toy_repeated_hit eq_refl)).
Defined.

(** *** Breakpoints across a resumption *)

Lemma pokes_app (l1 l2 : list request) : pokes (l1 ++ l2) = pokes l1 ++ pokes l2.
Proof. unfold pokes. apply omap_app. Qed.

Section Resumption.

Context {T : Type} `{!Ptrace T}.
Variable m_dwarf : list compilation_unit.
Variable files : string → option string.
Variable bound : nat.

Lemma quiet_refl (s : @state T) : quiet s s.
Proof. split; [done|]. exists []. by rewrite app_nil_r. Qed.

Lemma quiet_trans (s1 s2 s3 : @state T) : quiet s1 s2 → quiet s2 s3 → quiet s1 s3.
Proof.
  intros [Hb1 (l1 & Hl1 & Hp1)] [Hb2 (l2 & Hl2 & Hp2)]. split; [congruence|].
  exists (l1 ++ l2). split.
  - rewrite Hl2, Hl1. by rewrite app_assoc.
  - by rewrite pokes_app, Hp1, Hp2.
Qed.

Lemma quiet_set_glob (f : globals → globals) (s : @state T) : quiet s (set_glob f s).
Proof. split; [done|]. exists []. simpl. by rewrite app_nil_r. Qed.

Lemma quiet_advised (file_name : string) (line : Z) (s : @state T) :
  quiet s (advised files file_name line s).
Proof. split; [done|]. exists []. simpl. by rewrite app_nil_r. Qed.

Lemma quiet_print_source_advice (file_name : string) (line : Z) (s : @state T) :
  quiet s (print_source_advice files file_name line s).2.
Proof.
  rewrite print_source_advice_cases. simpl.
  destruct (decide _); [apply quiet_refl | apply quiet_advised].
Qed.

Lemma quiet_handle_sigtrap (info : siginfo_t) (s : @state T) :
  quiet s (handle_sigtrap m_dwarf files info s).2.
Proof.
  unfold handle_sigtrap.
  destruct (bool_decide (si_code info = SI_KERNEL) || bool_decide (si_code info = TRAP_BRKPT)).
  - unfold bind, get_pc, set_pc, get_register_value, set_register_value, gets, modify.
    simpl. set (s1 := ptrace _ s).
    assert (quiet s s1) as Hs1.
    { split; [done|]. eexists. split; [reflexivity | done]. }
    unfold get_line_entry_from_pc. destruct (find_line_entry m_dwarf _) as [it|]; [|done].
    unfold ret, arrow. destruct (it_deref it) as [e|]; simpl; [|done].
    eapply quiet_trans; [exact Hs1 | apply quiet_print_source_advice].
  - destruct (bool_decide (si_code info = TRAP_TRACE)); simpl.
    + apply quiet_refl.
    + apply quiet_set_glob.
Qed.

Lemma quiet_wait_for_signal (s : @state T) :
  quiet s (wait_for_signal m_dwarf files s).2.
Proof.
  unfold wait_for_signal, bind, modify, gets. simpl.
  assert (quiet s (do_waitpid s)) as Hw.
  { split; [done|]. exists []. simpl. by rewrite app_nil_r. }
  destruct (bool_decide (si_signo _ = SIGTRAP)).
  - eapply quiet_trans; [exact Hw | apply quiet_handle_sigtrap].
  - destruct (bool_decide (si_signo _ = SIGSEGV)); simpl;
      (eapply quiet_trans; [exact Hw | apply quiet_set_glob]).
Qed.

(** A single step: one PTRACE_SINGLESTEP, then the signal handling. *)
Lemma single_step_instruction_log (s : @state T) :
  m_breakpoints (single_step_instruction m_dwarf files s).2 = m_breakpoints s ∧
  ∃ l, ptrace_log (single_step_instruction m_dwarf files s).2
       = ptrace_log s ++ PTRACE_SINGLESTEP :: l ∧ pokes l = [].
Proof.
  unfold single_step_instruction, bind, modify. simpl.
  destruct (quiet_wait_for_signal (ptrace PTRACE_SINGLESTEP s)) as [Hb (l & Hl & Hp)].
  split; [by rewrite Hb|]. exists l. split; [|done].
  rewrite Hl. simpl. by rewrite <- app_assoc.
Qed.

#[local] Arguments single_step_instruction : simpl never.
#[local] Arguments wait_for_signal : simpl never.
#[local] Arguments ptrace : simpl never.

Lemma quiet_shadowed (k : Z) (s s' : @state T) (o : outcome unit) :
  quiet s s' → shadowed k s o s'.
Proof.
  intros [Hb (l & Hl & Hp)]. unfold shadowed. rewrite Hb. repeat split; try done.
  exists l. split; [done|]. rewrite Hp. intros a Ha. by apply elem_of_nil in Ha.
Qed.

Lemma shadowed_quiet (k : Z) (s s1 s2 : @state T) (o o' : outcome unit) :
  shadowed k s o s1 → quiet s1 s2 → (o' = Returns tt → o = Returns tt) →
  shadowed k s o' s2.
Proof.
  intros (Hother & Haddr & Hen & l & Hl & Hp) [Hb (l' & Hl' & Hp')] Ho.
  unfold shadowed. rewrite Hb. repeat split; try done.
  - auto.
  - exists (l ++ l'). split.
    + rewrite Hl', Hl. by rewrite app_assoc.
    + rewrite pokes_app, Hp', app_nil_r. done.
Qed.

Lemma step_over_breakpoint_shadowed (s : @state T) :
  shadowed (to_intptr (getregs (m_pid s) reg.rip)) s
    (step_over_breakpoint m_dwarf files s).1 (step_over_breakpoint m_dwarf files s).2.
Proof.
  unfold step_over_breakpoint, bind, get_pc, get_register_value, count, gets. simpl.
  set (k := to_intptr (getregs (m_pid s) reg.rip)).
  destruct (m_breakpoints s !! k) as [bp|] eqn:Hbp; simpl.
  2:{ apply quiet_shadowed, quiet_refl. }
  fold k. rewrite Hbp. simpl.
  unfold is_enabled. destruct (m_enabled bp) eqn:Hen; simpl.
  2:{ apply quiet_shadowed, quiet_refl. }
  unfold through_reference, disable, enable, bind, gets, read_memory, modify, ret. simpl.
  rewrite Hbp, Hen. simpl.
  set (s1 := set_breakpoints _ (ptrace _ s)).
  pose proof (single_step_instruction_log s1) as [Hb (l & Hl & Hp)].
  destruct (single_step_instruction m_dwarf files s1) as [o2 s2]. simpl in Hb, Hl.
  assert (m_breakpoints s2 !! k
          = Some {| m_addr := m_addr bp; m_enabled := false;
                    m_saved_data := m_saved_data bp |}) as Hk.
  { rewrite Hb. subst s1. simpl. by rewrite lookup_insert_eq. }
  assert (∀ k', k' ≠ k → m_breakpoints s2 !! k' = m_breakpoints s !! k') as Hother.
  { intros k' Hk'. rewrite Hb. subst s1. simpl. by rewrite lookup_insert_ne. }
  destruct o2 as [[]|e|ub|]; simpl.
  - rewrite Hk. simpl. repeat split; simpl.
    + intros k' Hk'. rewrite lookup_insert_ne by done. by apply Hother.
    + by rewrite lookup_insert_eq, Hbp.
    + intros _. rewrite lookup_insert_eq, Hbp. simpl. by rewrite Hen.
    + eexists. split.
      * rewrite Hl. rewrite <- !app_assoc. reflexivity.
      * simpl. rewrite pokes_app. simpl. rewrite Hp. simpl.
        intros a Ha. exists bp. split; [done|].
        apply elem_of_cons in Ha as [->|Ha]; [done|].
        apply elem_of_cons in Ha as [->|Ha]; [done|]. by apply elem_of_nil in Ha.
  - repeat split; simpl; [done | by rewrite Hk, Hbp | done |].
    eexists. split.
    + rewrite Hl. rewrite <- !app_assoc. reflexivity.
    + simpl. rewrite Hp. intros a Ha. exists bp. split; [done|].
      apply elem_of_cons in Ha as [->|Ha]; [done|]. by apply elem_of_nil in Ha.
  - repeat split; simpl; [done | by rewrite Hk, Hbp | done |].
    eexists. split.
    + rewrite Hl. rewrite <- !app_assoc. reflexivity.
    + simpl. rewrite Hp. intros a Ha. exists bp. split; [done|].
      apply elem_of_cons in Ha as [->|Ha]; [done|]. by apply elem_of_nil in Ha.
  - repeat split; simpl; [done | by rewrite Hk, Hbp | done |].
    eexists. split.
    + rewrite Hl. rewrite <- !app_assoc. reflexivity.
    + simpl. rewrite Hp. intros a Ha. exists bp. split; [done|].
      apply elem_of_cons in Ha as [->|Ha]; [done|]. by apply elem_of_nil in Ha.
Qed.

#[local] Arguments step_over_breakpoint : simpl never.
#[local] Arguments print_source_advice : simpl never.

Lemma quiet_ptrace_resume (rq : request) (s : @state T) :
  poked rq = None → quiet s (ptrace rq s).
Proof.
  intros Hrq. split; [done|]. exists [rq]. split; [done|].
  unfold pokes. simpl. by rewrite Hrq.
Qed.

Lemma shadowed_not_returned (k : Z) (s s' : @state T) (o o' : outcome unit) :
  shadowed k s o s' → o' ≠ Returns tt → shadowed k s o' s'.
Proof. intros (? & ? & ? & ?) Ho. repeat split; try done. Qed.

(** After a shadowed step, code that is quiet keeps it shadowed. *)
Lemma shadowed_then (k : Z) (c d : M state unit) (s : @state T) :
  shadowed k s (c s).1 (c s).2 →
  (∀ s1, quiet s1 (d s1).2) →
  shadowed k s (bind c (λ _, d) s).1 (bind c (λ _, d) s).2.
Proof.
  intros Hc Hd. unfold bind. destruct (c s) as [o1 s1]. simpl in Hc.
  destruct o1 as [[]|e|ub|]; simpl;
    try (eapply shadowed_not_returned; [exact Hc | done]).
  eapply shadowed_quiet; [exact Hc | apply Hd | done].
Qed.

Lemma continue_execution_shadowed (s : @state T) :
  shadowed (to_intptr (getregs (m_pid s) reg.rip)) s
    (continue_execution m_dwarf files s).1 (continue_execution m_dwarf files s).2.
Proof.
  unfold continue_execution. apply shadowed_then.
  - apply step_over_breakpoint_shadowed.
  - intros s1. unfold bind, modify. simpl.
    eapply quiet_trans; [by apply (quiet_ptrace_resume PTRACE_CONT)|].
    apply quiet_wait_for_signal.
Qed.

(** The lookup and print that end
    [single_step_instruction_with_breakpoint_check]. *)
Lemma quiet_advise_current_line (s : @state T) :
  quiet s
    ((let* pc := get_pc in
      let* line_entry := get_line_entry_from_pc m_dwarf pc in
      let* path := arrow line_entry le_path in
      let* line := arrow line_entry le_line in
      print_source_advice files path line) s).2.
Proof.
  unfold bind, get_pc, get_register_value, gets, get_line_entry_from_pc. simpl.
  destruct (find_line_entry m_dwarf _) as [it|]; simpl; [|apply quiet_refl].
  unfold arrow. destruct (it_deref it) as [e|]; simpl; [|apply quiet_refl].
  apply quiet_print_source_advice.
Qed.

(** C4: a single step issued through [step_over_breakpoint] or
    [single_step_instruction_with_breakpoint_check] touches at most the
    breakpoint at the program counter it starts from: tracee memory is
    written only at that breakpoint's address, every other entry of the
    table is unchanged, and when the call returns every breakpoint is armed
    exactly as it was before. *)
Theorem single_step_shadows_one_breakpoint (s : @state T) :
  let k := to_intptr (getregs (m_pid s) reg.rip) in
  let stepped := step_over_breakpoint m_dwarf files s in
  let checked := single_step_instruction_with_breakpoint_check m_dwarf files s in
  shadowed k s stepped.1 stepped.2 ∧ shadowed k s checked.1 checked.2 ∧
  (stepped.1 = Returns tt →
     ∀ k', m_enabled <$> m_breakpoints stepped.2 !! k'
           = m_enabled <$> m_breakpoints s !! k') ∧
  (checked.1 = Returns tt →
     ∀ k', m_enabled <$> m_breakpoints checked.2 !! k'
           = m_enabled <$> m_breakpoints s !! k').
Proof.
  intros k stepped checked.
  assert (shadowed k s checked.1 checked.2) as Hchecked.
  { subst checked. unfold single_step_instruction_with_breakpoint_check.
    unfold bind at 1 2, get_pc at 1, get_register_value at 1, count, gets. simpl. fold k.
    apply (shadowed_then k
             (if bool_decide (is_Some (m_breakpoints s !! k))
              then step_over_breakpoint m_dwarf files
              else single_step_instruction m_dwarf files)).
    - destruct (bool_decide (is_Some (m_breakpoints s !! k))).
      + apply step_over_breakpoint_shadowed.
      + pose proof (single_step_instruction_log s) as [Hb (l & Hl & Hp)].
        apply quiet_shadowed. split; [done|].
        exists (PTRACE_SINGLESTEP :: l). split; [done|]. unfold pokes. simpl. exact Hp.
    - apply quiet_advise_current_line. }
  pose proof (step_over_breakpoint_shadowed s) as Hstepped. fold k stepped in Hstepped.
  split; [done|]. split; [done|]. split.
  - intros Hret k'. destruct Hstepped as (Hother & _ & Hen & _).
    destruct (decide (k' = k)) as [->|Hne]; [by apply Hen | by rewrite Hother].
  - intros Hret k'. destruct Hchecked as (Hother & _ & Hen & _).
    destruct (decide (k' = k)) as [->|Hne]; [by apply Hen | by rewrite Hother].
Qed.

(** *** Temporary breakpoints *)

#[local] Arguments continue_execution : simpl never.

Lemma continue_execution_view (s s' : @state T) :
  continue_execution m_dwarf files s = (Returns tt, s') →
  bp_view <$> m_breakpoints s' = bp_view <$> m_breakpoints s.
Proof.
  intros Hc. pose proof (continue_execution_shadowed s) as (Hother & Haddr & Hen & _).
  rewrite Hc in Hother, Haddr, Hen. simpl in *. specialize (Hen eq_refl).
  apply map_eq. intros k'. rewrite !lookup_fmap.
  destruct (decide (k' = to_intptr (getregs (m_pid s) reg.rip))) as [->|Hne].
  - destruct (m_breakpoints s' !! _) as [b'|], (m_breakpoints s !! _) as [b|];
      simpl in *; simplify_eq; try done.
    unfold bp_view. by rewrite Haddr, Hen.
  - by rewrite Hother.
Qed.

Lemma set_breakpoint_at_address_table (a : Z) (s : @state T) :
  ∃ s' bp, set_breakpoint_at_address a s = (Returns tt, s') ∧
    m_breakpoints s' = <[a := bp]> (m_breakpoints s) ∧ bp_view bp = (a, true).
Proof.
  unfold set_breakpoint_at_address, enable, bind, read_memory, gets, modify, ret. simpl.
  eexists _, _. split; [reflexivity|]. simpl. done.
Qed.

Lemma remove_breakpoint_view (a : Z) (s s' : @state T) :
  remove_breakpoint a s = (Returns tt, s') →
  bp_view <$> m_breakpoints s' = delete a (bp_view <$> m_breakpoints s).
Proof.
  unfold remove_breakpoint, bind, gets. simpl.
  destruct (m_breakpoints s !! a) as [bp|] eqn:Hbp; [|done].
  unfold is_enabled, through_reference, disable, bind, gets, read_memory, modify, ret.
  destruct (m_enabled bp) eqn:Hen; simpl.
  - rewrite Hbp, Hen. simpl. intros [= <-]. simpl.
    by rewrite delete_insert_eq, fmap_delete.
  - intros [= <-]. simpl. by rewrite fmap_delete.
Qed.

Lemma remove_breakpoints_view (addrs : list Z) (s s' : @state T) (k : Z) :
  remove_breakpoints addrs s = (Returns tt, s') →
  (bp_view <$> m_breakpoints s') !! k
  = if decide (k ∈ addrs) then None else (bp_view <$> m_breakpoints s) !! k.
Proof.
  revert s. induction addrs as [|a addrs IH]; intros s; simpl.
  - intros [= <-]. by destruct (decide (k ∈ [])) as [?%elem_of_nil|].
  - intros Hrm. apply bind_Returns in Hrm as ([] & s1 & Ha & Hrest).
    apply remove_breakpoint_view in Ha. rewrite (IH _ Hrest), Ha.
    destruct (decide (k ∈ addrs)) as [Hin|Hnin].
    + rewrite decide_True; [done | by right].
    + destruct (decide (k = a)) as [->|Hne].
      * rewrite decide_True; [|by left]. by rewrite lookup_delete_eq.
      * rewrite decide_False; [by rewrite lookup_delete_ne|].
        intros [->|?]%elem_of_cons; done.
Qed.

Lemma temporaries_add (added : list Z) (s s1 s2 : @state T) (a : Z) (bp : breakpoint) :
  temporaries added s s1 →
  m_breakpoints s1 !! a = None →
  m_breakpoints s2 = <[a := bp]> (m_breakpoints s1) →
  temporaries (added ++ [a]) s s2.
Proof.
  intros (Hnd & Hfree & Hin & Hout) Ha Hs2.
  assert (a ∉ added) as Hna.
  { intros Hin'. apply Hin in Hin' as [? ?]. congruence. }
  repeat split.
  - apply NoDup_app. repeat split; [done | | apply NoDup_singleton].
    intros k Hk ->%list_elem_of_singleton. done.
  - intros k [Hk| ->%list_elem_of_singleton]%elem_of_app; [by apply Hfree|].
    rewrite <- Hout by done. done.
  - intros k [Hk| ->%list_elem_of_singleton]%elem_of_app; rewrite Hs2.
    + destruct (decide (k = a)) as [->|Hne]; [done|].
      rewrite lookup_insert_ne by done. by apply Hin.
    + rewrite lookup_insert_eq. by eexists.
  - intros k Hk. rewrite Hs2. rewrite not_elem_of_app in Hk. destruct Hk as [Hk Hka].
    rewrite lookup_insert_ne; [by apply Hout|]. intros ->. apply Hka. by left.
Qed.

Lemma temporaries_removed (added : list Z) (s s1 s2 s3 : @state T) :
  temporaries added s s1 →
  bp_view <$> m_breakpoints s2 = bp_view <$> m_breakpoints s1 →
  remove_breakpoints added s2 = (Returns tt, s3) →
  bp_view <$> m_breakpoints s3 = bp_view <$> m_breakpoints s.
Proof.
  intros (_ & Hfree & _ & Hout) Hview Hrm. apply map_eq. intros k.
  rewrite (remove_breakpoints_view _ _ _ k Hrm), Hview.
  destruct (decide (k ∈ added)) as [Hin|Hnin].
  - by rewrite lookup_fmap, (Hfree k Hin).
  - by rewrite !lookup_fmap, (Hout k Hnin).
Qed.

Lemma arrow_Returns {A} (it : line_iterator) (field : line_entry → A) (s s' : @state T)
    (a : A) :
  arrow it field s = (Returns a, s') → s' = s.
Proof. unfold arrow, ret, undefined. destruct (it_deref it); by intros [= ]. Qed.

Lemma get_line_entry_from_pc_Returns (pc : Z) (it : line_iterator) (s s' : @state T) :
  get_line_entry_from_pc m_dwarf pc s = (Returns it, s') → s' = s.
Proof.
  unfold get_line_entry_from_pc, ret, throw.
  destruct (find_line_entry m_dwarf pc); by intros [= ].
Qed.

Lemma get_function_from_pc_Returns (pc : Z) (d : die) (s s' : @state T) :
  get_function_from_pc m_dwarf pc s = (Returns d, s') → s' = s.
Proof.
  unfold get_function_from_pc, ret, throw.
  destruct (find_function m_dwarf pc); by intros [= ].
Qed.

Lemma step_over_lines_temporaries (rest : list line_entry) (func_end : Z)
    (start_line : line_iterator) (acc0 acc : list Z) (s0 s s' : @state T) :
  temporaries acc0 s0 s →
  step_over_lines rest func_end start_line acc0 s = (Returns acc, s') →
  temporaries acc s0 s'.
Proof.
  revert acc0 s. induction rest as [|line rest IH]; intros acc0 s Htmp; simpl; [done|].
  destruct (le_address line <? func_end); [|by intros [= <- <-]].
  intros Hloop.
  apply bind_Returns in Hloop as (start_address & s1 & Hstart & Hloop).
  apply arrow_Returns in Hstart as ->.
  apply bind_Returns in Hloop as (present & s1 & Hcount & Hloop).
  unfold count, gets in Hcount. injection Hcount as <- <-.
  apply bind_Returns in Hloop as (acc1 & s1 & Hset & Hloop).
  apply (IH acc1 s1); [|done].
  destruct (negb (bool_decide (le_address line = start_address))
            && negb (bool_decide (is_Some (m_breakpoints s !! to_intptr (le_address line)))))
    eqn:Hcond; [|by injection Hset as <- <-].
  apply andb_true_iff in Hcond as [_ Hfree]. apply negb_true_iff in Hfree.
  apply bool_decide_eq_false in Hfree. rewrite <- eq_None_not_Some in Hfree.
  apply bind_Returns in Hset as ([] & s2 & Hset & Hret). injection Hret as <- <-.
  destruct (set_breakpoint_at_address_table (to_intptr (le_address line)) s)
    as (s2' & bp & Hset' & Htable & _).
  rewrite Hset in Hset'. injection Hset' as <-.
  by eapply temporaries_add.
Qed.

Lemma temporaries_nil (s : @state T) : temporaries [] s s.
Proof.
  split; [apply NoDup_nil_2|].
  split; [intros k Hk; by apply elem_of_nil in Hk|].
  split; [intros k Hk; by apply elem_of_nil in Hk | done].
Qed.

(** C3, amended: when [step_out] or [step_over] returns, the breakpoint
    table holds the breakpoints it held before the call, each at its address
    and armed as before: the temporary breakpoints are gone and no other
    entry was removed. (When the call is left by an exception the temporary
    breakpoints stay in the table.) *)
Theorem temporary_breakpoints_removed (s s' : @state T) :
  (step_out m_dwarf files s = (Returns tt, s') →
     bp_view <$> m_breakpoints s' = bp_view <$> m_breakpoints s) ∧
  (step_over m_dwarf files s = (Returns tt, s') →
     bp_view <$> m_breakpoints s' = bp_view <$> m_breakpoints s).
Proof.
  assert (∀ (added : list Z) (s1 : @state T) (return_address : Z) (s2 : @state T),
            temporaries added s s1 →
            (let* present := count return_address in
             let* breakpoints_to_remove :=
               (if negb present then
                  set_breakpoint_at_address (to_intptr return_address) ;;
                  ret (added ++ [to_intptr return_address])
                else ret added) in
             continue_execution m_dwarf files ;;
             remove_breakpoints breakpoints_to_remove) s1 = (Returns tt, s2) →
            bp_view <$> m_breakpoints s2 = bp_view <$> m_breakpoints s) as Hfinish.
  { intros added s1 return_address s2 Htmp Hrun.
    apply bind_Returns in Hrun as (present & s1' & Hcount & Hrun).
    unfold count, gets in Hcount. injection Hcount as <- <-.
    apply bind_Returns in Hrun as (to_remove & s3 & Hset & Hrun).
    apply bind_Returns in Hrun as ([] & s4 & Hcont & Hrm).
    apply continue_execution_view in Hcont.
    apply (temporaries_removed to_remove s s3 s4 s2); [|done|done].
    destruct (bool_decide (is_Some (m_breakpoints s1 !! to_intptr return_address)))
      eqn:Hpresent; simpl in Hset.
    - by injection Hset as <- <-.
    - apply bool_decide_eq_false in Hpresent. rewrite <- eq_None_not_Some in Hpresent.
      apply bind_Returns in Hset as ([] & s5 & Hset & Hret). injection Hret as <- <-.
      destruct (set_breakpoint_at_address_table (to_intptr return_address) s1)
        as (s5' & bp & Hset' & Htable & _).
      rewrite Hset in Hset'. injection Hset' as <-.
      by eapply temporaries_add. }
  split.
  - intros Hout. unfold step_out in Hout.
    apply bind_Returns in Hout as (frame_pointer & s1 & Hfp & Hout).
    unfold get_register_value, gets in Hfp. injection Hfp as <- <-.
    apply bind_Returns in Hout as (return_address & s1 & Hra & Hout).
    unfold read_memory, gets in Hra. injection Hra as <- <-.
    apply bind_Returns in Hout as (present & s1 & Hcount & Hout).
    unfold count, gets in Hcount. injection Hcount as <- <-.
    apply bind_Returns in Hout as (should_remove & s1 & Hset & Hout).
    apply bind_Returns in Hout as ([] & s2 & Hcont & Hrm).
    apply continue_execution_view in Hcont.
    destruct (bool_decide (is_Some (m_breakpoints s !! _))) eqn:Hpresent; simpl in Hset.
    + injection Hset as <- <-. injection Hrm as <-. done.
    + apply bool_decide_eq_false in Hpresent. rewrite <- eq_None_not_Some in Hpresent.
      apply bind_Returns in Hset as ([] & s3 & Hset & Hret). injection Hret as <- <-.
      destruct (set_breakpoint_at_address_table
                  (to_intptr (peekdata (m_pid s) (u64 (getregs (m_pid s) reg.rbp + 8)))) s)
        as (s3' & bp & Hset' & Htable & _).
      rewrite Hset in Hset'. injection Hset' as <-.
      apply remove_breakpoint_view in Hrm. rewrite Hrm, Hcont, Htable.
      rewrite fmap_insert, delete_insert_eq. apply delete_id.
      by rewrite lookup_fmap, Hpresent.
  - intros Hover. unfold step_over in Hover.
    apply bind_Returns in Hover as (pc & s1 & Hpc & Hover).
    unfold get_pc, get_register_value, gets in Hpc. injection Hpc as <- <-.
    apply bind_Returns in Hover as (func & s1 & Hfunc & Hover).
    apply get_function_from_pc_Returns in Hfunc as ->.
    apply bind_Returns in Hover as (line & s1 & Hline & Hover).
    apply get_line_entry_from_pc_Returns in Hline as ->.
    apply bind_Returns in Hover as (pc' & s1 & Hpc & Hover).
    unfold get_pc, get_register_value, gets in Hpc. injection Hpc as <- <-.
    apply bind_Returns in Hover as (start_line & s1 & Hstart & Hover).
    apply get_line_entry_from_pc_Returns in Hstart as ->.
    apply bind_Returns in Hover as (added & s1 & Hloop & Hover).
    apply (step_over_lines_temporaries _ _ _ [] added s s s1 (temporaries_nil s)) in Hloop.
    apply bind_Returns in Hover as (frame_pointer & s2 & Hfp & Hover).
    unfold get_register_value, gets in Hfp. injection Hfp as <- <-.
    apply bind_Returns in Hover as (return_address & s2 & Hra & Hover).
    unfold read_memory, gets in Hra. injection Hra as <- <-.
    exact (Hfinish added s1 _ s' Hloop Hover).
Qed.

End Resumption.

(** The step over the breakpoint at 4100: its byte is restored, the tracee
    is stepped, the trap opcode is written back. *)
Example step_over_breakpoint_log :
  (step_over_breakpoint toy_dwarf toy_files toy_on_breakpoint).1 = Returns tt ∧
  ptrace_log (step_over_breakpoint toy_dwarf toy_files toy_on_breakpoint).2
  = [PTRACE_POKEDATA 4100 0; PTRACE_SINGLESTEP; PTRACE_POKEDATA 4100 204] ∧
  bp_view <$> m_breakpoints (step_over_breakpoint toy_dwarf toy_files toy_on_breakpoint).2
  = {[ 4100 := (4100, true) ]}.
Proof. repeat split; vm_compute; reflexivity. Qed.

(** When the signal handling of the step throws, the call does not return
    and the breakpoint is left disarmed. *)
Example step_over_breakpoint_exception :
  (step_over_breakpoint toy_dwarf toy_files toy_step_traps).1
  = Throws (out_of_range "Cannot find line entry") ∧
  bp_view <$> m_breakpoints (step_over_breakpoint toy_dwarf toy_files toy_step_traps).2
  = {[ 4100 := (4100, false) ]}.
Proof. repeat split; vm_compute; reflexivity. Qed.

Lemma single_step_shadows_one_breakpoint_witness :
  m_enabled <$> m_breakpoints
    (step_over_breakpoint toy_dwarf toy_files toy_on_breakpoint).2 !! 4100
  = m_enabled <$> m_breakpoints toy_on_breakpoint !! 4100 ∧
  m_enabled <$> m_breakpoints
    (single_step_instruction_with_breakpoint_check toy_dwarf toy_files toy_on_breakpoint).2
    !! 4100
  = m_enabled <$> m_breakpoints toy_on_breakpoint !! 4100.
Proof.
  pose proof (single_step_shadows_one_breakpoint toy_dwarf toy_files toy_on_breakpoint)
    as (_ & _ & Hstepped & Hchecked).
  split; [apply Hstepped | apply Hchecked]; vm_compute; reflexivity.
Defined.

(** [finish] and [next] in a frame whose return address (0) has no line
    entry: the breakpoint at the return address is hit, the lookup throws,
    and the temporary breakpoints are still in the table. *)
Lemma temporary_breakpoints_left_behind :
  m_breakpoints toy_trap_outside = ∅ ∧
  (step_out toy_dwarf toy_files toy_trap_outside).1
  = Throws (out_of_range "Cannot find line entry") ∧
  bp_view <$> m_breakpoints (step_out toy_dwarf toy_files toy_trap_outside).2
  = {[ 0 := (0, true) ]} ∧
  (step_over toy_dwarf toy_files toy_trap_outside).1
  = Throws (out_of_range "Cannot find line entry") ∧
  dom (m_breakpoints (step_over toy_dwarf toy_files toy_trap_outside).2)
  = {[ 0; 4096; 4100; 4108 ]}.
Proof. repeat split; vm_compute; reflexivity. Qed.

Lemma temporary_breakpoints_removed_witness :
  bp_view <$> m_breakpoints (step_out toy_dwarf toy_files toy_finishing).2
  = bp_view <$> m_breakpoints toy_finishing ∧
  bp_view <$> m_breakpoints (step_over toy_dwarf toy_files toy_finishing).2
  = bp_view <$> m_breakpoints toy_finishing.
Proof.
  split.
  - apply (proj1 (temporary_breakpoints_removed toy_dwarf toy_files toy_finishing _)).
    apply returned. vm_compute. reflexivity.
  - apply (proj2 (temporary_breakpoints_removed toy_dwarf toy_files toy_finishing _)).
    apply returned. vm_compute. reflexivity.
Defined.

(** From [toy_finishing], [next] installs and removes three temporary
    breakpoints. *)
Example step_over_log :
  ptrace_log (step_over toy_dwarf toy_files toy_finishing).2
  = [PTRACE_POKEDATA 4096 204; PTRACE_POKEDATA 4108 204; PTRACE_POKEDATA 0 204;
     PTRACE_CONT;
     PTRACE_POKEDATA 4096 0; PTRACE_POKEDATA 4108 0; PTRACE_POKEDATA 0 0].
Proof. vm_compute. reflexivity. Qed.

(** ** Further properties of the code

    What the functions of minidbg.cpp do beyond the statements above:
    their edge cases, what they leave alone, and how they fit together. *)

(** *** Strings *)

Lemma string_app_cons (c : ascii) (a b : string) : String c a +:+ b = String c (a +:+ b).
Proof. reflexivity. Qed.

Lemma string_app_nil_l (b : string) : EmptyString +:+ b = b.
Proof. reflexivity. Qed.

Ltac string_simpl := rewrite ?string_app_cons, ?string_app_nil_l in *; simpl in *.

Lemma string_app_assoc (a b c : string) : (a +:+ b) +:+ c = a +:+ (b +:+ c).
Proof. induction a as [|x a IH]; string_simpl; [done | by f_equal]. Qed.

Lemma string_app_nil_r (a : string) : a +:+ EmptyString = a.
Proof. induction a as [|x a IH]; string_simpl; [done | by f_equal]. Qed.

Lemma string_app_length (a b : string) :
  String.length (a +:+ b) = (String.length a + String.length b)%nat.
Proof. induction a as [|x a IH]; string_simpl; [done | by f_equal]. Qed.

Lemma string_drop_app (t s : string) : string_drop (String.length t) (t +:+ s) = s.
Proof. induction t as [|x t IH]; string_simpl; done. Qed.

Lemma string_drop_split (n : nat) (k : string) :
  (n ≤ String.length k)%nat →
  ∃ t, k = t +:+ string_drop n k ∧ String.length t = n.
Proof.
  revert k. induction n as [|n IH]; intros k Hn.
  - exists EmptyString. by destruct k.
  - destruct k as [|c k]; simpl in *; [lia|].
    destruct (IH k) as (t & Ht & Hl); [lia|].
    exists (String c t). split; [rewrite string_app_cons; by f_equal | simpl; by rewrite Hl].
Qed.

Lemma std_equal_eq (s k : string) :
  String.length k = String.length s → std_equal s k = true → k = s.
Proof.
  intros Hl [t ->]%std_equal_prefix_of. rewrite string_app_length in Hl.
  destruct t; [by rewrite string_app_nil_r | simpl in Hl; lia].
Qed.

(** X1: [is_prefix s k] holds exactly when [k] starts with [s]; two
    strings that are prefixes of each other are equal. *)
Theorem is_prefix_decides_prefix (s k : string) :
  (is_prefix s k = true ↔ prefix_of s k) ∧
  (is_prefix s k = true → is_prefix k s = true → s = k).
Proof.
  split; [apply is_prefix_spec|].
  intros [t ->]%is_prefix_spec [u Hu]%is_prefix_spec.
  rewrite string_app_assoc in Hu. apply (f_equal String.length) in Hu.
  rewrite !string_app_length in Hu.
  destruct t; [by rewrite string_app_nil_r | simpl in Hu; lia].
Qed.

(** X2: [is_suffix s k] holds exactly when [k] ends with [s]. *)
Theorem is_suffix_decides_suffix (s k : string) :
  is_suffix s k = true ↔ suffix_of s k.
Proof.
  unfold is_suffix, suffix_of.
  destruct (String.length k <? String.length s)%nat eqn:Hlen.
  - apply Nat.ltb_lt in Hlen. split; [done|].
    intros [t ->]. rewrite string_app_length in Hlen. lia.
  - apply Nat.ltb_ge in Hlen. split.
    + intros Heq.
      destruct (string_drop_split (String.length k - String.length s) k) as (t & Ht & Hl);
        [lia|].
      exists t. rewrite Ht at 1. f_equal. apply std_equal_eq; [|done].
      apply (f_equal String.length) in Ht. rewrite string_app_length in Ht. lia.
    + intros [t ->]. rewrite string_app_length.
      replace (String.length t + String.length s - String.length s)%nat
        with (String.length t) by lia.
      rewrite string_drop_app. apply std_equal_prefix_of. exists EmptyString.
      by rewrite string_app_nil_r.
Qed.

(** *** Tokens *)

(** What [getline] extracts is free of the delimiter, and was followed by
    the delimiter or by the end of the input. *)
Lemma extract_until_spec (d : ascii) (s : string) :
  match Cxx.extract_until d s with
  | (item, Some rest) => s = item +:+ String d rest ∧ Cxx.contains item d = false
  | (item, None) => s = item ∧ Cxx.contains item d = false
  end.
Proof.
  induction s as [|c s IH]; simpl; [done|].
  destruct (Ascii.eqb c d) eqn:Hc.
  - apply Ascii.eqb_eq in Hc as ->. done.
  - destruct (Cxx.extract_until d s) as [item [rest|]]; destruct IH as [-> Hn];
      simpl; rewrite Hc, Hn; done.
Qed.

Lemma split_loop_app (n : nat) (ss : Cxx.istream) (item : string) (d : ascii)
    (out : list string) :
  split_loop n ss item d out = out ++ split_loop n ss item d [].
Proof.
  revert ss item out. induction n as [|n IH]; intros ss item out; simpl.
  - by rewrite app_nil_r.
  - destruct (Cxx.getline ss item d) as [ss' item'].
    destruct (Cxx.ok ss'); [|by rewrite app_nil_r].
    rewrite (IH _ _ (out ++ _)), (IH _ _ [item']). by rewrite <- app_assoc.
Qed.

Lemma strip_last_free (d : ascii) (s : string) :
  Cxx.contains s d = false → strip_last d s = s.
Proof.
  induction s as [|c s IH]; simpl; [done|].
  intros [Hc Hs]%orb_false_iff. destruct s; [by rewrite Hc|].
  by rewrite IH.
Qed.

Lemma strip_last_app (d : ascii) (a b : string) :
  b ≠ EmptyString → strip_last d (a +:+ b) = a +:+ strip_last d b.
Proof.
  intros Hb. induction a as [|c a IH]; [done|].
  rewrite !string_app_cons. simpl. rewrite IH.
  destruct (a +:+ b) eqn:Hab; [|done].
  destruct a; [|discriminate]. by rewrite string_app_nil_l in Hab.
Qed.

Lemma strip_last_delimiter (d : ascii) (a : string) :
  strip_last d (a +:+ String d EmptyString) = a.
Proof.
  induction a as [|c a IH]; [simpl; by rewrite Ascii.eqb_refl|].
  rewrite string_app_cons. simpl. rewrite IH. by destruct a.
Qed.

Lemma split_loop_join (d : ascii) (n : nat) (b item : string) :
  (String.length b < n)%nat →
  let r := split_loop (S n) (Cxx.stringstream b) item d [] in
  join d r = strip_last d b ∧ Forall (λ t, Cxx.contains t d = false) r ∧
  (r = [] ↔ b = EmptyString).
Proof.
  revert b item. induction n as [|n IH]; intros b item Hn; [lia|].
  cbn zeta. change (split_loop (S (S n)) ?ss ?i d []) with
    (let '(ss', item') := Cxx.getline ss i d in
     if Cxx.ok ss' then split_loop (S n) ss' item' d ([] ++ [item']) else []).
  unfold Cxx.getline. change (Cxx.good (Cxx.stringstream b)) with true. cbn iota.
  change (Cxx.rdbuf (Cxx.stringstream b)) with b.
  pose proof (extract_until_spec d b) as Hspec.
  pose proof (extract_until_shorter d b) as Hshort.
  destruct (Cxx.extract_until d b) as [item' [rest|]].
  - destruct Hspec as [-> Hfree]. specialize (Hshort _ _ eq_refl).
    change (Cxx.ok _) with true. cbn iota.
    rewrite split_loop_app.
    destruct (IH rest item') as (Hj & Hf & He); [lia|].
    change {| Cxx.rdbuf := rest; Cxx.eofbit := false; Cxx.failbit := false |}
      with (Cxx.stringstream rest).
    set (r := split_loop (S n) (Cxx.stringstream rest) item' d []) in *.
    split; [|split].
    + simpl. destruct r as [|x r'] eqn:Hr.
      * assert (rest = EmptyString) as -> by (by apply He).
        by rewrite strip_last_delimiter.
      * rewrite Hj. assert (rest ≠ EmptyString) as Hne.
        { intros Hrest. apply He in Hrest. discriminate. }
        rewrite (strip_last_app d item' (String d rest)) by done.
        f_equal. simpl. by destruct rest.
    + simpl. by constructor.
    + simpl. split; [done|]. by destruct item'.
  - destruct Hspec as [-> Hfree]. unfold Cxx.ok. cbn.
    destruct item' as [|c item'].
    + done.
    + rewrite bool_decide_eq_false_2 by done. cbn.
      unfold Cxx.getline. cbn.
      split; [|split].
      * symmetry. exact (strip_last_free d (String c item') Hfree).
      * by constructor.
      * done.
Qed.

(** X3: the tokens [split] returns contain no delimiter; joined with the
    delimiter they give the string back, except that one delimiter at the very
    end of the string is dropped (no empty last token is produced); and only
    the empty string has no token at all. *)
Theorem split_join (s : string) (d : ascii) :
  join d (split s d) = strip_last d s ∧
  Forall (λ t, Cxx.contains t d = false) (split s d) ∧
  (split s d = [] ↔ s = EmptyString).
Proof. apply split_loop_join. lia. Qed.

Lemma without_app (delim a b : string) :
  without delim (a +:+ b) = without delim a +:+ without delim b.
Proof.
  induction a as [|c a IH]; [done|]. rewrite string_app_cons. simpl.
  destruct (Cxx.contains delim c); [done|]. rewrite string_app_cons. by f_equal.
Qed.

Lemma strtok_tokens_without (delim s tok : string) :
  without delim tok = tok →
  let r := Cxx.strtok_tokens delim s tok in
  foldr String.append EmptyString r = tok +:+ without delim s ∧
  Forall (λ t, t ≠ EmptyString ∧ without delim t = t) r.
Proof.
  revert tok. induction s as [|c s IH]; intros tok Htok; simpl.
  - destruct (decide (tok = EmptyString)) as [->|Hne]; simpl; [done|].
    split; [done | by repeat constructor].
  - destruct (Cxx.contains delim c) eqn:Hc.
    + destruct (IH EmptyString eq_refl) as [Hcat Hall].
      destruct (decide (tok = EmptyString)) as [->|Hne]; [done|].
      simpl. rewrite Hcat. split; [done | by repeat constructor].
    + destruct (IH (tok +:+ String c EmptyString)) as [Hcat Hall].
      { rewrite without_app, Htok. simpl. by rewrite Hc. }
      split; [|done]. rewrite Hcat. by rewrite string_app_assoc.
Qed.

(** X4: the tokens of the [strtok] tokenizer are never empty and contain
    no delimiter character; put end to end they are the input (up to its
    first NUL) with the delimiter characters removed. *)
Theorem split_strtok_tokens (s delim : string) :
  let r := split_strtok s delim in
  foldr String.append EmptyString r = without (Cxx.c_str delim) (Cxx.c_str s) ∧
  Forall (λ t, t ≠ EmptyString ∧ without (Cxx.c_str delim) t = t) r.
Proof.
  unfold split_strtok. destruct (0 <? String.length (Cxx.c_str s))%nat eqn:Hlen.
  - apply (strtok_tokens_without (Cxx.c_str delim) (Cxx.c_str s) EmptyString eq_refl).
  - apply Nat.ltb_ge in Hlen. destruct (Cxx.c_str s); [done | simpl in Hlen; lia].
Qed.

(** *** The lines of a file *)

Lemma occurrences_free (d : ascii) (s : string) :
  Cxx.contains s d = false → occurrences d s = 0%nat.
Proof.
  induction s as [|c s IH]; simpl; [done|].
  intros [-> Hs]%orb_false_iff. by rewrite IH.
Qed.

Lemma occurrences_app (d : ascii) (a b : string) :
  occurrences d (a +:+ b) = (occurrences d a + occurrences d b)%nat.
Proof.
  induction a as [|c a IH]; [done|]. rewrite string_app_cons. simpl. rewrite IH. lia.
Qed.

Lemma unterminated_free (d : ascii) (s : string) :
  Cxx.contains s d = false → s ≠ EmptyString → unterminated d s = true.
Proof.
  induction s as [|c s IH]; simpl; [done|].
  intros [Hc Hs]%orb_false_iff _. destruct s; [by rewrite Hc|]. by apply IH.
Qed.

Lemma unterminated_app (d : ascii) (a b : string) :
  b ≠ EmptyString → unterminated d (a +:+ b) = unterminated d b.
Proof.
  intros Hb. induction a as [|c a IH]; [done|].
  rewrite string_app_cons. simpl. rewrite IH.
  destruct (a +:+ b) eqn:Hab; [|done].
  destruct a; [|discriminate]. by rewrite string_app_nil_l in Hab.
Qed.

Lemma split_loop_length (d : ascii) (n : nat) (b item : string) :
  (String.length b < n)%nat →
  length (split_loop (S n) (Cxx.stringstream b) item d []) =
  (occurrences d b + if unterminated d b then 1 else 0)%nat.
Proof.
  revert b item. induction n as [|n IH]; intros b item Hn; [lia|].
  pose proof (split_loop_join d (S n) b item Hn) as (_ & _ & Hnil). cbn zeta in Hnil.
  revert Hnil.
  change (split_loop (S (S n)) ?ss ?i d []) with
    (let '(ss', item') := Cxx.getline ss i d in
     if Cxx.ok ss' then split_loop (S n) ss' item' d ([] ++ [item']) else []).
  unfold Cxx.getline. change (Cxx.good (Cxx.stringstream b)) with true. cbn iota.
  change (Cxx.rdbuf (Cxx.stringstream b)) with b.
  pose proof (extract_until_spec d b) as Hspec.
  pose proof (extract_until_shorter d b) as Hshort.
  destruct (Cxx.extract_until d b) as [item' [rest|]].
  - destruct Hspec as [-> Hfree]. specialize (Hshort _ _ eq_refl).
    change (Cxx.ok _) with true. cbn iota. intros _.
    rewrite split_loop_app, length_app.
    change {| Cxx.rdbuf := rest; Cxx.eofbit := false; Cxx.failbit := false |}
      with (Cxx.stringstream rest).
    rewrite IH by lia.
    rewrite occurrences_app, (occurrences_free d item') by done. simpl.
    rewrite Ascii.eqb_refl.
    destruct rest as [|c rest].
    + replace (unterminated d (item' +:+ String d EmptyString)) with false; [done|].
      symmetry. destruct item'; [simpl; by rewrite Ascii.eqb_refl|].
      rewrite unterminated_app by done. simpl. by rewrite Ascii.eqb_refl.
    + rewrite (unterminated_app d item' (String d (String c rest))) by done.
      done.
  - destruct Hspec as [-> Hfree]. unfold Cxx.ok. cbn.
    destruct item' as [|c item']; [done|].
    rewrite (occurrences_free d (String c item') Hfree).
    rewrite (unterminated_free d (String c item') Hfree) by done.
    rewrite bool_decide_eq_false_2 by done. cbn.
    unfold Cxx.getline. by cbn.
Qed.

Lemma CountLines_loop_split (n : nat) (f : Cxx.istream) (tmp : string) (k : Z) :
  CountLines_loop n f tmp k = k + Z.of_nat (length (split_loop n f tmp Cxx.newline [])).
Proof.
  revert f tmp k. induction n as [|n IH]; intros f tmp k; simpl; [lia|].
  destruct (Cxx.getline f tmp Cxx.newline) as [f' tmp'].
  destruct (Cxx.ok f'); [|simpl; lia].
  rewrite IH, (split_loop_app _ _ _ _ [tmp']), length_app. simpl. lia.
Qed.

(** [CountLines] and [split] run the same loop. *)
Lemma CountLines_split (text : string) :
  CountLines (Some text) = Z.of_nat (length (split text Cxx.newline)).
Proof.
  unfold CountLines, split. cbn [Cxx.open Cxx.failbit Cxx.rdbuf].
  rewrite CountLines_loop_split. reflexivity.
Qed.

(** X5: a file that cannot be opened has 0 lines; otherwise [CountLines]
    is the number of newline characters, plus one when the text ends in a
    line that is not terminated by a newline. *)
Theorem CountLines_counts_lines (text : string) :
  CountLines None = 0 ∧
  CountLines (Some text) =
  Z.of_nat (occurrences Cxx.newline text) + (if unterminated Cxx.newline text then 1 else 0).
Proof.
  split; [done|]. rewrite CountLines_split. unfold split.
  rewrite split_loop_length by lia. destruct (unterminated _ _); lia.
Qed.

Lemma ReadLine_loop_lookup (n : nat) (b temp : string) (i line : Z) (j : nat) :
  (String.length b < n)%nat → line - 1 - i = Z.of_nat j →
  (j < length (split_loop (S n) (Cxx.stringstream b) temp Cxx.newline []))%nat →
  split_loop (S n) (Cxx.stringstream b) temp Cxx.newline [] !! j =
  Some (ReadLine_loop (S n) (Cxx.stringstream b) temp i line).
Proof.
  revert b temp i j. induction n as [|n IH]; intros b temp i j Hn Hj; [lia|].
  change (split_loop (S (S n)) ?ss ?i Cxx.newline []) with
    (let '(ss', item') := Cxx.getline ss i Cxx.newline in
     if Cxx.ok ss' then split_loop (S n) ss' item' Cxx.newline ([] ++ [item']) else []).
  change (ReadLine_loop (S (S n)) ?f ?t i line) with
    (let '(f', temp') := Cxx.getline f t Cxx.newline in
     if Cxx.ok f' && (i <? line - 1) then ReadLine_loop (S n) f' temp' (i + 1) line
     else temp').
  unfold Cxx.getline. change (Cxx.good (Cxx.stringstream b)) with true. cbn iota.
  change (Cxx.rdbuf (Cxx.stringstream b)) with b.
  pose proof (extract_until_shorter Cxx.newline b) as Hshort.
  destruct (Cxx.extract_until Cxx.newline b) as [item' [rest|]].
  - specialize (Hshort _ _ eq_refl).
    change (Cxx.ok _) with true. cbn iota.
    change {| Cxx.rdbuf := rest; Cxx.eofbit := false; Cxx.failbit := false |}
      with (Cxx.stringstream rest).
    rewrite split_loop_app.
    set (r := split_loop (S n) (Cxx.stringstream rest) item' Cxx.newline []).
    simpl. destruct j as [|j]; simpl; intros Hlen.
    + assert ((i <? line - 1) = false) as -> by (apply Z.ltb_ge; lia). done.
    + assert ((i <? line - 1) = true) as -> by (apply Z.ltb_lt; lia).
      subst r. apply IH; lia.
  - unfold Cxx.ok. cbn [Cxx.failbit].
    destruct item' as [|c item']; [simpl; lia|].
    rewrite bool_decide_eq_false_2 by done. cbn [negb andb].
    unfold split_loop at 1. unfold Cxx.getline. cbn. intros Hlen.
    assert (j = 0%nat) as -> by lia.
    assert ((i <? line - 1) = false) as -> by (apply Z.ltb_ge; lia). done.
Qed.

(** X6: [ReadLine] checks the line number first, then the file, then the
    length of the file; for a line number within the file it returns that
    line, counted from 1, without its newline. *)
Theorem ReadLine_returns_line (file : option string) (line : Z) :
  ReadLine file line =
  if line <=? 0 then "Error 1: 行数错误，不能为0或负数。"
  else match file with
       | None => "Error 2: 文件不存在。"
       | Some text =>
           default "Error 3: 行数超出文件长度。" (split text Cxx.newline !! Z.to_nat (line - 1))
       end.
Proof.
  unfold ReadLine. destruct (line <=? 0) eqn:Hline; [done|]. apply Z.leb_gt in Hline.
  destruct file as [text|]; [|done]. cbn [Cxx.open Cxx.failbit].
  rewrite CountLines_split.
  destruct (_ <? line) eqn:Hlt.
  - apply Z.ltb_lt in Hlt. rewrite lookup_ge_None_2; [done | lia].
  - apply Z.ltb_ge in Hlt. unfold split.
    change {| Cxx.rdbuf := text; Cxx.eofbit := false; Cxx.failbit := false |}
      with (Cxx.stringstream text).
    change (Cxx.rdbuf (Cxx.stringstream text)) with text.
    rewrite (ReadLine_loop_lookup _ _ _ 0 line); [done | lia | lia |].
    unfold split in Hlt. lia.
Qed.

(** *** Looking up the program counter *)

(** The row [find_address] returns covers the address, and a row follows
    it. *)
Lemma find_address_from_row (lt : list line_entry) (pc : Z) (pos p : nat) :
  find_address_from pos lt pc = Some p →
  ∃ e e', lt !! (p - pos)%nat = Some e ∧ lt !! S (p - pos) = Some e' ∧
          le_address e ≤ pc < le_address e'.
Proof.
  revert pos. induction lt as [|prev lt IH]; intros pos; simpl; [done|].
  destruct lt as [|next rest]; [done|].
  destruct ((le_address prev <=? pc) && (pc <? le_address next)) eqn:Hrow.
  - intros [= ->]. replace (p - p)%nat with 0%nat by lia.
    exists prev, next. apply andb_true_iff in Hrow as [?%Z.leb_le ?%Z.ltb_lt]. done.
  - intros Hp. pose proof (find_address_from_lookup _ _ _ _ Hp) as [Hle _].
    apply IH in Hp as (e & e' & He & He' & Hrange).
    exists e, e'. replace (p - pos)%nat with (S (p - S pos)) by lia. done.
Qed.

Section Lookups.

Context {T : Type} `{!Ptrace T}.
Variable m_dwarf : list compilation_unit.

(** X7: [get_function_from_pc] returns a subprogram entry whose range
    contains the address, taken from a compilation unit whose range contains
    it; it throws [std::out_of_range] exactly when no unit has such an entry.
    Either way the debugger is left unchanged. *)
Theorem get_function_from_pc_finds (pc : Z) (s : @state T) :
  (∃ d cu, get_function_from_pc m_dwarf pc s = (Returns d, s) ∧
     die_tag d = subprogram ∧ die_contains d pc = true ∧
     cu ∈ m_dwarf ∧ die_contains (cu_root cu) pc = true ∧ d ∈ die_children (cu_root cu)) ∨
  (get_function_from_pc m_dwarf pc s = (Throws (out_of_range "Cannot find function"), s) ∧
   ∀ cu d, cu ∈ m_dwarf → die_contains (cu_root cu) pc = true →
     d ∈ die_children (cu_root cu) → die_tag d = subprogram → die_contains d pc = false).
Proof.
  unfold get_function_from_pc, find_function.
  set (in_cu := λ cu : compilation_unit, if die_contains (cu_root cu) pc then _ else None).
  destruct (omap in_cu m_dwarf) as [|d l] eqn:Hall; simpl.
  - right. split; [done|]. intros cu d Hcu Hin Hd Htag.
    destruct (die_contains d pc) eqn:Hpc; [|done].
    assert (in_cu cu = None) as Hnone.
    { destruct (in_cu cu) as [d'|] eqn:Hd'; [|done].
      assert (d' ∈ omap in_cu m_dwarf) as Hel by (apply list_elem_of_omap; eauto).
      rewrite Hall in Hel. by apply elem_of_nil in Hel. }
    unfold in_cu in Hnone. rewrite Hin in Hnone.
    apply list_elem_of_In in Hd.
    pose proof (find_none _ _ Hnone d Hd) as Hf. simpl in Hf.
    rewrite Hpc, Htag in Hf. by rewrite bool_decide_eq_true_2 in Hf.
  - left. assert (d ∈ omap in_cu m_dwarf) as Hel by (rewrite Hall; left).
    apply list_elem_of_omap in Hel as (cu & Hcu & Hd). unfold in_cu in Hd.
    destruct (die_contains (cu_root cu) pc) eqn:Hin; [|done].
    apply find_some in Hd as [Hd [Htag Hpc]%andb_true_iff].
    apply bool_decide_eq_true in Htag. apply list_elem_of_In in Hd.
    by exists d, cu.
Qed.

(** X8: [get_line_entry_from_pc] only consults the first compilation
    unit whose range contains the address. The iterator it returns belongs to
    that unit's table and points at a row whose address is at most the
    address looked up, followed by a row above it, so that it can be
    dereferenced and advanced once; otherwise [std::out_of_range] is thrown.
    The debugger is left unchanged. *)
Theorem get_line_entry_from_pc_row (pc : Z) (s : @state T) :
  match get_line_entry_from_pc m_dwarf pc s with
  | (Returns it, s') =>
      s' = s ∧
      ∃ cu e e', find (λ cu, die_contains (cu_root cu) pc) m_dwarf = Some cu ∧
        it_table it = cu_line_table cu ∧
        it_deref it = Some e ∧ it_deref (it_next it) = Some e' ∧
        le_address e ≤ pc < le_address e'
  | (Throws e, s') => s' = s ∧ e = out_of_range "Cannot find line entry"
  | _ => False
  end.
Proof.
  unfold get_line_entry_from_pc, find_line_entry, find_address.
  destruct (find _ m_dwarf) as [cu|]; [|done].
  destruct (find_address_from 0 (cu_line_table cu) pc) as [pos|] eqn:Hpos; [|done].
  simpl. split; [done|].
  apply find_address_from_row in Hpos as (e & e' & He & He' & Hrange).
  replace (pos - 0)%nat with pos in * by lia.
  by exists cu, e, e'.
Qed.

End Lookups.

(** *** The breakpoint table *)

Lemma testbit_255 (n : Z) : 0 ≤ n → Z.testbit 255 n = (n <? 8).
Proof.
  intros Hn. change 255 with (Z.ones 8). destruct (n <? 8) eqn:Hlt.
  - apply Z.ltb_lt in Hlt. apply Z.ones_spec_low. lia.
  - apply Z.ltb_ge in Hlt. apply Z.ones_spec_high. lia.
Qed.

Lemma testbit_int3_high (n : Z) : 8 ≤ n → Z.testbit int3 n = false.
Proof. intros Hn. apply Z.bits_above_log2; [done|]. change (Z.log2 int3) with 7. lia. Qed.

(** An armed word has the trap opcode in its low byte. *)
Lemma armed_word_low_byte (data : Z) : Z.land (armed_word data) 255 = int3.
Proof.
  unfold armed_word. apply Z.bits_inj'. intros n Hn.
  rewrite Z.land_spec, Z.lor_spec, Z.land_spec, Z.lnot_spec, testbit_255 by done.
  destruct (n <? 8) eqn:Hlt; simpl.
  - by rewrite andb_false_r, andb_true_r.
  - apply Z.ltb_ge in Hlt. rewrite testbit_int3_high by done. by rewrite !andb_false_r.
Qed.

(** Disarming with the saved byte undoes arming. *)
Lemma restored_armed_word (data : Z) :
  restored_word (armed_word data) (Z.land data 255) = data.
Proof.
  unfold restored_word, armed_word. apply Z.bits_inj'. intros n Hn.
  rewrite !Z.lor_spec, !Z.land_spec, Z.lor_spec, Z.land_spec, Z.lnot_spec, testbit_255
    by done.
  destruct (n <? 8) eqn:Hlt; simpl.
  - by rewrite !andb_false_r, andb_true_r.
  - apply Z.ltb_ge in Hlt. rewrite testbit_int3_high by done.
    by rewrite !andb_true_r, !andb_false_r, !orb_false_r.
Qed.

Lemma rearmed_word (data : Z) : restored_word (armed_word data) int3 = armed_word data.
Proof.
  unfold restored_word, armed_word. apply Z.bits_inj'. intros n Hn.
  rewrite !Z.lor_spec, !Z.land_spec, Z.lor_spec, Z.land_spec, Z.lnot_spec, testbit_255
    by done.
  destruct (n <? 8) eqn:Hlt; simpl.
  - by rewrite !andb_false_r.
  - apply Z.ltb_ge in Hlt. rewrite testbit_int3_high by done.
    by rewrite !andb_true_r, !orb_false_r.
Qed.

Section Table.

Context {T : Type} `{!Ptrace T}.

#[local] Arguments ptrace : simpl never.

Lemma m_pid_poke (a w : Z) (s : @state T) :
  m_pid (ptrace (PTRACE_POKEDATA a w) s) = pokedata (m_pid s) a w.
Proof. reflexivity. Qed.

(** X9: [remove_breakpoint] on an address without a breakpoint throws
    [std::out_of_range] and changes nothing. Otherwise it returns, the entry
    is erased and no other entry changes; tracee memory is written once, at
    the breakpoint's address, when the breakpoint was enabled, and not at all
    when it was not. *)
Theorem remove_breakpoint_erases (addr : Z) (s : @state T) :
  match m_breakpoints s !! addr with
  | None => remove_breakpoint addr s = (Throws (out_of_range "unordered_map::at"), s)
  | Some bp =>
      ∃ s', remove_breakpoint addr s = (Returns tt, s') ∧
        m_breakpoints s' = delete addr (m_breakpoints s) ∧
        ptrace_log s' = ptrace_log s ++
          if m_enabled bp then
            [PTRACE_POKEDATA (u64 (m_addr bp))
               (restored_word (peekdata (m_pid s) (u64 (m_addr bp))) (m_saved_data bp))]
          else []
  end.
Proof.
  unfold remove_breakpoint, bind, gets. simpl.
  destruct (m_breakpoints s !! addr) as [bp|] eqn:Hbp; [|done].
  unfold is_enabled, through_reference, disable, bind, gets, read_memory, modify, ret.
  destruct (m_enabled bp) eqn:Hen; simpl.
  - rewrite Hbp, Hen. simpl. eexists. split; [done|]. simpl.
    by rewrite delete_insert_eq.
  - eexists. split; [done|]. simpl. by rewrite app_nil_r.
Qed.

(** X10: on a tracee whose memory reads back what was written,
    [set_breakpoint_at_address] followed by [remove_breakpoint] of the same
    address writes the trap word and then the original word: the word at the
    address is what it was, and the table has no entry for the address. *)
Theorem set_then_remove_restores (addr : Z) (s : @state T) :
  (∀ (t : T) (a w : Z), peekdata (pokedata t a w) a = w) →
  ∃ s',
    (set_breakpoint_at_address addr ;; remove_breakpoint addr) s = (Returns tt, s') ∧
    m_breakpoints s' = delete addr (m_breakpoints s) ∧
    peekdata (m_pid s') (u64 addr) = peekdata (m_pid s) (u64 addr) ∧
    ptrace_log s' = ptrace_log s ++
      [PTRACE_POKEDATA (u64 addr) (armed_word (peekdata (m_pid s) (u64 addr)));
       PTRACE_POKEDATA (u64 addr) (peekdata (m_pid s) (u64 addr))].
Proof.
  intros Hmem.
  unfold set_breakpoint_at_address, remove_breakpoint, enable, new_breakpoint, bind, gets,
    read_memory, modify, ret. simpl.
  rewrite lookup_insert_eq. cbn.
  unfold through_reference, disable, bind, gets, read_memory, modify, ret. simpl.
  rewrite lookup_insert_eq. cbn.
  rewrite m_pid_poke, Hmem, restored_armed_word.
  eexists. split; [done|]. simpl. split; [|split].
  - by rewrite insert_insert_eq, delete_insert_eq.
  - unfold ptrace. simpl. by rewrite Hmem.
  - unfold ptrace. simpl. by rewrite <- app_assoc.
Qed.

(** X11: [set_breakpoint_at_address] does not look for an entry that is
    already there. Setting a breakpoint twice at one address saves the trap
    opcode as the original byte, so that after [remove_breakpoint] the table
    has no entry for the address while the tracee still has the trap opcode
    there. *)
Theorem set_twice_keeps_trap (addr : Z) (s : @state T) :
  (∀ (t : T) (a w : Z), peekdata (pokedata t a w) a = w) →
  ∃ s',
    (set_breakpoint_at_address addr ;; set_breakpoint_at_address addr ;;
     remove_breakpoint addr) s = (Returns tt, s') ∧
    m_breakpoints s' !! addr = None ∧
    peekdata (m_pid s') (u64 addr) = armed_word (peekdata (m_pid s) (u64 addr)) ∧
    Z.land (peekdata (m_pid s') (u64 addr)) 255 = int3.
Proof.
  intros Hmem.
  unfold set_breakpoint_at_address, remove_breakpoint, enable, new_breakpoint, bind, gets,
    read_memory, modify, ret. simpl.
  rewrite lookup_insert_eq. cbn.
  unfold through_reference, disable, bind, gets, read_memory, modify, ret. simpl.
  rewrite lookup_insert_eq. cbn.
  eexists. split; [done|]. simpl. split; [by rewrite lookup_delete_eq|].
  unfold ptrace. simpl. rewrite !Hmem, armed_word_low_byte, !rearmed_word.
  split; [exact (rearmed_word _) | apply armed_word_low_byte].
Qed.

End Table.

Lemma set_then_remove_restores_witness :
  ∃ s' : @state toy,
    (set_breakpoint_at_address 4100 ;; remove_breakpoint 4100) toy_idle = (Returns tt, s') ∧
    m_breakpoints s' = delete 4100 (m_breakpoints toy_idle) ∧
    peekdata (m_pid s') (u64 4100) = peekdata (m_pid toy_idle) (u64 4100) ∧
    ptrace_log s' = ptrace_log toy_idle ++
      [PTRACE_POKEDATA (u64 4100) (armed_word (peekdata (m_pid toy_idle) (u64 4100)));
       PTRACE_POKEDATA (u64 4100) (peekdata (m_pid toy_idle) (u64 4100))].
Proof.
  apply (set_then_remove_restores 4100 toy_idle).
  intros t a w. simpl. by rewrite decide_True.
Defined.

Lemma set_twice_keeps_trap_witness :
  ∃ s' : @state toy,
    (set_breakpoint_at_address 4100 ;; set_breakpoint_at_address 4100 ;;
     remove_breakpoint 4100) toy_idle = (Returns tt, s') ∧
    m_breakpoints s' !! 4100 = None ∧
    peekdata (m_pid s') (u64 4100) = armed_word (peekdata (m_pid toy_idle) (u64 4100)) ∧
    Z.land (peekdata (m_pid s') (u64 4100)) 255 = int3.
Proof.
  apply (set_twice_keeps_trap 4100 toy_idle).
  intros t a w. simpl. by rewrite decide_True.
Defined.

(** *** Placing breakpoints *)

Section Placement.

Context {T : Type} `{!Ptrace T}.
Variable m_dwarf : list compilation_unit.

Lemma set_breakpoint_at_function_dies_unknown (name : string) (dies : list die)
    (s : @state T) :
  (∀ d, d ∈ dies → die_name d ≠ Some name) →
  set_breakpoint_at_function_dies m_dwarf name dies s = (Returns tt, s).
Proof.
  induction dies as [|d dies IH]; intros Hno; simpl; [done|].
  unfold bind. rewrite bool_decide_eq_false_2 by (apply Hno; left). simpl.
  apply IH. intros d' Hd'. apply Hno. by right.
Qed.

(** X12: [set_breakpoint_at_function] with a name no entry of the debug
    information carries returns without a message and changes nothing. *)
Theorem set_breakpoint_at_function_unknown_name (name : string) (s : @state T) :
  (∀ cu d, cu ∈ m_dwarf → d ∈ die_children (cu_root cu) → die_name d ≠ Some name) →
  set_breakpoint_at_function m_dwarf name s = (Returns tt, s).
Proof.
  unfold set_breakpoint_at_function. generalize m_dwarf at 1 3 as cus.
  induction cus as [|cu cus IH]; intros Hno; simpl; [done|].
  unfold bind. rewrite set_breakpoint_at_function_dies_unknown.
  - apply IH. intros cu' d Hcu'. apply Hno. by right.
  - intros d. apply Hno. left.
Qed.

(** X13: when [set_breakpoint_at_source_line] returns it has either
    changed nothing, or made the one call of [set_breakpoint_at_address] for
    a statement row of the requested line, in a compilation unit whose name
    ends with the requested file name. *)
Theorem set_breakpoint_at_source_line_row (file : string) (line : Z) (s s' : @state T) :
  set_breakpoint_at_source_line m_dwarf file line s = (Returns tt, s') →
  s' = s ∨
  ∃ cu n e, cu ∈ m_dwarf ∧ die_name (cu_root cu) = Some n ∧ is_suffix file n = true ∧
    e ∈ cu_line_table cu ∧ le_is_stmt e = true ∧ le_line e = to_unsigned line ∧
    set_breakpoint_at_address (to_intptr (le_address e)) s = (Returns tt, s').
Proof.
  unfold set_breakpoint_at_source_line. generalize m_dwarf as cus.
  induction cus as [|cu cus IH]; simpl.
  - intros [= <-]. by left.
  - unfold bind, at_name.
    destruct (die_name (cu_root cu)) as [n|] eqn:Hn; [|done]. simpl.
    destruct (is_suffix file n) eqn:Hsuf.
    + destruct (find _ (cu_line_table cu)) as [e|] eqn:He.
      * intros Hset. right.
        apply find_some in He as [He [Hstmt Hline%bool_decide_eq_true]%andb_true_iff].
        exists cu, n, e.
        apply list_elem_of_In in He. repeat split; try done. left.
      * intros Hrest. destruct (IH Hrest) as [->|(cu' & n' & e & Hcu & Hrest')];
          [by left | right].
        exists cu', n', e. split; [by right | done].
    + intros Hrest. destruct (IH Hrest) as [->|(cu' & n' & e & Hcu & Hrest')];
        [by left | right].
      exists cu', n', e. split; [by right | done].
Qed.

End Placement.

Lemma set_breakpoint_at_function_unknown_name_witness :
  set_breakpoint_at_function toy_dwarf "helper" toy_idle = (Returns tt, toy_idle).
Proof.
  apply (set_breakpoint_at_function_unknown_name toy_dwarf "helper" toy_idle).
  intros cu d Hcu Hd. apply list_elem_of_singleton in Hcu as ->. simpl in Hd.
  apply list_elem_of_singleton in Hd as ->. simpl. discriminate.
Defined.

Lemma set_breakpoint_at_source_line_row_witness :
  let s' := (set_breakpoint_at_source_line toy_dwarf "a.c" 3 toy_idle).2 in
  s' = toy_idle ∨
  ∃ cu n e, cu ∈ toy_dwarf ∧ die_name (cu_root cu) = Some n ∧ is_suffix "a.c" n = true ∧
    e ∈ cu_line_table cu ∧ le_is_stmt e = true ∧ le_line e = to_unsigned 3 ∧
    set_breakpoint_at_address (to_intptr (le_address e)) toy_idle = (Returns tt, s').
Proof.
  apply (set_breakpoint_at_source_line_row toy_dwarf "a.c" 3 toy_idle).
  apply returned. reflexivity.
Defined.

(** *** Stepping *)

Section Stepping.

Context {T : Type} `{!Ptrace T}.
Variable m_dwarf : list compilation_unit.
Variable files : string → option string.
Variable bound : nat.

#[local] Arguments single_step_instruction_with_breakpoint_check : simpl never.
#[local] Arguments print_source : simpl never.
#[local] Arguments step_in_advice : simpl never.
#[local] Arguments continue_execution : simpl never.
#[local] Arguments set_breakpoint_at_address : simpl never.

(** [current_line] reads the tracee and nothing else. *)
Lemma current_line_reads (s s2 : @state T) :
  (current_line m_dwarf s).2 = s ∧
  (m_pid s2 = m_pid s → (current_line m_dwarf s2).1 = (current_line m_dwarf s).1).
Proof.
  unfold current_line, bind, get_pc, get_register_value, gets, get_line_entry_from_pc, arrow.
  simpl. split.
  - destruct (find_line_entry m_dwarf _) as [it|]; simpl; [|done].
    by destruct (it_deref it).
  - intros ->. destruct (find_line_entry m_dwarf _) as [it|]; simpl; [|done].
    by destruct (it_deref it).
Qed.

Lemma step_in_loop_leaves (n : nat) (line : Z) (s s' : @state T) :
  step_in_loop m_dwarf files n line s = (Returns tt, s') →
  ∃ l', current_line m_dwarf s' = (Returns l', s') ∧ l' ≠ line.
Proof.
  revert s. induction n as [|n IH]; intros s; simpl; [done|].
  unfold bind at 1.
  pose proof (current_line_reads s s) as [Hs _].
  destruct (current_line m_dwarf s) as [[l| | |] s1] eqn:Hl; try done.
  simpl in Hs. subst s1.
  destruct (bool_decide (l = line)) eqn:Heq.
  - intros (? & s2 & _ & Hloop)%bind_Returns. by apply IH in Hloop.
  - intros [= <-]. exists l. split; [done|]. by apply bool_decide_eq_false in Heq.
Qed.

(** X14: when [step_in] or [step_in_advice] returns, the program counter
    has a line entry and its line differs from the line the call started
    on. *)
Theorem step_in_leaves_line (s s' : @state T) :
  step_in m_dwarf files bound s = (Returns tt, s') ∨
  step_in_advice m_dwarf files bound s = (Returns tt, s') →
  ∃ l l', current_line m_dwarf s = (Returns l, s) ∧
          current_line m_dwarf s' = (Returns l', s') ∧ l' ≠ l.
Proof.
  assert (∀ s2 l', current_line m_dwarf s2 = (Returns l', s2) → m_pid s' = m_pid s2 →
            current_line m_dwarf s' = (Returns l', s')) as Hmove.
  { intros s2 l' Hl' Hpid. pose proof (current_line_reads s2 s') as [_ Hsame].
    pose proof (current_line_reads s' s') as [Hs' _].
    specialize (Hsame Hpid). rewrite Hl' in Hsame. simpl in Hsame.
    destruct (current_line m_dwarf s') as [o s3]. simpl in *. by subst. }
  pose proof (current_line_reads s s) as [Hs _].
  intros [Hstep|Hstep].
  - unfold step_in in Hstep.
    apply bind_Returns in Hstep as (l & s1 & Hl & Hstep).
    rewrite Hl in Hs. simpl in Hs. subst s1.
    apply bind_Returns in Hstep as ([] & s2 & Hloop & Hrest).
    apply step_in_loop_leaves in Hloop as (l' & Hl' & Hne).
    exists l, l'. split; [done|]. split; [|done].
    apply (Hmove s2 l' Hl').
    revert Hrest. unfold bind, get_pc, get_register_value, gets, get_line_entry_from_pc.
    simpl. destruct (find_line_entry m_dwarf _) as [it|]; simpl; [|done].
    unfold arrow. destruct (it_deref it) as [e|]; simpl; [|done].
    unfold print_source, bind, print, modify.
    destruct (skip_to_line _ _ _). simpl. by intros [= <-].
  - unfold step_in_advice in Hstep.
    apply bind_Returns in Hstep as (l & s1 & Hl & Hstep).
    rewrite Hl in Hs. simpl in Hs. subst s1.
    apply bind_Returns in Hstep as ([] & s2 & Hloop & Hrest).
    apply step_in_loop_leaves in Hloop as (l' & Hl' & Hne).
    exists l, l'. split; [done|]. split; [|done].
    apply (Hmove s2 l' Hl').
    revert Hrest. unfold bind, get_pc, get_register_value, gets, get_line_entry_from_pc.
    simpl. destruct (find_line_entry m_dwarf _) as [it|]; simpl; [|done].
    by intros [= <-].
Qed.

(** X15: when [continue_execution] returns, the table holds the
    breakpoints it held, each at its address and armed as before; the tracee
    was resumed with PTRACE_CONT, and its memory was written, if at all, only
    at the address of the breakpoint under the program counter the call
    started from. *)
Theorem continue_execution_keeps_breakpoints (s s' : @state T) :
  continue_execution m_dwarf files s = (Returns tt, s') →
  bp_view <$> m_breakpoints s' = bp_view <$> m_breakpoints s ∧
  ∃ l, ptrace_log s' = ptrace_log s ++ l ∧ PTRACE_CONT ∈ l ∧
    ∀ a, a ∈ pokes l →
      ∃ bp, m_breakpoints s !! to_intptr (getregs (m_pid s) reg.rip) = Some bp ∧
            a = u64 (m_addr bp).
Proof.
  intros Hc. split; [by apply (continue_execution_view m_dwarf files)|].
  pose proof (continue_execution_shadowed m_dwarf files s) as (_ & _ & _ & l & Hl & Hp).
  rewrite Hc in Hl. simpl in Hl. exists l. split; [done|]. split; [|done].
  unfold continue_execution in Hc.
  apply bind_Returns in Hc as ([] & s1 & Hstep & Hc).
  apply bind_Returns in Hc as ([] & s2 & Hcont & Hwait).
  unfold modify in Hcont. injection Hcont as <-.
  pose proof (step_over_breakpoint_shadowed m_dwarf files s) as (_ & _ & _ & l1 & Hl1 & _).
  rewrite Hstep in Hl1. simpl in Hl1.
  pose proof (quiet_wait_for_signal m_dwarf files (ptrace PTRACE_CONT s1))
    as (_ & l2 & Hl2 & _).
  rewrite Hwait in Hl2. simpl in Hl2.
  rewrite Hl1, <- !app_assoc in Hl2. rewrite Hl in Hl2.
  apply app_inv_head in Hl2 as ->. set_solver.
Qed.

(** X16: when the program counter is inside a function named main,
    [print_backtrace] prints the one frame of main and returns: the loop over
    the callers is not entered. *)
Theorem print_backtrace_in_main (n : nat) (d : die) (s : @state T) :
  find_function m_dwarf (getregs (m_pid s) reg.rip) = Some d →
  die_name d = Some "main" →
  print_backtrace m_dwarf (S n) s =
  (Returns tt,
   set_glob (put_cout [Str "frame #"; Num 0; Str ": 0x"; Num (die_low_pc d); Chr " ";
                       Str "main"; Endl]) s).
Proof.
  intros Hd Hname.
  unfold print_backtrace, bind, get_pc, get_register_value, gets, get_function_from_pc.
  simpl. rewrite Hd. simpl.
  unfold output_frame, bind, print, modify, at_name. simpl. rewrite Hname. simpl.
  f_equal. unfold set_glob. simpl. f_equal. by rewrite put_cout_app.
Qed.

(** X17: the loop of [runAdvice] has one way out. When it returns, a call
    of [step_in_advice] has thrown [std::out_of_range] and the call of
    [continue_execution] in the handler has returned. *)
Theorem runAdvice_loop_leaves_by_exception (n : nat) (s s' : @state T) :
  runAdvice_loop m_dwarf files bound n s = (Returns tt, s') →
  ∃ s1 s2 what,
    step_in_advice m_dwarf files bound s1 = (Throws (out_of_range what), s2) ∧
    continue_execution m_dwarf files s2 = (Returns tt, s').
Proof.
  revert s. induction n as [|n IH]; intros s; simpl; [done|].
  unfold bind at 1, try_catch_out_of_range, bind at 1.
  destruct (step_in_advice m_dwarf files bound s) as [[[]|[what|what|what]|ub|] s1] eqn:Hstep;
    simpl; try done.
  - apply IH.
  - unfold bind at 1.
    destruct (continue_execution m_dwarf files s1) as [[[]|e|ub|] s2] eqn:Hcont;
      simpl; try done.
    intros [= <-]. by exists s, s1, what.
Qed.

(** X18: the temporary breakpoints the loop of [step_over] adds to its
    list are at the addresses of rows below the end of the function, and
    never at the address of the row the program counter is on. *)
Theorem step_over_lines_addresses (rest : list line_entry) (func_end : Z)
    (start_line : line_iterator) (to_remove to_remove' : list Z) (s s' : @state T) :
  step_over_lines rest func_end start_line to_remove s = (Returns to_remove', s') →
  ∃ new, to_remove' = to_remove ++ new ∧
    ∀ k, k ∈ new →
      ∃ line start, line ∈ rest ∧ it_deref start_line = Some start ∧
        k = to_intptr (le_address line) ∧ le_address line < func_end ∧
        le_address line ≠ le_address start.
Proof.
  revert to_remove s. induction rest as [|line rest IH]; intros to_remove s; simpl; [done|].
  destruct (le_address line <? func_end) eqn:Hend.
  - apply Z.ltb_lt in Hend.
    intros (start_address & s1 & Hstart & Hrun)%bind_Returns.
    unfold arrow in Hstart. destruct (it_deref start_line) as [start|] eqn:Hderef; [|done].
    injection Hstart as <- <-.
    apply bind_Returns in Hrun as (present & s1 & Hcount & Hrun).
    apply bind_Returns in Hrun as (to_remove1 & s2 & Hset & Hrun).
    apply IH in Hrun as (new & -> & Hnew).
    destruct (negb (bool_decide (le_address line = le_address start)) && negb present)
      eqn:Hcond.
    + apply andb_true_iff in Hcond as [Hne%negb_true_iff%bool_decide_eq_false _].
      apply bind_Returns in Hset as ([] & s3 & _ & Hret). injection Hret as <- <-.
      exists (to_intptr (le_address line) :: new). split; [by rewrite <- app_assoc|].
      intros k [->|Hk]%elem_of_cons.
      * exists line, start. repeat split; try done. left.
      * destruct (Hnew k Hk) as (line' & start' & Hin & Hrest).
        exists line', start'. split; [by right | done].
    + injection Hset as <- <-. exists new. split; [done|].
      intros k Hk. destruct (Hnew k Hk) as (line' & start' & Hin & Hrest).
      exists line', start'. split; [by right | done].
  - intros [= <- <-]. exists []. split; [by rewrite app_nil_r|].
    intros k Hk. by apply elem_of_nil in Hk.
Qed.

End Stepping.

Lemma step_in_leaves_line_witness :
  let s' := (step_in_advice toy_dwarf toy_files 5 toy_on_breakpoint).2 in
  ∃ l l', current_line toy_dwarf toy_on_breakpoint = (Returns l, toy_on_breakpoint) ∧
          current_line toy_dwarf s' = (Returns l', s') ∧ l' ≠ l.
Proof.
  apply (step_in_leaves_line toy_dwarf toy_files 5 toy_on_breakpoint).
  right. apply returned. vm_compute. reflexivity.
Defined.

Lemma continue_execution_keeps_breakpoints_witness :
  let s' := (continue_execution toy_dwarf toy_files toy_finishing).2 in
  bp_view <$> m_breakpoints s' = bp_view <$> m_breakpoints toy_finishing ∧
  ∃ l, ptrace_log s' = ptrace_log toy_finishing ++ l ∧ PTRACE_CONT ∈ l ∧
    ∀ a, a ∈ pokes l →
      ∃ bp, m_breakpoints toy_finishing
              !! to_intptr (getregs (m_pid toy_finishing) reg.rip) = Some bp ∧
            a = u64 (m_addr bp).
Proof.
  apply (continue_execution_keeps_breakpoints toy_dwarf toy_files toy_finishing).
  apply returned. vm_compute. reflexivity.
Defined.

Lemma print_backtrace_in_main_witness :
  print_backtrace toy_dwarf 1 toy_idle =
  (Returns tt,
   set_glob (put_cout [Str "frame #"; Num 0; Str ": 0x"; Num (die_low_pc toy_main); Chr " ";
                       Str "main"; Endl]) toy_idle).
Proof.
  apply (print_backtrace_in_main toy_dwarf 0 toy_main toy_idle); reflexivity.
Defined.

Lemma runAdvice_loop_leaves_by_exception_witness :
  let s' := (runAdvice_loop toy_dwarf toy_files 5 5 toy_leaving).2 in
  ∃ s1 s2 what,
    step_in_advice toy_dwarf toy_files 5 s1 = (Throws (out_of_range what), s2) ∧
    continue_execution toy_dwarf toy_files s2 = (Returns tt, s').
Proof.
  intros s'.
  apply (runAdvice_loop_leaves_by_exception toy_dwarf toy_files 5 5 toy_leaving s').
  apply returned. vm_compute. reflexivity.
Defined.

Lemma step_over_lines_addresses_witness :
  let start_line := {| it_table := toy_lines; it_pos := 1 |} in
  ∃ new, [4096; 4104; 4108] = [] ++ new ∧
    ∀ k, k ∈ new →
      ∃ line start, line ∈ toy_lines ∧ it_deref start_line = Some start ∧
        k = to_intptr (le_address line) ∧ le_address line < 4112 ∧
        le_address line ≠ le_address start.
Proof.
  intros start_line.
  apply (step_over_lines_addresses toy_lines 4112 {| it_table := toy_lines; it_pos := 1 |}
           [] [4096; 4104; 4108] toy_idle
           (step_over_lines toy_lines 4112 {| it_table := toy_lines; it_pos := 1 |} []
              toy_idle).2).
  vm_compute. reflexivity.
Defined.

(** *** Command lines *)

Lemma split_leading_delimiter (d : ascii) (rest : string) :
  split (String d rest) d = EmptyString :: split rest d.
Proof.
  unfold split.
  change (split_loop (S (S (String.length (String d rest)))) ?ss ?i d []) with
    (let '(ss', item') := Cxx.getline ss i d in
     if Cxx.ok ss' then
       split_loop (S (S (String.length rest))) ss' item' d ([] ++ [item']) else []).
  unfold Cxx.getline. change (Cxx.good (Cxx.stringstream (String d rest))) with true.
  cbn iota. change (Cxx.rdbuf (Cxx.stringstream (String d rest))) with (String d rest).
  cbn [Cxx.extract_until]. rewrite Ascii.eqb_refl.
  change (Cxx.ok _) with true. cbn iota.
  by rewrite split_loop_app.
Qed.

Lemma contains_app (d : ascii) (a b : string) :
  Cxx.contains (a +:+ b) d = Cxx.contains a d || Cxx.contains b d.
Proof.
  induction a as [|c a IH]; [done|]. rewrite string_app_cons. simpl.
  by rewrite IH, orb_assoc.
Qed.

Lemma split_trailing_delimiter (d : ascii) (f : string) :
  Cxx.contains f d = false → split (f +:+ String d EmptyString) d = [f].
Proof.
  intros Hfree.
  pose proof (split_loop_join d (S (String.length (f +:+ String d EmptyString)))
                (f +:+ String d EmptyString) EmptyString) as (Hjoin & _ & Hnil); [lia|].
  cbn zeta in *. fold (split (f +:+ String d EmptyString) d) in *.
  rewrite strip_last_delimiter in Hjoin.
  destruct (split _ d) as [|x [|y r]].
  - destruct Hnil as [Hnil _]. specialize (Hnil eq_refl). destruct f; discriminate.
  - simpl in Hjoin. by subst.
  - simpl in Hjoin. rewrite <- Hjoin, contains_app in Hfree. simpl in Hfree.
    rewrite Ascii.eqb_refl in Hfree. simpl in Hfree. by rewrite orb_true_r in Hfree.
Qed.

Lemma prefix_of_snoc (c k : string) (a : ascii) :
  prefix_of c (k +:+ String a EmptyString) →
  c = k +:+ String a EmptyString ∨ prefix_of c k.
Proof.
  revert k. induction c as [|x c IH]; intros k [t Ht].
  - right. by exists k.
  - destruct k as [|y k].
    + rewrite string_app_nil_l, string_app_cons in Ht. injection Ht as <- Ht.
      destruct c; [by left | discriminate].
    + rewrite !string_app_cons in Ht. injection Ht as <- Ht.
      destruct (IH k) as [->|[u ->]]; [by exists t | by left |].
      right. exists u. by rewrite string_app_cons.
Qed.

Lemma prefix_of_step (c : string) :
  prefix_of c "step" → c ∈ [EmptyString; "s"; "st"; "ste"; "step"].
Proof.
  intros [->|[->|[->|[->|Hc]%(prefix_of_snoc _ EmptyString "s")]%(prefix_of_snoc _ "s" "t")
         ]%(prefix_of_snoc _ "st" "e")]%(prefix_of_snoc _ "ste" "p"); try set_solver.
  destruct Hc as [t Ht]. destruct c; [set_solver | discriminate].
Qed.

(** X19: the chain of [handle_command] tests [step] before [stepi]:
    [stepi] is selected by the full word only, and each of s, st, ste and
    step selects [step]. *)
Theorem dispatch_stepi_in_full (command : string) :
  (dispatch command = cmd_stepi ↔ command = "stepi") ∧
  (dispatch command = cmd_step ↔ command ∈ ["s"; "st"; "ste"; "step"]).
Proof.
  split; split.
  - unfold dispatch.
    destruct (is_prefix command "cont"); [done|].
    destruct (is_prefix command "break"); [done|].
    destruct (is_prefix command "step") eqn:Hstep; [done|].
    destruct (is_prefix command "next"); [done|].
    destruct (is_prefix command "finish"); [done|].
    destruct (is_prefix command "stepi") eqn:Hstepi.
    + intros _. apply is_prefix_spec in Hstepi.
      apply (prefix_of_snoc _ "step" "i") in Hstepi as [->|Hp]; [done|].
      apply is_prefix_spec in Hp. congruence.
    + repeat (destruct (is_prefix command _); [done|]). done.
  - by intros ->.
  - unfold dispatch.
    destruct (is_prefix command "cont") eqn:Hcont; [done|].
    destruct (is_prefix command "break"); [done|].
    destruct (is_prefix command "step") eqn:Hstep.
    + intros _. apply is_prefix_spec, prefix_of_step in Hstep.
      apply elem_of_cons in Hstep as [->|Hstep]; [done|]. done.
    + repeat (destruct (is_prefix command _); [done|]). done.
  - intros Hc. repeat (apply elem_of_cons in Hc as [->|Hc]; [done|]).
    by apply elem_of_nil in Hc.
Qed.

Section Lines.

Context {T : Type} `{!Ptrace T}.
Variable m_dwarf : list compilation_unit.
Variable m_elf : list elf_section.
Variable files : string → option string.
Variable bound : nat.

#[local] Arguments continue_execution : simpl never.
#[local] Arguments split : simpl never.

(** X20: a command line that begins with a blank resumes the tracee,
    whatever follows the blank: its first token is empty, and the empty
    string is a prefix of [cont]. *)
Theorem handle_command_leading_blank (rest : string) (s : @state T) :
  handle_command m_dwarf m_elf files bound (String " " rest) s =
  continue_execution m_dwarf files s.
Proof.
  unfold handle_command. rewrite split_leading_delimiter.
  unfold bind, index. simpl. reflexivity.
Qed.

(** X21: [break] with an operand that ends in its only colon (a file
    name without a line number) indexes the second element of a one-element
    vector: undefined behaviour, before any breakpoint is set. *)
Theorem command_break_missing_line (command f : string) (s : @state T) :
  Cxx.contains f ":" = false → is_prefix "0x" f = false →
  command_break m_dwarf [command; f +:+ ":"] s = (Undefined index_out_of_bounds, s).
Proof.
  intros Hfree H0x. unfold command_break. unfold bind at 1. unfold index at 1. simpl.
  assert (Ascii.eqb (default Cxx.NUL (Cxx.at_index (f +:+ ":") 0)) "0" &&
          Ascii.eqb (default Cxx.NUL (Cxx.at_index (f +:+ ":") 1)) "x" = false) as ->.
  { destruct f as [|a [|b f]]; try done.
    - rewrite !string_app_cons, string_app_nil_l. simpl. by rewrite andb_false_r.
    - rewrite !string_app_cons. cbn [Cxx.at_index default]. unfold id.
      destruct (Ascii.eqb a "0") eqn:Ha; [|done].
      destruct (Ascii.eqb b "x") eqn:Hb; [|done].
      apply Ascii.eqb_eq in Ha as ->. apply Ascii.eqb_eq in Hb as ->.
      assert (is_prefix "0x" (String "0" (String "x" f)) = true) as Hp
        by (apply is_prefix_spec; by exists f).
      congruence. }
  rewrite contains_app. simpl. rewrite orb_true_r.
  rewrite split_trailing_delimiter by done. reflexivity.
Qed.

End Lines.

Lemma command_break_missing_line_witness :
  command_break toy_dwarf ["break"; "a.c" +:+ ":"] toy_idle =
  (Undefined index_out_of_bounds, toy_idle).
Proof.
  apply (command_break_missing_line toy_dwarf "break" "a.c" toy_idle); reflexivity.
Defined.

Section Memory.

Context {T : Type} `{!Ptrace T}.

#[local] Arguments ptrace : simpl never.
#[local] Arguments strtol : simpl never.

Lemma stol_Returns {S} (text : string) (v : Z) (s : S) :
  strtol text 16 = Some v → - 2 ^ 63 ≤ v < 2 ^ 63 → stol text 16 s = (Returns v, s).
Proof.
  intros Hv Hrange. unfold stol. rewrite Hv.
  destruct (v <? - 2 ^ 63) eqn:Hlo; [apply Z.ltb_lt in Hlo; lia|].
  destruct (2 ^ 63 <=? v) eqn:Hhi; [apply Z.leb_le in Hhi; lia|]. done.
Qed.

(** X24: on a tracee whose memory reads back what was written, the
    command [memory write] followed by [memory read] of the same address
    issues one PTRACE_POKEDATA with the address and the value parsed from the
    operands (both hexadecimal, after their first two characters) and then
    prints that value. *)
Theorem memory_write_then_read (command a2 a3 address value : string) (a v : Z)
    (s : @state T) :
  (∀ (t : T) (p w : Z), peekdata (pokedata t p w) p = w) →
  Cxx.substr_from a2 2 = Some address → strtol address 16 = Some a →
  - 2 ^ 63 ≤ a < 2 ^ 63 →
  Cxx.substr_from a3 2 = Some value → strtol value 16 = Some v →
  - 2 ^ 63 ≤ v < 2 ^ 63 →
  ∃ s',
    (command_memory [command; "write"; a2; a3] ;;
     command_memory [command; "read"; a2]) s = (Returns tt, s') ∧
    ptrace_log s' = ptrace_log s ++ [PTRACE_POKEDATA (u64 a) (u64 v)] ∧
    cout (glob s') = cout (glob s) ++ [Hex; Num (u64 v); Endl].
Proof.
  intros Hmem Ha2 Ha Hra Ha3 Hv Hrv.
  unfold command_memory, bind, index, substr, ret. simpl. rewrite Ha2, Ha3. simpl.
  rewrite !(stol_Returns address a), !(stol_Returns value v) by done.
  unfold write_memory, read_memory, modify, gets, print, modify. simpl.
  rewrite !(stol_Returns address a) by done. simpl.
  eexists. split; [reflexivity|]. simpl. split; [done|].
  unfold ptrace. simpl. by rewrite Hmem.
Qed.

End Memory.

Lemma memory_write_then_read_witness :
  ∃ s' : @state toy,
    (command_memory ["memory"; "write"; "0x1000"; "0x2a"] ;;
     command_memory ["memory"; "read"; "0x1000"]) toy_idle = (Returns tt, s') ∧
    ptrace_log s' = ptrace_log toy_idle ++ [PTRACE_POKEDATA (u64 4096) (u64 42)] ∧
    cout (glob s') = cout (glob toy_idle) ++ [Hex; Num (u64 42); Endl].
Proof.
  apply (memory_write_then_read "memory" "0x1000" "0x2a" "1000" "2a" 4096 42 toy_idle);
    try reflexivity; try lia.
  intros t p w. simpl. by rewrite decide_True.
Defined.

(** *** What a computation leaves alone *)

Section Frame.

Context {T : Type} `{!Ptrace T}.
Variable R : relation (@state T).
Context `{!PreOrder R}.

Lemma preserves_ret {A} (a : A) : preserves R (ret a).
Proof. by intros s. Qed.

Lemma preserves_throw {A} (e : exception) : preserves (A := A) R (throw e).
Proof. by intros s. Qed.

Lemma preserves_undefined {A} (ub : undefined_behaviour) :
  preserves (A := A) R (undefined ub).
Proof. by intros s. Qed.

Lemma preserves_unfinished {A} : preserves (A := A) R unfinished.
Proof. by intros s. Qed.

Lemma preserves_gets {A} (f : @state T → A) : preserves R (gets f).
Proof. by intros s. Qed.

Lemma preserves_lift_outcome {A} (o : outcome A) : preserves R (lift_outcome o).
Proof. by intros s. Qed.

Lemma preserves_bind {A B} (c : M (@state T) A) (k : A → M (@state T) B) :
  preserves R c → (∀ a, preserves R (k a)) → preserves R (bind c k).
Proof.
  intros Hc Hk s. unfold bind. specialize (Hc s).
  destruct (c s) as [[a|e|ub|] s1]; simpl in *; try done.
  trans s1; [done | apply Hk].
Qed.

Lemma preserves_catch {A} (c handler : M (@state T) A) :
  preserves R c → preserves R handler → preserves R (try_catch_out_of_range c handler).
Proof.
  intros Hc Hh s. unfold try_catch_out_of_range. specialize (Hc s).
  destruct (c s) as [[a|[]|ub|] s1]; simpl in *; try done.
  trans s1; [done | apply Hh].
Qed.

Lemma preserves_modify (f : @state T → @state T) :
  (∀ s, R s (f s)) → preserves R (modify f).
Proof. intros Hf s. apply Hf. Qed.

End Frame.

Global Instance same_sets_preorder {T} : PreOrder (@same_sets T).
Proof.
  split.
  - by intros s.
  - intros s1 s2 s3 [H1 H2] [H3 H4]. split; congruence.
Qed.

Global Instance only_prints_preorder {T} : PreOrder (@only_prints T).
Proof.
  split.
  - intros s. repeat split. exists []. by rewrite put_cout_nil.
  - intros s1 s2 s3 (H1 & H2 & H3 & H4 & a & Ha) (H1' & H2' & H3' & H4' & b & Hb).
    repeat split; try congruence. exists (a ++ b). by rewrite Hb, Ha, put_cout_app.
Qed.

(** Walks through a computation with the lemmas above; [base] proves that
    a state update is within the relation. *)
Ltac frame base :=
  repeat first
    [ solve [eauto]
    | apply preserves_ret; apply _
    | apply preserves_throw; apply _
    | apply preserves_undefined; apply _
    | apply preserves_unfinished; apply _
    | apply preserves_gets; apply _
    | apply preserves_lift_outcome; apply _
    | apply preserves_modify; intros ?; base
    | apply preserves_bind; [apply _ | | intros ?]
    | apply preserves_catch; [apply _ | | ]
    | match goal with
      | |- preserves _ (if ?b then _ else _) => destruct b
      | |- preserves _ (match ?x with _ => _ end) => destruct x
      end ].

Ltac keeps := frame ltac:(split; reflexivity).
Ltac prints := frame ltac:(repeat split; by eexists).

(** *** The classification sets *)

Section Sets.

Context {T : Type} `{!Ptrace T}.
Variable m_dwarf : list compilation_unit.
Variable files : string → option string.
Variable bound : nat.
Variable fork : nat → option T.
Variable answer_file : nat → option string.

Lemma keeps_sets_print_source_advice (file_name : string) (line : Z) :
  preserves (T := T) same_sets (print_source_advice files file_name line).
Proof. unfold print_source_advice, print. keeps. Qed.

Lemma keeps_sets_get_line_entry_from_pc (pc : Z) :
  preserves (T := T) same_sets (get_line_entry_from_pc m_dwarf pc).
Proof. unfold get_line_entry_from_pc. keeps. Qed.

Lemma keeps_sets_arrow {A} (it : line_iterator) (field : line_entry → A) :
  preserves (T := T) same_sets (arrow it field).
Proof. unfold arrow. keeps. Qed.

Lemma keeps_sets_wait_for_signal : preserves (T := T) same_sets (wait_for_signal m_dwarf files).
Proof.
  pose proof keeps_sets_print_source_advice. pose proof keeps_sets_get_line_entry_from_pc.
  pose proof @keeps_sets_arrow.
  unfold wait_for_signal, handle_sigtrap, get_pc, set_pc, get_register_value,
    set_register_value, print.
  keeps.
Qed.

Lemma keeps_sets_through_reference (k : Z) (method : breakpoint → M (@state T) breakpoint) :
  (∀ bp, preserves (T := T) same_sets (method bp)) → preserves (T := T) same_sets (through_reference k method).
Proof. intros Hm. unfold through_reference. keeps. Qed.

Lemma keeps_sets_enable (bp : breakpoint) : preserves (T := T) same_sets (enable bp).
Proof. unfold enable, read_memory. keeps. Qed.

Lemma keeps_sets_disable (bp : breakpoint) : preserves (T := T) same_sets (disable bp).
Proof. unfold disable, read_memory. keeps. Qed.

Lemma keeps_sets_step_over_breakpoint :
  preserves (T := T) same_sets (step_over_breakpoint m_dwarf files).
Proof.
  pose proof keeps_sets_wait_for_signal.
  pose proof (λ k, keeps_sets_through_reference k _ keeps_sets_enable).
  pose proof (λ k, keeps_sets_through_reference k _ keeps_sets_disable).
  unfold step_over_breakpoint, single_step_instruction, get_pc, get_register_value, count.
  keeps.
Qed.

Lemma keeps_sets_continue_execution :
  preserves (T := T) same_sets (continue_execution m_dwarf files).
Proof.
  pose proof keeps_sets_wait_for_signal. pose proof keeps_sets_step_over_breakpoint.
  unfold continue_execution. keeps.
Qed.

Lemma keeps_sets_step_in_loop (n : nat) (line : Z) :
  preserves (T := T) same_sets (step_in_loop m_dwarf files n line).
Proof.
  pose proof keeps_sets_wait_for_signal. pose proof keeps_sets_step_over_breakpoint.
  pose proof keeps_sets_print_source_advice. pose proof keeps_sets_get_line_entry_from_pc.
  pose proof @keeps_sets_arrow.
  induction n as [|n IH]; simpl; [keeps|].
  unfold current_line, single_step_instruction_with_breakpoint_check,
    single_step_instruction, get_pc, get_register_value, count.
  keeps.
Qed.

Lemma keeps_sets_set_breakpoint_at_function (name : string) :
  preserves (T := T) same_sets (set_breakpoint_at_function m_dwarf name).
Proof.
  pose proof keeps_sets_get_line_entry_from_pc. pose proof @keeps_sets_arrow.
  pose proof keeps_sets_enable.
  assert (∀ dies, preserves (T := T) same_sets (set_breakpoint_at_function_dies m_dwarf name dies))
    as Hdies.
  { induction dies as [|d dies IH]; simpl; unfold set_breakpoint_at_address; keeps. }
  unfold set_breakpoint_at_function. generalize m_dwarf at 2 as cus.
  induction cus as [|cu cus IH]; simpl; keeps.
Qed.

Lemma keeps_sets_runAdvice : preserves (T := T) same_sets (runAdvice m_dwarf files bound).
Proof.
  pose proof keeps_sets_continue_execution. pose proof keeps_sets_set_breakpoint_at_function.
  pose proof keeps_sets_step_in_loop. pose proof keeps_sets_get_line_entry_from_pc.
  pose proof @keeps_sets_arrow.
  assert (∀ n, preserves (T := T) same_sets (runAdvice_loop m_dwarf files bound n)) as Hloop.
  { induction n as [|n IH]; simpl; [keeps|].
    unfold step_in_advice, current_line, get_pc, get_register_value. keeps. }
  unfold runAdvice, print. keeps.
Qed.

Lemma with_debugger_globals {A} (pid : T) (c : M (@state T) A) (g : globals) :
  (with_debugger pid c g).2 = glob (c (new_debugger g pid)).2.
Proof. unfold with_debugger. by destruct (c _). Qed.

Lemma grows_sets_bind {A B} (c : M (@state T) A) (k : A → M (@state T) B) :
  grows_sets c → (∀ a, grows_sets (k a)) → grows_sets (bind c k).
Proof.
  intros Hc Hk s. unfold bind. specialize (Hc s).
  destruct (c s) as [[a|e|ub|] s1]; simpl in *; try done.
  specialize (Hk a s1). destruct Hc as [Hc1 Hc2], Hk as [Hk1 Hk2].
  split; [by trans (success_set (glob s1)) | by trans (fail_set (glob s1))].
Qed.

Lemma keeps_sets_grows {A} (c : M (@state T) A) : preserves (T := T) same_sets c → grows_sets c.
Proof. intros Hc s. destruct (Hc s) as [Hs Hf]. rewrite Hs, Hf. done. Qed.

Lemma classify_grows (file : Cxx.istream) (strLine : string) (answer : option string) :
  grows_sets (T := T) (classify file strLine answer).
Proof.
  intros s.
  unfold classify. destruct (Cxx.getline file strLine Cxx.newline) as [file' strLine'].
  destruct (Cxx.getline (Cxx.open answer) EmptyString Cxx.newline) as [infile line].
  unfold bind, print, modify, gets, ret. simpl.
  destruct (bool_decide (line = strLine')); simpl; rewrite insert_keys_dom; set_solver.
Qed.

Lemma parent_grows (pid : T) (i : nat) (file : Cxx.istream) (strLine : string)
    (g : globals) :
  success_set g ⊆
    success_set (parent m_dwarf files bound answer_file pid i file strLine g).2 ∧
  fail_set g ⊆ fail_set (parent m_dwarf files bound answer_file pid i file strLine g).2.
Proof.
  unfold parent. rewrite with_debugger_globals.
  match goal with |- context [glob (?c (new_debugger g pid)).2] =>
    assert (grows_sets c) as Hgrows end.
  { apply (grows_sets_bind _ _ (keeps_sets_grows _ keeps_sets_runAdvice)). intros _.
    unfold print.
    repeat (apply grows_sets_bind; [apply keeps_sets_grows; keeps|intros _]).
    apply classify_grows. }
  exact (Hgrows (new_debugger g pid)).
Qed.

(** X22: a run of the debugger ([runAdvice]) leaves [success_set] and
    [fail_set] as they are, however it ends; the loop of [main] only ever
    adds lines to them, so a line classified after one test case is still
    classified when the report is written. *)
Theorem classification_sets_grow (n : nat) (file : Cxx.istream) (strLine : string)
    (i : nat) (g : globals) :
  preserves (T := T) same_sets (runAdvice m_dwarf files bound) ∧
  let g' := (main_loop m_dwarf files bound fork answer_file n file strLine i g).2 in
  success_set g ⊆ success_set g' ∧ fail_set g ⊆ fail_set g'.
Proof.
  split; [apply keeps_sets_runAdvice|].
  cbn zeta. revert file strLine i g. induction n as [|n IH]; intros file strLine i g;
    simpl; [done|].
  destruct (Cxx.getline file strLine Cxx.newline) as [file' strLine'].
  destruct (Cxx.ok file'); [|done].
  destruct (fork i) as [pid|]; [|apply IH].
  unfold bind. pose proof (parent_grows pid i file' strLine' g) as [Hs Hf].
  destruct (parent _ _ _ _ _ _ _ _ _) as [[next|e|ub|] g1]; simpl in *; try done.
  destruct (IH next.1 next.2 (S i) g1) as [Hs' Hf'].
  split; [by trans (success_set g1) | by trans (fail_set g1)].
Qed.

End Sets.

(** *** The commands that inspect *)

Section Inspection.

Context {T : Type} `{!Ptrace T}.
Variable m_dwarf : list compilation_unit.
Variable m_elf : list elf_section.
Variable files : string → option string.
Variable bound : nat.

Lemma only_prints_print (cs : list chunk) : preserves (T := T) only_prints (print cs).
Proof. unfold print. prints. Qed.

Lemma only_prints_print_current_source :
  preserves (T := T) only_prints (print_current_source m_dwarf files).
Proof.
  pose proof only_prints_print.
  unfold print_current_source, get_pc, get_register_value, get_line_entry_from_pc, arrow,
    print_source.
  prints.
Qed.

Lemma only_prints_read_variables : preserves (T := T) only_prints (read_variables m_dwarf).
Proof.
  pose proof only_prints_print.
  assert (∀ dies, preserves (T := T) only_prints (read_variables_dies dies)) as Hdies.
  { induction dies as [|d dies IH]; simpl; unfold read_memory, at_name; prints. }
  unfold read_variables, get_pc, get_register_value, get_function_from_pc. prints.
Qed.

Lemma only_prints_print_backtrace : preserves (T := T) only_prints (print_backtrace m_dwarf bound).
Proof.
  pose proof only_prints_print.
  assert (∀ frame_number func, preserves (T := T) only_prints (output_frame frame_number func)) as Hframe.
  { intros. unfold output_frame, at_name. prints. }
  assert (∀ n func k fp ra, preserves (T := T) only_prints (print_backtrace_loop m_dwarf n func k fp ra))
    as Hloop.
  { induction n as [|n IH]; intros; simpl; unfold at_name, get_function_from_pc, read_memory;
      prints. }
  unfold print_backtrace, get_pc, get_register_value, get_function_from_pc, read_memory.
  prints.
Qed.

(** X23: the commands status, variables, backtrace and symbol, and the
    register dump, only write to the standard output, however they end (also
    when they throw or run into undefined behaviour): the tracee, the
    requests issued on it, the breakpoint table, the hit counts, [last], the
    classification sets and the error stream are as before. *)
Theorem inspection_only_prints (args : list string) :
  preserves (T := T) only_prints (print_current_source m_dwarf files) ∧
  preserves (T := T) only_prints (read_variables m_dwarf) ∧
  preserves (T := T) only_prints (print_backtrace m_dwarf bound) ∧
  preserves (T := T) only_prints (command_symbol m_elf args) ∧
  preserves (T := T) only_prints dump_registers.
Proof.
  pose proof only_prints_print.
  split; [apply only_prints_print_current_source|].
  split; [apply only_prints_read_variables|].
  split; [apply only_prints_print_backtrace|].
  split.
  - unfold command_symbol, index. prints.
  - unfold dump_registers. generalize g_register_descriptors as rds.
    induction rds as [|rd rds IH]; simpl; unfold get_register_value; prints.
Qed.

End Inspection.
